(** * The corpus consistency checker of [generator/sanitizer.py]

    A shallow embedding of [strip_tones], [normalize_pinyin_full],
    [normalize_pinyin_stripped] and [run_sanitizer], and the properties of
    the duplicate-sentence and tone-inconsistency reports.

    Python values are modelled as follows.
    - A [str] is a list of Unicode code points ([N]).
    - A YAML mapping with optional keys is a record of [option] fields;
      [d.get(k, default)] is [get].  The values that are present have the
      types of the data model: strings, and a sequence of chunk mappings.
    - A [dict] / [defaultdict] is an association list in insertion order,
      which is the iteration order of a Python dict.
    - An exception ([IndexError], [KeyError]) is [None] in the [option]
      monad; the printed report is the list of [print] calls, each kept
      with the values it formats.
    - [unicodedata.category], [unicodedata.normalize] and [str.lower]
      belong to the Python library: their per-code-point tables are a
      parameter ([UCD]), and the algorithms over the tables (canonical
      decomposition and ordering, lowercasing with the final-sigma rule)
      are written out.  The general properties hold for every table;
      examples are evaluated on [fragment_ucd], a fragment of the
      Unicode tables. *)

From Stdlib Require Import String Ascii.
From Stdlib Require Import List NArith ZArith Bool Arith Lia Sorted Permutation.
Import ListNotations.

Set Implicit Arguments.

(** ** Python strings *)

Definition char := N.
Definition str := list char.

Definition str_eq_dec : forall a b : str, {a = b} + {a <> b} :=
  list_eq_dec N.eq_dec.

Definition str_eqb (a b : str) : bool := if str_eq_dec a b then true else false.

(** [bool(s)] of a string: non-empty. *)
Definition truthy (s : str) : bool :=
  match s with [] => false | _ :: _ => true end.

(** [<] on [str]: lexicographic on code points. *)
Fixpoint str_ltb (a b : str) : bool :=
  match a, b with
  | [], [] => false
  | [], _ :: _ => true
  | _ :: _, [] => false
  | x :: a', y :: b' => (x <? y)%N || ((x =? y)%N && str_ltb a' b')
  end.

(** [sep.join(parts)] *)
Fixpoint join (sep : str) (parts : list str) : str :=
  match parts with
  | [] => []
  | [p] => p
  | p :: rest => p ++ sep ++ join sep rest
  end.

(** Source literals are written as UTF-8 text and decoded to code points. *)
Fixpoint utf8_decode (bs : list N) (need : nat) (acc : N) : str :=
  match bs with
  | [] => []
  | b :: r =>
      match need with
      | O => if (b <? 128)%N then b :: utf8_decode r 0 0%N
             else if (b <? 224)%N then utf8_decode r 1 (b - 192)%N
             else if (b <? 240)%N then utf8_decode r 2 (b - 224)%N
             else utf8_decode r 3 (b - 240)%N
      | S O => (acc * 64 + (b - 128))%N :: utf8_decode r 0 0%N
      | S n => utf8_decode r n (acc * 64 + (b - 128))%N
      end
  end.

Definition lit (s : string) : str :=
  utf8_decode (map N_of_ascii (list_ascii_of_string s)) 0 0%N.

(** ** [sorted], on a key of type [str]

    [sorted] is stable; elements with equal keys keep their order. *)

Section Sorted.
Context {A : Type} (key : A -> str).

Fixpoint insert_by (x : A) (l : list A) : list A :=
  match l with
  | [] => [x]
  | y :: l' => if str_ltb (key y) (key x) then y :: insert_by x l' else x :: l
  end.

Definition sorted_by (l : list A) : list A := fold_right insert_by [] l.
End Sorted.

Definition sorted (l : list str) : list str := sorted_by (fun s => s) l.

(** ** Dictionaries in insertion order *)

Definition dict (V : Type) := list (str * V).

Section Dict.
Context {V : Type}.

(** [d[k] = f(d[k])] on a [defaultdict] whose factory gives [dflt]. *)
Fixpoint dd_update (k : str) (dflt : V) (f : V -> V) (d : dict V) : dict V :=
  match d with
  | [] => [(k, f dflt)]
  | (k', v) :: d' =>
      if str_eq_dec k k' then (k', f v) :: d'
      else (k', v) :: dd_update k dflt f d'
  end.

(** [d[k]] on a [defaultdict]. *)
Fixpoint dd_get (k : str) (dflt : V) (d : dict V) : V :=
  match d with
  | [] => dflt
  | (k', v) :: d' => if str_eq_dec k k' then v else dd_get k dflt d'
  end.
End Dict.

(** [d[k].append(x)] on a [defaultdict(list)]. *)
Definition dd_append {X : Type} (k : str) (x : X) (d : dict (list X)) : dict (list X) :=
  dd_update k [] (fun l => l ++ [x]) d.

(** ** Exceptions *)

Definition bind {A B : Type} (m : option A) (f : A -> option B) : option B :=
  match m with Some a => f a | None => None end.

Notation "x <- m ;; k" := (bind m (fun x => k))
  (at level 61, m at next level, right associativity).
Notation "' p <- m ;; k" := (bind m (fun x => match x with p => k end))
  (at level 61, p pattern, m at next level, right associativity).

(** A [for] loop whose body may raise. *)
Fixpoint for_each {A S : Type} (xs : list A) (body : S -> A -> option S) (s : S)
  : option S :=
  match xs with
  | [] => Some s
  | x :: r => s' <- body s x ;; for_each r body s'
  end.

(** A list comprehension whose element expression may raise. *)
Fixpoint map_m {A B : Type} (f : A -> option B) (xs : list A) : option (list B) :=
  match xs with
  | [] => Some []
  | x :: r => y <- f x ;; ys <- map_m f r ;; Some (y :: ys)
  end.

Definition get {A : Type} (field : option A) (default : A) : A :=
  match field with Some v => v | None => default end.

(** [enumerate(l)] *)
Definition enumerate {A : Type} (l : list A) : list (nat * A) :=
  combine (seq 0 (length l)) l.

(** ** The Unicode character database

    [unicodedata] and [str.lower] are library code; their per-code-point
    tables are a parameter, the string algorithms over them are written
    out. *)

Inductive general_category : Type :=
| Lu | Ll | Lt | Lm | Lo
| Mn | Mc | Me
| Nd | Nl | No
| Pc | Pd | Ps | Pe | Pi | Pf | Po
| Sm | Sc | Sk | So
| Zs | Zl | Zp
| Cc | Cf | Cs | Co | Cn.

(** [category(c).startswith('L')] *)
Definition startswith_L (g : general_category) : bool :=
  match g with Lu | Ll | Lt | Lm | Lo => true | _ => false end.

(** [category(c) != 'Mn'] *)
Definition is_not_Mn (g : general_category) : bool :=
  match g with Mn => false | _ => true end.

Class UCD : Type := {
  category : char -> general_category;   (* unicodedata.category *)
  decomposition : char -> str;           (* full canonical decomposition *)
  combining : char -> N;                 (* canonical combining class *)
  tolower_full : char -> str;            (* full lowercase mapping *)
  is_cased : char -> bool;
  is_case_ignorable : char -> bool
}.

Definition CAPITAL_SIGMA : char := 0x3A3%N.
Definition SMALL_SIGMA : char := 0x3C3%N.
Definition FINAL_SIGMA : char := 0x3C2%N.

Section UnicodeAlgorithms.
Context {U : UCD}.

(** *** [unicodedata.normalize('NFD', s)]: decompose, then put every run
    of combining marks in canonical order (an insertion sort on the
    combining class that never crosses a starter). *)

Fixpoint bubble (c : char) (racc : str) : str :=
  match racc with
  | [] => [c]
  | d :: r =>
      if (combining d =? 0)%N || (combining d <=? combining c)%N
      then c :: racc
      else d :: bubble c r
  end.

Definition canonical_step (racc : str) (c : char) : str :=
  if (combining c =? 0)%N then c :: racc else bubble c racc.

Definition canonical_order (s : str) : str :=
  rev (fold_left canonical_step s []).

Definition normalize_NFD (s : str) : str :=
  canonical_order (flat_map decomposition s).

(** *** [s.lower()]: every code point is replaced by its full lowercase
    mapping, except capital sigma, which becomes a final sigma when it
    ends a word: preceded by a cased letter and not followed by one,
    case-ignorable code points being skipped on both sides. *)

Fixpoint skip_ignorable (s : str) : str :=
  match s with
  | c :: r => if is_case_ignorable c then skip_ignorable r else s
  | [] => []
  end.

Definition final_sigma (before_rev after : str) : bool :=
  match skip_ignorable before_rev with
  | c :: _ =>
      is_cased c &&
      match skip_ignorable after with
      | d :: _ => negb (is_cased d)
      | [] => true
      end
  | [] => false
  end.

Fixpoint lower_from (before_rev s : str) : str :=
  match s with
  | [] => []
  | c :: r =>
      (if (c =? CAPITAL_SIGMA)%N
       then [if final_sigma before_rev r then FINAL_SIGMA else SMALL_SIGMA]
       else tolower_full c)
      ++ lower_from (c :: before_rev) r
  end.

Definition lower (s : str) : str := lower_from [] s.

(** ** The normalisations of the checker *)

Definition is_letter (c : char) : bool := startswith_L (category c).

Definition strip_tones (s : str) : str :=
  lower (filter (fun c => is_not_Mn (category c)) (normalize_NFD s)).

Definition normalize_pinyin_full (pinyin : str) : str :=
  lower (filter is_letter pinyin).

Definition normalize_pinyin_stripped (pinyin : str) : str :=
  let stripped := strip_tones pinyin in
  lower (filter is_letter stripped).
End UnicodeAlgorithms.

(** ** The corpus *)

(** A chunk mapping; [transliteration] is never read. *)
Record chunk : Type := {
  chinese : option str;
  pinyin : option str
}.

(** A sentence mapping. *)
Record entry : Type := {
  english : option str;
  chunks : option (list chunk)
}.

(** What [os.path.exists] and [yaml.safe_load] give for a path. *)
Inductive loaded : Type :=
| YamlError (e : str)
| Document (data : list entry).

Definition filesystem := str -> option loaded.

(** ** The report: one constructor per [print] of [run_sanitizer] *)

Inductive line : Type :=
| FileNotFound (filename : str)
| Analyzing (filename : str)
| ErrorParsingYaml (e : str)
| EmptyFile
| DuplicateSentence (chinese : str)
| PinyinOf (pinyin : str)
| EnglishOf (english : list str)
| MoreDuplicates (n : nat)
| NoDuplicates
| FoundDuplicates (n : nat)
| InconsistentTones
| ChineseOf (ch : str)
| Variant (sample_raw : str) (count : nat) (english : option str)
| NoneFound.

Section Sanitizer.
Context {U : UCD}.

Definition chunk_chinese (c : chunk) : str := get (chinese c) [].
Definition chunk_pinyin (c : chunk) : str := get (pinyin c) [].

(** [any(category(c).startswith('L') for c in ch)] *)
Definition has_letter (ch : str) : bool := existsb is_letter ch.

(** *** The first loop (lines 40-56) *)

(** [word_map : chinese_chunk -> full_pinyin -> list of sentence indices] *)
Definition word_map_t := dict (dict (list nat)).

Definition scan_chunk (i : nat) (word_map : word_map_t) (c : chunk) : word_map_t :=
  let ch := chunk_chinese c in
  let py := chunk_pinyin c in
  if negb (has_letter ch) then word_map
  else
    let py_full := normalize_pinyin_full py in
    if negb (truthy py_full) then word_map
    else dd_update ch [] (dd_append py_full i) word_map.

Definition full_chinese (cs : list chunk) : str := concat (map chunk_chinese cs).

Definition scan_entry (st : dict (list nat) * word_map_t) (ie : nat * entry)
  : dict (list nat) * word_map_t :=
  let '(chinese_groups, word_map) := st in
  let '(i, e) := ie in
  match chunks e with
  | None => st
  | Some cs =>
      (dd_append (full_chinese cs) i chinese_groups,
       fold_left (scan_chunk i) cs word_map)
  end.

Definition scan (data : list entry) : dict (list nat) * word_map_t :=
  fold_left scan_entry (enumerate data) ([], []).

Definition chinese_groups (data : list entry) : dict (list nat) := fst (scan data).
Definition word_map (data : list entry) : word_map_t := snd (scan data).

(** *** Duplicate sentences (lines 58-80) *)

(** [data[idx]['chunks']] *)
Definition chunks_at (data : list entry) (idx : nat) : option (list chunk) :=
  e <- nth_error data idx ;; chunks e.

(** [' '.join(c.get('pinyin', '') for c in data[idx]['chunks'])] *)
Definition sentence_pinyin (data : list entry) (idx : nat) : option str :=
  cs <- chunks_at data idx ;; Some (join [32%N] (map chunk_pinyin cs)).

Definition pinyin_map (data : list entry) (indices : list nat)
  : option (dict (list nat)) :=
  for_each indices
    (fun pm idx =>
       full_py <- sentence_pinyin data idx ;;
       Some (dd_append (normalize_pinyin_full full_py) idx pm))
    [].

(** The test of lines 61-68 on one group of [chinese_groups]. *)
Definition is_duplicate_group (data : list entry) (indices : list nat)
  : option bool :=
  if 1 <? length indices then
    pm <- pinyin_map data indices ;; Some (length pm =? 1)
  else Some false.

Definition QUESTION_MARKS : str := [63; 63; 63]%N.

(** The three prints of lines 70-72. *)
Definition print_duplicate (data : list entry) (group : str * list nat)
  : option (list line) :=
  let '(chinese, indices) := group in
  i0 <- nth_error indices 0 ;;
  py <- sentence_pinyin data i0 ;;
  en <- map_m (fun idx => e <- nth_error data idx ;;
                          Some (get (english e) QUESTION_MARKS)) indices ;;
  Some [DuplicateSentence chinese; PinyinOf py; EnglishOf en].

Definition duplicates_step (data : list entry) (st : nat * list line)
           (group : str * list nat) : option (nat * list line) :=
  let '(duplicates_found, out) := st in
  dup <- is_duplicate_group data (snd group) ;;
  if dup then
    out' <- (if duplicates_found <? 10
             then b <- print_duplicate data group ;; Some (out ++ b)
             else Some out) ;;
    Some (S duplicates_found, out')
  else Some st.

Definition duplicates_summary (duplicates_found : nat) : line :=
  if 10 <? duplicates_found then MoreDuplicates (duplicates_found - 10)
  else if duplicates_found =? 0 then NoDuplicates
  else FoundDuplicates duplicates_found.

Definition report_duplicates (data : list entry) (groups : dict (list nat))
  : option (list line) :=
  '(duplicates_found, out) <- for_each groups (duplicates_step data) (0, []) ;;
  Some (out ++ [duplicates_summary duplicates_found]).

(** *** Inconsistent tones (lines 82-111) *)

(** [chunk.get('chinese') == ch and
     normalize_pinyin_full(chunk.get('pinyin', '')) == fp] *)
Definition chunk_matches (ch fp : str) (c : chunk) : bool :=
  match chinese c with
  | Some ch' => str_eqb ch' ch
  | None => false
  end && str_eqb (normalize_pinyin_full (chunk_pinyin c)) fp.

(** Lines 101-106: in each sentence the first matching chunk sets
    [sample_raw]; the search stops at the first non-empty sample. *)
Fixpoint find_sample (data : list entry) (ch fp : str) (indices : list nat)
         (sample_raw : str) : option str :=
  match indices with
  | [] => Some sample_raw
  | idx :: rest =>
      cs <- chunks_at data idx ;;
      let sample_raw' :=
        match find (chunk_matches ch fp) cs with
        | Some c => chunk_pinyin c
        | None => sample_raw
        end in
      if truthy sample_raw' then Some sample_raw'
      else find_sample data ch fp rest sample_raw'
  end.

(** Lines 96-108, for one [fp]. *)
Definition variant_line (data : list entry) (ch : str)
           (py_full_map : dict (list nat)) (fp : str) : option line :=
  let indices := dd_get fp [] py_full_map in
  sample_raw <- find_sample data ch fp indices [] ;;
  i0 <- nth_error indices 0 ;;
  e0 <- nth_error data i0 ;;
  Some (Variant sample_raw (length indices) (english e0)).

(** Lines 92-108, for one item of [stripped_map]. *)
Definition tones_group (data : list entry) (ch : str)
           (py_full_map : dict (list nat)) (st : nat * list line)
           (item : str * list str) : option (nat * list line) :=
  let '(inconsistent_count, out) := st in
  let '(stripped, full_pinyins) := item in
  if 1 <? length full_pinyins then
    vs <- map_m (variant_line data ch py_full_map) (sorted full_pinyins) ;;
    Some (S inconsistent_count, out ++ ChineseOf ch :: vs)
  else Some st.

(** Lines 88-90. *)
Definition stripped_map (py_full_map : dict (list nat)) : dict (list str) :=
  fold_left
    (fun sm py_full => dd_append (normalize_pinyin_stripped py_full) py_full sm)
    (map fst py_full_map) [].

(** Lines 86-108, for one item of [word_map]. *)
Definition tones_word (data : list entry) (st : nat * list line)
           (item : str * dict (list nat)) : option (nat * list line) :=
  let '(ch, py_full_map) := item in
  if 1 <? length py_full_map then
    for_each (stripped_map py_full_map) (tones_group data ch py_full_map) st
  else Some st.

(** [sorted(word_map.items())]: the keys of a dict are distinct, so the
    comparison of two items is decided by their keys. *)
Definition sorted_items {V : Type} (d : dict V) : dict V := sorted_by fst d.

Definition report_tones (data : list entry) (wm : word_map_t)
  : option (list line) :=
  '(inconsistent_count, out) <-
     for_each (sorted_items wm) (tones_word data) (0, [InconsistentTones]) ;;
  Some (if inconsistent_count =? 0 then out ++ [NoneFound] else out).

(** *** The analysis of a loaded, non-empty document (lines 35-111) *)

Definition analyze (data : list entry) : option (list line) :=
  let '(groups, wm) := scan data in
  dups <- report_duplicates data groups ;;
  tones <- report_tones data wm ;;
  Some (dups ++ tones).

(** *** [run_sanitizer] *)

Definition run_sanitizer (fs : filesystem) (filename : str)
  : option (list line) :=
  match fs filename with
  | None => Some [FileNotFound filename]
  | Some (YamlError e) => Some [Analyzing filename; ErrorParsingYaml e]
  | Some (Document []) => Some [Analyzing filename; EmptyFile]
  | Some (Document data) =>
      body <- analyze data ;; Some (Analyzing filename :: body)
  end.
End Sanitizer.

(** ** A fragment of the Unicode character database

    The code points of pinyin text and of the examples below: Basic Latin
    letters, digits and some punctuation, the tone-marked vowels of pinyin
    with their capitals, the combining tone marks, the CJK unified
    ideographs with some CJK punctuation, and the Greek sigmas.  Every
    other code point is treated as unassigned (category [Cn], no
    decomposition, no case mapping). *)

Record ucd_row : Type := Row {
  row_category : general_category;
  row_combining : N;
  row_decomposition : str;
  row_lower : str;
  row_cased : bool;
  row_case_ignorable : bool
}.

Definition between (lo hi c : N) : bool := ((lo <=? c) && (c <=? hi))%N.

Definition fragment_rows : list (N * ucd_row) :=
  [
    (0x0020, Row Zs 0 [0x20] [0x20] false false)%N;
    (0x0021, Row Po 0 [0x21] [0x21] false false)%N;
    (0x0027, Row Po 0 [0x27] [0x27] false true)%N;
    (0x002C, Row Po 0 [0x2C] [0x2C] false false)%N;
    (0x002D, Row Pd 0 [0x2D] [0x2D] false false)%N;
    (0x002E, Row Po 0 [0x2E] [0x2E] false true)%N;
    (0x003A, Row Po 0 [0x3A] [0x3A] false true)%N;
    (0x003F, Row Po 0 [0x3F] [0x3F] false false)%N;
    (0x00B7, Row Po 0 [0xB7] [0xB7] false true)%N;
    (0x00C0, Row Lu 0 [0x41; 0x300] [0xE0] true false)%N;
    (0x00C1, Row Lu 0 [0x41; 0x301] [0xE1] true false)%N;
    (0x00C8, Row Lu 0 [0x45; 0x300] [0xE8] true false)%N;
    (0x00C9, Row Lu 0 [0x45; 0x301] [0xE9] true false)%N;
    (0x00CA, Row Lu 0 [0x45; 0x302] [0xEA] true false)%N;
    (0x00CC, Row Lu 0 [0x49; 0x300] [0xEC] true false)%N;
    (0x00CD, Row Lu 0 [0x49; 0x301] [0xED] true false)%N;
    (0x00D2, Row Lu 0 [0x4F; 0x300] [0xF2] true false)%N;
    (0x00D3, Row Lu 0 [0x4F; 0x301] [0xF3] true false)%N;
    (0x00D9, Row Lu 0 [0x55; 0x300] [0xF9] true false)%N;
    (0x00DA, Row Lu 0 [0x55; 0x301] [0xFA] true false)%N;
    (0x00DC, Row Lu 0 [0x55; 0x308] [0xFC] true false)%N;
    (0x00E0, Row Ll 0 [0x61; 0x300] [0xE0] true false)%N;
    (0x00E1, Row Ll 0 [0x61; 0x301] [0xE1] true false)%N;
    (0x00E8, Row Ll 0 [0x65; 0x300] [0xE8] true false)%N;
    (0x00E9, Row Ll 0 [0x65; 0x301] [0xE9] true false)%N;
    (0x00EA, Row Ll 0 [0x65; 0x302] [0xEA] true false)%N;
    (0x00EC, Row Ll 0 [0x69; 0x300] [0xEC] true false)%N;
    (0x00ED, Row Ll 0 [0x69; 0x301] [0xED] true false)%N;
    (0x00F2, Row Ll 0 [0x6F; 0x300] [0xF2] true false)%N;
    (0x00F3, Row Ll 0 [0x6F; 0x301] [0xF3] true false)%N;
    (0x00F9, Row Ll 0 [0x75; 0x300] [0xF9] true false)%N;
    (0x00FA, Row Ll 0 [0x75; 0x301] [0xFA] true false)%N;
    (0x00FC, Row Ll 0 [0x75; 0x308] [0xFC] true false)%N;
    (0x0100, Row Lu 0 [0x41; 0x304] [0x101] true false)%N;
    (0x0101, Row Ll 0 [0x61; 0x304] [0x101] true false)%N;
    (0x0112, Row Lu 0 [0x45; 0x304] [0x113] true false)%N;
    (0x0113, Row Ll 0 [0x65; 0x304] [0x113] true false)%N;
    (0x011A, Row Lu 0 [0x45; 0x30C] [0x11B] true false)%N;
    (0x011B, Row Ll 0 [0x65; 0x30C] [0x11B] true false)%N;
    (0x012A, Row Lu 0 [0x49; 0x304] [0x12B] true false)%N;
    (0x012B, Row Ll 0 [0x69; 0x304] [0x12B] true false)%N;
    (0x0130, Row Lu 0 [0x49; 0x307] [0x69; 0x307] true false)%N;
    (0x0143, Row Lu 0 [0x4E; 0x301] [0x144] true false)%N;
    (0x0144, Row Ll 0 [0x6E; 0x301] [0x144] true false)%N;
    (0x0147, Row Lu 0 [0x4E; 0x30C] [0x148] true false)%N;
    (0x0148, Row Ll 0 [0x6E; 0x30C] [0x148] true false)%N;
    (0x014C, Row Lu 0 [0x4F; 0x304] [0x14D] true false)%N;
    (0x014D, Row Ll 0 [0x6F; 0x304] [0x14D] true false)%N;
    (0x016A, Row Lu 0 [0x55; 0x304] [0x16B] true false)%N;
    (0x016B, Row Ll 0 [0x75; 0x304] [0x16B] true false)%N;
    (0x01CD, Row Lu 0 [0x41; 0x30C] [0x1CE] true false)%N;
    (0x01CE, Row Ll 0 [0x61; 0x30C] [0x1CE] true false)%N;
    (0x01CF, Row Lu 0 [0x49; 0x30C] [0x1D0] true false)%N;
    (0x01D0, Row Ll 0 [0x69; 0x30C] [0x1D0] true false)%N;
    (0x01D1, Row Lu 0 [0x4F; 0x30C] [0x1D2] true false)%N;
    (0x01D2, Row Ll 0 [0x6F; 0x30C] [0x1D2] true false)%N;
    (0x01D3, Row Lu 0 [0x55; 0x30C] [0x1D4] true false)%N;
    (0x01D4, Row Ll 0 [0x75; 0x30C] [0x1D4] true false)%N;
    (0x01D5, Row Lu 0 [0x55; 0x308; 0x304] [0x1D6] true false)%N;
    (0x01D6, Row Ll 0 [0x75; 0x308; 0x304] [0x1D6] true false)%N;
    (0x01D7, Row Lu 0 [0x55; 0x308; 0x301] [0x1D8] true false)%N;
    (0x01D8, Row Ll 0 [0x75; 0x308; 0x301] [0x1D8] true false)%N;
    (0x01D9, Row Lu 0 [0x55; 0x308; 0x30C] [0x1DA] true false)%N;
    (0x01DA, Row Ll 0 [0x75; 0x308; 0x30C] [0x1DA] true false)%N;
    (0x01DB, Row Lu 0 [0x55; 0x308; 0x300] [0x1DC] true false)%N;
    (0x01DC, Row Ll 0 [0x75; 0x308; 0x300] [0x1DC] true false)%N;
    (0x01F8, Row Lu 0 [0x4E; 0x300] [0x1F9] true false)%N;
    (0x01F9, Row Ll 0 [0x6E; 0x300] [0x1F9] true false)%N;
    (0x0300, Row Mn 230 [0x300] [0x300] false true)%N;
    (0x0301, Row Mn 230 [0x301] [0x301] false true)%N;
    (0x0302, Row Mn 230 [0x302] [0x302] false true)%N;
    (0x0304, Row Mn 230 [0x304] [0x304] false true)%N;
    (0x0307, Row Mn 230 [0x307] [0x307] false true)%N;
    (0x0308, Row Mn 230 [0x308] [0x308] false true)%N;
    (0x030C, Row Mn 230 [0x30C] [0x30C] false true)%N;
    (0x0323, Row Mn 220 [0x323] [0x323] false true)%N;
    (0x0391, Row Lu 0 [0x391] [0x3B1] true false)%N;
    (0x03A3, Row Lu 0 [0x3A3] [0x3C3] true false)%N;
    (0x03B1, Row Ll 0 [0x3B1] [0x3B1] true false)%N;
    (0x03C2, Row Ll 0 [0x3C2] [0x3C2] true false)%N;
    (0x03C3, Row Ll 0 [0x3C3] [0x3C3] true false)%N;
    (0x1E3E, Row Lu 0 [0x4D; 0x301] [0x1E3F] true false)%N;
    (0x1E3F, Row Ll 0 [0x6D; 0x301] [0x1E3F] true false)%N;
    (0x2019, Row Pf 0 [0x2019] [0x2019] false true)%N;
    (0x3001, Row Po 0 [0x3001] [0x3001] false false)%N;
    (0x3002, Row Po 0 [0x3002] [0x3002] false false)%N;
    (0xFF01, Row Po 0 [0xFF01] [0xFF01] false false)%N;
    (0xFF0C, Row Po 0 [0xFF0C] [0xFF0C] false false)%N;
    (0xFF1F, Row Po 0 [0xFF1F] [0xFF1F] false false)%N
  ].

Fixpoint find_row (c : N) (rows : list (N * ucd_row)) : option ucd_row :=
  match rows with
  | [] => None
  | (c', r) :: rows' => if (c =? c')%N then Some r else find_row c rows'
  end.

Definition fragment_row (c : char) : ucd_row :=
  if between 0x41 0x5A c then Row Lu 0 [c] [(c + 32)%N] true false
  else if between 0x61 0x7A c then Row Ll 0 [c] [c] true false
  else if between 0x30 0x39 c then Row Nd 0 [c] [c] false false
  else if between 0x4E00 0x9FFF c then Row Lo 0 [c] [c] false false
  else match find_row c fragment_rows with
       | Some r => r
       | None => Row Cn 0 [c] [c] false false
       end.

Definition fragment_ucd : UCD := {|
  category c := row_category (fragment_row c);
  decomposition c := row_decomposition (fragment_row c);
  combining c := row_combining (fragment_row c);
  tolower_full c := row_lower (fragment_row c);
  is_cased c := row_cased (fragment_row c);
  is_case_ignorable c := row_case_ignorable (fragment_row c)
|}.


(** ** Notions used to state the properties *)

(** [k in d] / [d[k]] without the default. *)
Fixpoint lookup {V : Type} (k : str) (d : dict V) : option V :=
  match d with
  | [] => None
  | (k', v) :: d' => if str_eq_dec k k' then Some v else lookup k d'
  end.

(** [k in l] *)
Definition mem (k : str) (l : list str) : bool := existsb (str_eqb k) l.

(** The distinct elements of a list, in the order of their first
    occurrence. *)
Fixpoint first_occurrences (l : list str) : list str :=
  match l with
  | [] => []
  | k :: r => k :: filter (fun k' => negb (str_eqb k' k)) (first_occurrences r)
  end.

(** The values paired with key [k], in order. *)
Definition values {X : Type} (k : str) (kxs : list (str * X)) : list X :=
  map snd (filter (fun kx => str_eqb (fst kx) k) kxs).

(** A [defaultdict] filled by one update per pair of a list. *)
Definition group_with {V X : Type} (step : V -> X -> V) (dflt : V)
           (kxs : list (str * X)) (d0 : dict V) : dict V :=
  fold_left (fun d kx => dd_update (fst kx) dflt (fun v => step v (snd kx)) d)
            kxs d0.

Definition snoc {X : Type} (l : list X) (x : X) : list X := l ++ [x].

Definition enumerate_from {A : Type} (n : nat) (l : list A) : list (nat * A) :=
  combine (seq n (length l)) l.

Section Notions.
Context {U : UCD}.

(** The records that have chunks, with their position and their
    concatenated Chinese text. *)
Definition sentence_keys_from (n : nat) (data : list entry) : list (str * nat) :=
  flat_map (fun ie => match chunks (snd ie) with
                      | Some cs => [(full_chinese cs, fst ie)]
                      | None => []
                      end) (enumerate_from n data).

Definition sentence_keys (data : list entry) : list (str * nat) :=
  sentence_keys_from 0 data.

(** The chunk occurrences of the corpus, in order, with the position of
    their sentence. *)
Definition occurrences_from (n : nat) (data : list entry) : list (nat * chunk) :=
  flat_map (fun ie => match chunks (snd ie) with
                      | Some cs => map (pair (fst ie)) cs
                      | None => []
                      end) (enumerate_from n data).

Definition occurrences (data : list entry) : list (nat * chunk) :=
  occurrences_from 0 data.

(** The chunk occurrences that the first loop records in [word_map]. *)
Definition recorded (c : chunk) : bool :=
  has_letter (chunk_chinese c) && truthy (normalize_pinyin_full (chunk_pinyin c)).

Definition word_triple (ic : nat * chunk) : list (str * (str * nat)) :=
  if recorded (snd ic)
  then [(chunk_chinese (snd ic), (normalize_pinyin_full (chunk_pinyin (snd ic)), fst ic))]
  else [].

Definition word_triples_from (n : nat) (data : list entry) : list (str * (str * nat)) :=
  flat_map word_triple (occurrences_from n data).

Definition word_step (pfm : dict (list nat)) (x : str * nat) : dict (list nat) :=
  dd_append (fst x) (snd x) pfm.

(** The concatenated Chinese text and the full-letters pinyin key of
    record [i], when it has chunks. *)
Definition record_chinese (data : list entry) (i : nat) : option str :=
  option_map full_chinese (chunks_at data i).

Definition sentence_key (data : list entry) (i : nat) : option str :=
  option_map normalize_pinyin_full (sentence_pinyin data i).

Definition has_chunks (data : list entry) (idx : nat) : Prop :=
  exists cs, chunks_at data idx = Some cs.

Definition key_of (data : list entry) (idx : nat) : str :=
  get (sentence_key data idx) [].

Definition well_formed_group (data : list entry) (g : str * list nat) : Prop :=
  snd g <> [] /\ Forall (has_chunks data) (snd g).

(** The groups that the duplicate loop counts, in the order it meets
    them. *)
Definition counts_as_duplicate (data : list entry) (g : str * list nat) : bool :=
  match is_duplicate_group data (snd g) with
  | Some true => true
  | _ => false
  end.

Definition duplicate_groups (data : list entry) : dict (list nat) :=
  filter (counts_as_duplicate data) (chinese_groups data).

Definition reported_as_duplicates (data : list entry) (i j : nat) : Prop :=
  i <> j /\
  exists g, In g (duplicate_groups data) /\ In i (snd g) /\ In j (snd g).

(** The groups that the tone loop reports, in the order it meets them:
    the Chinese text, its [py_full_map], and the sorted full-letters
    keys that share one stripped key. *)
Definition inconsistent_groups_of (item : str * dict (list nat))
  : list (str * dict (list nat) * list str) :=
  if 1 <? length (snd item) then
    map (fun sfp => (fst item, snd item, sorted (snd sfp)))
        (filter (fun sfp => 1 <? length (snd sfp)) (stripped_map (snd item)))
  else [].

Definition inconsistent_groups (data : list entry)
  : list (str * dict (list nat) * list str) :=
  flat_map inconsistent_groups_of (sorted_items (word_map data)).

(** The prints of lines 95-108 for one group. *)
Definition print_inconsistent (data : list entry)
           (g : str * dict (list nat) * list str) : option (list line) :=
  let '(ch, pfm, fps) := g in
  vs <- map_m (variant_line data ch pfm) fps ;; Some (ChineseOf ch :: vs).

(** The chunk occurrences with Chinese text [ch] and full-letters key
    [fp], in corpus order. *)
Definition key_occurrences (data : list entry) (ch fp : str)
  : list (nat * chunk) :=
  filter (fun ic => chunk_matches ch fp (snd ic)) (occurrences data).

(** The line printed for one full-letters key of a group. *)
Definition variant_of (data : list entry) (ch fp : str) : line :=
  let occ := key_occurrences data ch fp in
  match occ with
  | (i0, c0) :: _ =>
      Variant (chunk_pinyin c0) (length occ)
              (e0 <- nth_error data i0 ;; english e0)
  | [] => Variant [] 0 None
  end.

Definition block_of (data : list entry)
           (g : str * dict (list nat) * list str) : list line :=
  let '(ch, _, fps) := g in ChineseOf ch :: map (variant_of data ch) fps.

(** The tone part of the report. *)
Definition tone_part (data : list entry) : list line :=
  InconsistentTones ::
  concat (map (block_of data) (inconsistent_groups data)) ++
  match inconsistent_groups data with [] => [NoneFound] | _ => [] end.

(** Some chunk of the corpus has Chinese text [ch] and pinyin [p]. *)
Definition chunk_occurs (data : list entry) (ch p : str) : Prop :=
  exists i c, In (i, c) (occurrences data) /\
              chunk_chinese c = ch /\ chunk_pinyin c = p.

(** No non-empty full-letters key of the corpus has an empty stripped
    key. *)
Definition keys_strip_nonempty (data : list entry) : bool :=
  forallb (fun ic =>
             let k := normalize_pinyin_full (chunk_pinyin (snd ic)) in
             implb (truthy k) (truthy (normalize_pinyin_stripped k)))
          (occurrences data).

(** The corpus without the chunks that the first loop skips. *)
Definition prune_entry (e : entry) : entry :=
  {| english := english e;
     chunks := option_map (filter recorded) (chunks e) |}.

Definition prune (data : list entry) : list entry := map prune_entry data.

(** What one record contributes to the two grouping structures. *)
Definition key_items (e : entry) : list str :=
  match chunks e with
  | Some cs => [full_chinese cs]
  | None => []
  end.

Definition word_items (e : entry) : list (str * str) :=
  match chunks e with
  | Some cs =>
      flat_map (fun c => if recorded c
                         then [(chunk_chinese c,
                                normalize_pinyin_full (chunk_pinyin c))]
                         else []) cs
  | None => []
  end.
End Notions.

(** The order of [sorted]: [a <= b] on strings, through a key. *)
Definition str_le (a b : str) : Prop := str_ltb b a = false.

Definition key_le {A : Type} (key : A -> str) (x y : A) : Prop :=
  str_le (key x) (key y).

(** The lines of a printed duplicate group, and of a printed tone group. *)
Definition is_duplicate_line (l : line) : bool :=
  match l with
  | DuplicateSentence _ | PinyinOf _ | EnglishOf _ => true
  | _ => false
  end.

Definition is_tone_line (l : line) : bool :=
  match l with
  | ChineseOf _ | Variant _ _ _ => true
  | _ => false
  end.

(** The Chinese texts of the duplicate groups and of the tone groups that
    a report prints, in the order of its lines. *)
Definition duplicate_texts (out : list line) : list str :=
  flat_map (fun l => match l with DuplicateSentence ch => [ch] | _ => [] end) out.

Definition chinese_texts (out : list line) : list str :=
  flat_map (fun l => match l with ChineseOf ch => [ch] | _ => [] end) out.

(** An entry with other chunks. *)
Definition with_chunks (e : entry) (cs : list chunk) : entry :=
  {| english := english e; chunks := Some cs |}.

(** Renaming the sentence indices stored in the grouping structures. *)
Definition map_values {V W : Type} (g : V -> W) (d : dict V) : dict W :=
  map (fun kv => (fst kv, g (snd kv))) d.

Definition rename_groups (r : nat -> nat) (groups : dict (list nat))
  : dict (list nat) := map_values (map r) groups.

Definition rename_word_map (r : nat -> nat) (wm : dict (dict (list nat)))
  : dict (dict (list nat)) := map_values (rename_groups r) wm.

(** The position of record [i] after a record is inserted at position [m]. *)
Definition shift (m i : nat) : nat := if i <? m then i else S i.

(** The items that the records of a corpus contribute, with the position
    of their record. *)
Definition indexed {T : Type} (f : entry -> list T) (n : nat)
           (data : list entry) : list (nat * T) :=
  flat_map (fun ie => map (pair (fst ie)) (f (snd ie))) (enumerate_from n data).

(** ** Code points on which the normalisations act one by one *)

Section Tame.
Context {U : UCD}.

(** What one decomposed code point leaves in the stripped key. *)
Definition strip_char (d : char) : str :=
  if is_not_Mn (category d)
  then flat_map tolower_full (filter is_letter (tolower_full d))
  else [].

Definition stripped_char (c : char) : str :=
  flat_map strip_char (decomposition c).

Definition is_sigma (c : char) : bool := (c =? CAPITAL_SIGMA)%N.

(** A decomposed code point that is neither a capital sigma nor lowered
    to one, and that leaves nothing in the key when it is a combining
    mark, which canonical ordering may move. *)
Definition plain_decomposed (d : char) : bool :=
  (negb (is_not_Mn (category d)) ||
   (negb (is_sigma d) &&
    forallb (fun e => negb (is_letter e) || negb (is_sigma e)) (tolower_full d)))
  && ((combining d =? 0)%N || negb (truthy (strip_char d))).

Definition plain_char (c : char) : bool :=
  forallb plain_decomposed (decomposition c).

(** A code point for which lowercasing does not depend on the
    neighbours, and for which stripping after lowercasing gives what
    stripping gives. *)
Definition tame (c : char) : bool :=
  negb (is_sigma c) && plain_char c &&
  (if is_letter c
   then forallb plain_char (tolower_full c) &&
        str_eqb (flat_map stripped_char (tolower_full c)) (stripped_char c)
   else negb (truthy (stripped_char c))).

(** A code point that leaves something in the stripped key. *)
Definition solid (e : char) : bool := truthy (stripped_char e).

(** The lowercase mapping of a letter is plain and leaves something in
    the stripped key. *)
Definition solid_lowered (c : char) : bool :=
  forallb plain_char (tolower_full c) && existsb solid (tolower_full c).
End Tame.

(** [P] on the [n] code points from [c] on. *)
Fixpoint all_from (n : nat) (c : N) (P : N -> bool) : bool :=
  match n with
  | O => true
  | S n' => P c && all_from n' (N.succ c) P
  end.

(** ** Example corpora *)

Definition ck (ch py : string) : chunk :=
  {| chinese := Some (lit ch); pinyin := Some (lit py) |}.

Definition en (e : string) (cs : list chunk) : entry :=
  {| english := Some (lit e); chunks := Some cs |}.

(** One Chinese text read twice as [xíng] and once as [háng]. *)
Definition three_readings : list entry :=
  [ en "to walk" [ck "行" "xíng"];
    en "all right" [ck "行" "xíng"];
    en "a row" [ck "行" "háng"] ].

Definition two_readings : list entry :=
  [ en "to walk" [ck "行" "xíng"];
    en "a row" [ck "行" "háng"] ].

(** Fifteen Chinese texts, each in two sentences with the same pinyin. *)
Definition pair_of (k : nat) : list entry :=
  let c := {| chinese := Some [(0x4E00 + N.of_nat k)%N];
              pinyin := Some (lit "yi") |} in
  [ {| english := Some (lit "first"); chunks := Some [c] |};
    {| english := Some (lit "second"); chunks := Some [c] |} ].

Definition fifteen_pairs : list entry := flat_map pair_of (seq 0 15).

(** One Chinese word with three spellings of its pinyin: two of them have
    the same full-letters key. *)
Definition nage_corpus : list entry :=
  [ en "that one" [ck "那个" "nàge"];
    en "that one there" [ck "那个" "nà ge"; ck "。" "."];
    en "that thing" [ck "那个" "nàgè"] ].

(** A record without chunks between two sentences. *)
Definition no_chunks : entry := {| english := Some (lit "draft"); chunks := None |}.

(** A file system that holds the corpus above as [corpus.yml]. *)
Definition only_corpus : filesystem :=
  fun f => if str_eq_dec f (lit "corpus.yml")
           then Some (Document nage_corpus) else None.

(** Two words with two tones each and a sentence that comes twice; the
    word that the corpus has first is the second in the order of
    [sorted]. *)
Definition two_words : list entry :=
  [ en "that one" [ck "那个" "nàge"];
    en "hello" [ck "你好" "nǐhǎo"];
    en "to walk" [ck "行" "xíng"];
    en "that thing" [ck "那个" "nàgè"];
    en "to be happy" [ck "行" "xìng"];
    en "hi" [ck "你好" "nǐhǎo"] ].

Definition two_words_file : filesystem :=
  fun f => if str_eq_dec f (lit "words.yml")
           then Some (Document two_words) else None.

(** Two sentences whose pinyin differs by a space only. *)
Definition hello_twice : list entry :=
  [ en "a" [ck "你好" "nǐ hǎo"]; en "b" [ck "你好" "nǐhǎo"] ].

(** [nàge] in three sentences and [nàgè] in one. *)
Definition nage_three_one : list entry :=
  [ en "one" [ck "那个" "nàge"]; en "two" [ck "那个" "nàge"];
    en "three" [ck "那个" "nàge"]; en "four" [ck "那个" "nàgè"] ].

(** ** Statements of the specification that the code refutes, as they
    are worded *)

(** "A pair of records is reported as duplicates if and only if their
    concatenated Chinese text is identical and their pinyin normalizes to
    the same key." *)
Definition duplicates_iff_same_text_and_key {U : UCD} (data : list entry)
           (i j : nat) : Prop :=
  reported_as_duplicates data i j <->
  i <> j /\
  (exists t, record_chinese data i = Some t /\ record_chinese data j = Some t) /\
  (exists k, sentence_key data i = Some k /\ sentence_key data j = Some k).

(** The number of chunks with Chinese text [ch] and raw pinyin [p]. *)
Definition raw_count (data : list entry) (ch p : str) : nat :=
  length (filter (fun ic => str_eqb (chunk_chinese (snd ic)) ch &&
                            str_eqb (chunk_pinyin (snd ic)) p)
                 (occurrences data)).

(** "For each distinct raw pinyin variant encountered in the corpus for
    that group, the report lists that variant's occurrence count and one
    example english sentence containing it." *)
Definition every_raw_variant_listed {U : UCD} (data : list entry) : Prop :=
  forall out ch pfm fps p,
    analyze data = Some out ->
    In (ch, pfm, fps) (inconsistent_groups data) ->
    chunk_occurs data ch p ->
    In (normalize_pinyin_full p) fps ->
    exists e, In (Variant p (raw_count data ch p) e) out.

(** "For every string p, the stripped normalization of the full-letters
    normalization of p is the stripped normalization of p." *)
Definition stripped_of_full_is_stripped {U : UCD} : Prop :=
  forall p : str,
    normalize_pinyin_stripped (normalize_pinyin_full p) =
    normalize_pinyin_stripped p.

(** [data[idx].get('english', '???')] and the raw pinyin of a record, for
    the records of a group. *)
Definition english_or_marks (data : list entry) (idx : nat) : str :=
  match nth_error data idx with
  | Some e => get (english e) QUESTION_MARKS
  | None => QUESTION_MARKS
  end.

Definition raw_pinyin (data : list entry) (idx : nat) : str :=
  get (sentence_pinyin data idx) [].

(** The three lines printed for a duplicate group. *)
Definition duplicate_block (data : list entry) (g : str * list nat) : list line :=
  [ DuplicateSentence (fst g);
    PinyinOf (raw_pinyin data (hd 0 (snd g)));
    EnglishOf (map (english_or_marks data) (snd g)) ].

(** A letter whose lowercase mapping consists of letters that are their
    own lowercase. *)
Definition settled_letter {U : UCD} (c : char) : bool :=
  negb (is_sigma c) &&
  forallb (fun e => is_letter e && negb (is_sigma e) && str_eqb (tolower_full e) [e])
          (tolower_full c).

(** A code point of a decomposed string: a letter that lowers to settled
    letters, a combining mark, or a code point whose lowercase mapping
    holds no letter. *)
Definition decomposed_ok {U : UCD} (d : char) : bool :=
  negb (is_sigma d) &&
  (if is_letter d then settled_letter d
   else negb (is_not_Mn (category d)) ||
        forallb (fun e => negb (is_letter e)) (tolower_full d)).

(** One sentence chunked in two ways. *)
Definition rechunked : list entry :=
  [ en "hello" [ck "你" "nǐ"; ck "好" "hǎo"]; en "hi" [ck "你好" "nǐhǎo"] ].

(** * The other authoring tools

    ** More of Python's [str] *)

(** [c.isspace()]: the code points that [str.strip()] removes. *)
Definition is_space (c : char) : bool :=
  between 0x09 0x0D c || between 0x1C 0x20 c ||
  (c =? 0x85)%N || (c =? 0xA0)%N || (c =? 0x1680)%N ||
  between 0x2000 0x200A c || between 0x2028 0x2029 c ||
  (c =? 0x202F)%N || (c =? 0x205F)%N || (c =? 0x3000)%N.

(** [s.lstrip(chars)], [s.rstrip(chars)] and [s.strip(chars)], for the
    set of code points that satisfy [p]. *)
Fixpoint lstrip_by (p : char -> bool) (s : str) : str :=
  match s with
  | c :: r => if p c then lstrip_by p r else s
  | [] => []
  end.

Definition rstrip_by (p : char -> bool) (s : str) : str :=
  rev (lstrip_by p (rev s)).

Definition strip_by (p : char -> bool) (s : str) : str :=
  rstrip_by p (lstrip_by p s).

(** [s.strip()] *)
Definition strip (s : str) : str := strip_by is_space s.

(** [s.startswith(prefix)] *)
Fixpoint startswith (prefix s : str) : bool :=
  match prefix, s with
  | [], _ => true
  | _ :: _, [] => false
  | a :: prefix', b :: s' => (a =? b)%N && startswith prefix' s'
  end.

(** [s.endswith(suffix)] *)
Definition endswith (suffix s : str) : bool := startswith (rev suffix) (rev s).

(** [sub in s] *)
Fixpoint contains (sub s : str) : bool :=
  startswith sub s ||
  match s with
  | [] => false
  | _ :: r => contains sub r
  end.

Definition NUMBER_SIGN : char := 35%N.

(** [s.add(x)] on a set kept as a list without repeats. *)
Definition set_add (x : str) (s : list str) : list str :=
  if mem x s then s else s ++ [x].

(** [d[k] += 1] on a [defaultdict(int)]. *)
Definition increment (d : dict nat) (k : str) : dict nat := dd_update k 0 S d.

(** A word-list file: [None] when the path does not exist, else its lines
    as text-mode iteration gives them. *)
Definition word_files := str -> option (list str).

(** ** [generator/coverage.py] *)

Module coverage.

Inductive message : Type :=
| WordListNotFound (filepath : str)
| SentencesNotFound (filepath : str)
| CoverageLine (red : bool) (i num_vocab : nat) (word : str) (count : nat)
| Separator
| TotalSentences (n : nat)
| FullyCovered (n : nat)
| Saved (n : nat) (output : str).

(** The body of the loop of lines 19-24. *)
Definition load_line (words : list str) (line : str) : list str :=
  let line := strip line in
  if negb (truthy line) || startswith [NUMBER_SIGN] line then words
  else if negb (mem line words) then words ++ [line]
  else words.

Definition load_word_list (files : word_files) (filepath : str)
  : list message * list str :=
  match files filepath with
  | None => ([WordListNotFound filepath], [])
  | Some lines => ([], fold_left load_line lines [])
  end.

(** ['一' <= char <= '鿿'] *)
Definition is_cjk (char : char) : bool := between 0x4E00 0x9FFF char.

Definition is_safe (text : str) : bool :=
  let has_chinese := existsb is_cjk text in
  if negb has_chinese then true
  else
    let is_pure_punct :=
      forallb (fun char => between 0x3000 0x303F char ||
                           between 0xFF00 0xFFEF char ||
                           negb (is_cjk char)) text in
    is_pure_punct.

Record args : Type := {
  word_list : str;
  sentences : str;
  extra_words : option str;
  limit : option Z;
  output : option str
}.

(** Lines 59-62: the extra words, when [--extra-words] is given. *)
Definition load_extra (files : word_files) (a : args) : list message * list str :=
  match extra_words a with
  | Some p => if truthy p then load_word_list files p else ([], [])
  | None => ([], [])
  end.

Section Main.
(** The order in which a [set] of strings is iterated. *)
Variable set_order : list str -> list str.

(** The loop of lines 81-97 over the chunks of one sentence: the flag
    [is_restricted] and the set [words_in_sentence]. *)
Fixpoint scan_chunks (vocab_set extra_set : list str) (chunks : list chunk)
         (words_in_sentence : list str) : bool * list str :=
  match chunks with
  | [] => (true, words_in_sentence)
  | chunk :: rest =>
      let chinese := strip (chunk_chinese chunk) in
      if negb (truthy chinese) then
        scan_chunks vocab_set extra_set rest words_in_sentence
      else if mem chinese vocab_set then
        scan_chunks vocab_set extra_set rest (set_add chinese words_in_sentence)
      else if mem chinese extra_set then
        scan_chunks vocab_set extra_set rest words_in_sentence
      else if is_safe chinese then
        scan_chunks vocab_set extra_set rest words_in_sentence
      else (false, words_in_sentence)
  end.

(** The body of the loop of lines 76-103. *)
Definition cover_item (vocab_set extra_set : list str)
           (st : dict nat * nat * list entry) (item : entry)
  : dict nat * nat * list entry :=
  let '(coverage, total_restricted, covered_sentences) := st in
  let chunks := get (chunks item) [] in
  let '(is_restricted, words_in_sentence) :=
    scan_chunks vocab_set extra_set chunks [] in
  if is_restricted then
    (fold_left increment (set_order words_in_sentence) coverage,
     S total_restricted,
     covered_sentences ++ [item])
  else st.

(** The body of the loop of lines 107-119. *)
Definition coverage_line (limit : option Z) (coverage : dict nat)
           (num_vocab : nat) (iw : nat * str) : list message :=
  let '(i, word) := iw in
  let count := dd_get word 0 coverage in
  let skip := match limit with
              | Some l => (l <=? Z.of_nat count)%Z
              | None => false
              end in
  if skip then []
  else [CoverageLine (count =? 0) i num_vocab word count].

(** [main]: what is printed, and the file written for [--output].  An
    exception of [yaml.safe_load] is not caught. *)
Definition main (files : word_files) (yaml_files : filesystem) (a : args)
  : option (list message * option (str * list entry)) :=
  let '(m1, vocab_list) := load_word_list files (word_list a) in
  match vocab_list with
  | [] => Some (m1, None)
  | _ :: _ =>
      let vocab_set := vocab_list in
      let '(m2, extra_set) := load_extra files a in
      match yaml_files (sentences a) with
      | None => Some (m1 ++ m2 ++ [SentencesNotFound (sentences a)], None)
      | Some (YamlError _) => None
      | Some (Document sentences) =>
          let '(coverage, total_restricted, covered_sentences) :=
            fold_left (cover_item vocab_set extra_set) sentences ([], 0, []) in
          let num_vocab := length vocab_list in
          let printed :=
            m1 ++ m2 ++
            flat_map (coverage_line (limit a) coverage num_vocab)
                     (enumerate_from 1 vocab_list) ++
            [Separator; TotalSentences (length sentences);
             FullyCovered total_restricted] in
          match output a with
          | Some o =>
              if truthy o
              then Some (printed ++ [Saved (length covered_sentences) o],
                         Some (o, covered_sentences))
              else Some (printed, None)
          | None => Some (printed, None)
          end
      end
  end.
End Main.

End coverage.

(** ** [generator/bulk_generate.py] *)

Module bulk_generate.

(** What [main] and the functions it calls print (to [stderr]). *)
Inductive message : Type :=
| WordListNotFound (filepath : str)
| CouldNotRead (output_file e : str)
| Stopping
| HasSentences (i num_words : nat) (word : str) (current_count : nat) (limit : Z)
| Appended (i num_words n : nat) (word output : str)
| ErrorGenerating (i num_words : nat) (word : str) (attempt : nat) (retries : Z)
                  (consecutive_failures : nat) (e : str)
| Retrying (i num_words : nat) (word : str)
| Skipping (i num_words : nat) (word : str) (current_count : nat)
| Finished (total_new_count : nat)
| NoNewSentences.

(** The body of the loop of lines 18-21. *)
Definition load_line (words : list str) (line : str) : list str :=
  let word := strip line in
  if truthy word then words ++ [word] else words.

Definition load_word_list (files : word_files) (filepath : str)
  : list message * list str :=
  match files filepath with
  | None => ([WordListNotFound filepath], [])
  | Some lines => ([], fold_left load_line lines [])
  end.

Record args : Type := {
  word_list : str;
  output : str;
  limit : Z;
  retries : Z
}.

(** The state of [main]: the files, the local variables, the number of
    calls of [generate_for_word] made so far, and what [main] itself has
    printed. *)
Record state : Type := {
  fs : filesystem;
  counts : dict nat;
  consecutive_failures : nat;
  total_new_count : nat;
  calls : nat;
  printed : list message
}.

Definition print (m : message) (st : state) : state :=
  {| fs := fs st; counts := counts st;
     consecutive_failures := consecutive_failures st;
     total_new_count := total_new_count st;
     calls := calls st; printed := printed st ++ [m] |}.

(** What [generate_for_word] is to [main]: a call that reads and writes
    files, and returns sentences or raises. *)
Definition generator : Type :=
  nat -> filesystem -> str -> filesystem * (list entry + str).

Section Main.
(** The order in which a [set] of strings is iterated. *)
Variable set_order : list str -> list str.

(** [generate_for_word(args.model, word, args.mock, args.simple)] at the
    n-th call of the run, on the files as they are then: the files
    afterwards, and the sentences or the text of the exception.  The call
    reaches [lookup_word] of [cedict_tool.py], which downloads the
    dictionary and writes it to [cedict.gz] and [cedict_ts.u8] when it is
    missing, whether the call then succeeds or not. *)
Variable generate_for_word : generator.

(** [set(word_list)], as it is iterated. *)
Definition word_set (word_list : list str) : list str :=
  set_order (first_occurrences word_list).

(** Lines 42-48 and 111-116: the counts after one more sentence. *)
Definition count_item (target_words : list str) (counts : dict nat)
           (item : entry) : dict nat :=
  let chunks := get (chunks item) [] in
  let chinese_text := full_chinese chunks in
  fold_left (fun counts word =>
               if contains word chinese_text then increment counts word
               else counts)
            target_words counts.

(** [get_sentence_counts]: a file that is missing or empty is [None]. *)
Definition get_sentence_counts (files : filesystem) (output_file : str)
           (word_list : list str) : list message * dict nat :=
  match files output_file with
  | None => ([], [])
  | Some (YamlError e) => ([CouldNotRead output_file e], [])
  | Some (Document data) =>
      let target_words := word_set word_list in
      ([], fold_left (count_item target_words) data [])
  end.

(** [append_to_output]: the files afterwards, or the exception of
    [yaml.safe_load]. *)
Definition append_to_output (files : filesystem) (output_file : str)
           (new_sentences : list entry) : filesystem + str :=
  match match files output_file with
        | None => inl []
        | Some (YamlError e) => inr e
        | Some (Document data) => inl data
        end with
  | inl all_data =>
      inl (fun f => if str_eq_dec f output_file
                    then Some (Document (all_data ++ new_sentences))
                    else files f)
  | inr e => inr e
  end.

(** The [try] block of lines 105-121, its print apart: the number of new
    sentences and the state, or the files that the call has left and the
    text of the exception. *)
Definition try_word (a : args) (target_words : list str) (word : str)
           (st : state) : nat * state + filesystem * str :=
  let '(files, result) := generate_for_word (calls st) (fs st) word in
  match result with
  | inl sentences =>
      match append_to_output files (output a) sentences with
      | inl files' =>
          inl (length sentences,
               {| fs := files';
                  counts := fold_left (count_item target_words) sentences
                                      (counts st);
                  consecutive_failures := 0;
                  total_new_count := total_new_count st + length sentences;
                  calls := S (calls st);
                  printed := printed st |})
      | inr e => inr (files, e)
      end
  | inr e => inr (files, e)
  end.

(** The [except] block of lines 122-128, its prints apart, on the files
    that the failed call has left. *)
Definition failed (files : filesystem) (st : state) : state :=
  {| fs := files; counts := counts st;
     consecutive_failures := S (consecutive_failures st);
     total_new_count := total_new_count st;
     calls := S (calls st); printed := printed st |}.

(** The loop of lines 104-128 from [attempt] on, with [remaining]
    attempts left: whether it succeeded, and the state afterwards. *)
Fixpoint attempts (a : args) (target_words : list str) (i num_words : nat)
         (word : str) (remaining attempt : nat) (st : state) : bool * state :=
  match remaining with
  | O => (false, st)
  | S remaining' =>
      match try_word a target_words word st with
      | inl (n, st') =>
          (true, print (Appended i num_words n word (output a)) st')
      | inr (files, e) =>
          let st' :=
            print (ErrorGenerating i num_words word (S attempt) (retries a + 1)
                                   (S (consecutive_failures st)) e)
                  (failed files st) in
          if 5 <=? consecutive_failures st' then (false, st')
          else
            let st'' := if (Z.of_nat attempt <? retries a)%Z
                        then print (Retrying i num_words word) st'
                        else st' in
            attempts a target_words i num_words word remaining' (S attempt) st''
      end
  end.

(** The loop of lines 93-133 of [main] over the words that are left. *)
Fixpoint words_loop (a : args) (target_words : list str) (num_words : nat)
         (iws : list (nat * str)) (st : state) : state :=
  match iws with
  | [] => st
  | (i, word) :: rest =>
      if 5 <=? consecutive_failures st then print Stopping st
      else
        let current_count := dd_get word 0 (counts st) in
        if (Z.of_nat current_count <? limit a)%Z then
          let st := print (HasSentences i num_words word current_count (limit a)) st in
          let '(success, st) :=
            attempts a target_words i num_words word
                     (Z.to_nat (retries a + 1)) 0 st in
          if negb success && (5 <=? consecutive_failures st) then st
          else words_loop a target_words num_words rest st
        else
          words_loop a target_words num_words rest
                     (print (Skipping i num_words word current_count) st)
  end.

Definition main (word_lists : word_files) (files : filesystem) (a : args)
  : state :=
  let '(m, words) := load_word_list word_lists (word_list a) in
  let st0 := {| fs := files; counts := []; consecutive_failures := 0;
                total_new_count := 0; calls := 0; printed := m |} in
  match words with
  | [] => st0
  | _ :: _ =>
      let target_words := word_set words in
      let '(m', counts) := get_sentence_counts files (output a) words in
      let st := {| fs := files; counts := counts; consecutive_failures := 0;
                   total_new_count := 0; calls := 0; printed := m ++ m' |} in
      let st := words_loop a target_words (length words)
                           (enumerate_from 1 words) st in
      if 0 <? total_new_count st
      then print (Finished (total_new_count st)) st
      else print NoNewSentences st
  end.
End Main.

End bulk_generate.

(** ** Notions for the other tools *)

(** What [coverage.py] accepts in a fully covered sentence: an empty
    text, a word of the vocabulary or of the extra words, or a text
    without a CJK unified ideograph. *)
Definition acceptable (vocab_set extra_set : list str) (t : str) : bool :=
  negb (truthy t) || mem t vocab_set || mem t extra_set ||
  negb (existsb coverage.is_cjk t).

(** The stripped Chinese texts of the chunks of a sentence. *)
Definition texts (item : entry) : list str :=
  map (fun c => strip (chunk_chinese c)) (get (chunks item) []).

Definition fully_covered (vocab_set extra_set : list str) (item : entry) : bool :=
  forallb (acceptable vocab_set extra_set) (texts item).

(** The number of fully covered sentences that have [w] as a chunk. *)
Definition covering (vocab_set extra_set : list str) (sentences : list entry)
           (w : str) : nat :=
  length (filter (fun item => fully_covered vocab_set extra_set item &&
                              mem w (texts item)) sentences).

(** A string that [lstrip] leaves as it is. *)
Definition unstrippable (p : char -> bool) (s : str) : Prop :=
  match s with [] => True | c :: _ => p c = false end.

Definition add_new (words : list str) (x : str) : list str :=
  if negb (mem x words) then words ++ [x] else words.

Definition is_comment (w : str) : bool := startswith [NUMBER_SIGN] w.

(** The closed form of the report of [coverage.main]. *)
Definition covered_line (limit : option Z) (vocab_set extra_set : list str)
           (sentences : list entry) (num_vocab : nat) (iw : nat * str)
  : list coverage.message :=
  let n := covering vocab_set extra_set sentences (snd iw) in
  match limit with
  | Some l =>
      if (l <=? Z.of_nat n)%Z then []
      else [coverage.CoverageLine (n =? 0) (fst iw) num_vocab (snd iw) n]
  | None => [coverage.CoverageLine (n =? 0) (fst iw) num_vocab (snd iw) n]
  end.

Definition vocabulary (files : word_files) (a : coverage.args) : list str :=
  snd (coverage.load_word_list files (coverage.word_list a)).

Definition extras (files : word_files) (a : coverage.args) : list str :=
  snd (coverage.load_extra files a).

Definition counted (vocab_set : list str) (t : str) : bool :=
  truthy t && mem t vocab_set.

Definition output_file (a : coverage.args) : option str :=
  match coverage.output a with
  | Some o => if truthy o then Some o else None
  | None => None
  end.

(** The messages and the written file of a run of [coverage.main] that
    reaches the analysis. *)
Definition coverage_report (files : word_files) (a : coverage.args)
           (sentences : list entry)
  : list coverage.message * option (str * list entry) :=
  let vocab := vocabulary files a in
  let extra := extras files a in
  let covered := filter (fully_covered vocab extra) sentences in
  (fst (coverage.load_extra files a) ++
   flat_map (covered_line (coverage.limit a) vocab extra sentences (length vocab))
            (enumerate_from 1 vocab) ++
   [coverage.Separator; coverage.TotalSentences (length sentences);
    coverage.FullyCovered (length covered)] ++
   match output_file a with
   | Some o => [coverage.Saved (length covered) o]
   | None => []
   end,
   option_map (fun o => (o, covered)) (output_file a)).

(** A word list with a comment, a repeat and a blank line. *)
Definition hsk_lines : list str :=
  [ lit "# HSK 1"; lit "那个 "; lit "  "; lit "你好"; lit "  那个" ].

Definition hsk_files : word_files :=
  fun f => if str_eq_dec f (lit "hsk1.txt") then Some hsk_lines else None.

Definition coverage_args : coverage.args :=
  {| coverage.word_list := lit "hsk1.txt";
     coverage.sentences := lit "corpus.yml";
     coverage.extra_words := None;
     coverage.limit := Some 5%Z;
     coverage.output := Some (lit "covered.yml") |}.

(** [s.find(sub)] and [s.rfind(sub)]: the lowest and the highest index at
    which [sub] occurs in [s]; [None] stands for [-1]. *)
Fixpoint find_from (i : nat) (sub s : str) {struct s} : option nat :=
  if startswith sub s then Some i
  else match s with
       | [] => None
       | _ :: r => find_from (S i) sub r
       end.

Definition str_find (sub s : str) : option nat := find_from 0 sub s.

Fixpoint rfind_from (i : nat) (sub s : str) {struct s} : option nat :=
  match match s with
        | [] => None
        | _ :: r => rfind_from (S i) sub r
        end with
  | Some j => Some j
  | None => if startswith sub s then Some i else None
  end.

Definition str_rfind (sub s : str) : option nat := rfind_from 0 sub s.

(** [s[a:b]] for indices that are not negative. *)
Definition slice (s : str) (a b : nat) : str := firstn (b - a) (skipn a s).

(** ** [generator/generate_sentences.py] *)

Module generate_sentences.

(** What [json.loads] returns; the value of a number is never read. *)
#[local] Unset Elimination Schemes.
Inductive json : Type :=
| JNull
| JBool (b : bool)
| JNumber (n : Z)
| JString (s : str)
| JList (items : list json)
| JDict (members : dict json).
#[local] Set Elimination Schemes.

(** The [ValueError]s of [validate_data], with the values their messages
    format. *)
Inductive ValueError : Type :=
| NotAList
| ItemNotObject (idx : nat)
| MissingEnglish (idx : nat)
| MissingChunks (idx : nat)
| ChunkNotObject (cidx idx : nat)
| InvalidField (cidx idx : nat) (field : str).

(** A loop whose body may raise: the first exception, if any. *)
Fixpoint first_raise {A : Type} (body : A -> option ValueError) (xs : list A)
  : option ValueError :=
  match xs with
  | [] => None
  | x :: r =>
      match body x with
      | Some e => Some e
      | None => first_raise body r
      end
  end.

(** [field in d and isinstance(d[field], str)] *)
Definition is_string_field (field : str) (d : dict json) : bool :=
  match lookup field d with
  | Some (JString _) => true
  | _ => false
  end.

Definition FIELDS : list str :=
  [lit "chinese"; lit "pinyin"; lit "transliteration"].

(** Lines 23-27. *)
Definition validate_chunk (idx : nat) (ic : nat * json) : option ValueError :=
  let '(cidx, chunk) := ic in
  match chunk with
  | JDict d =>
      first_raise (fun field => if is_string_field field d then None
                                else Some (InvalidField cidx idx field))
                  FIELDS
  | _ => Some (ChunkNotObject cidx idx)
  end.

(** Lines 13-27. *)
Definition validate_item (ii : nat * json) : option ValueError :=
  let '(idx, item) := ii in
  match item with
  | JDict d =>
      if negb (is_string_field (lit "english") d) then Some (MissingEnglish idx)
      else
        match lookup (lit "chunks") d with
        | Some (JList chunks) =>
            first_raise (validate_chunk idx) (enumerate chunks)
        | _ => Some (MissingChunks idx)
        end
  | _ => Some (ItemNotObject idx)
  end.

(** [validate_data]: the exception it raises, [None] when it returns. *)
Definition validate_data (data : json) : option ValueError :=
  match data with
  | JList items => first_raise validate_item (enumerate items)
  | _ => Some NotAList
  end.

Definition FENCE : str := [96; 96; 96]%N.
Definition NEWLINE : str := [10%N].

(** Lines 154-160 of [generate_for_word]: the text given to [json.loads]. *)
Definition clean_response (response_text : str) : str :=
  let clean_text := strip response_text in
  if startswith FENCE clean_text then
    let first_newline := str_find NEWLINE clean_text in
    let last_backticks := str_rfind FENCE clean_text in
    match first_newline, last_backticks with
    | Some first_newline, Some last_backticks =>
        strip (slice clean_text first_newline last_backticks)
    | _, _ => clean_text
    end
  else clean_text.

End generate_sentences.

(** The schema that [validate_data] checks. *)
Definition valid_chunk (c : generate_sentences.json) : Prop :=
  exists d, c = generate_sentences.JDict d /\
            forall field, In field generate_sentences.FIELDS ->
                          exists s, lookup field d = Some (generate_sentences.JString s).

Definition valid_item (item : generate_sentences.json) : Prop :=
  exists d, item = generate_sentences.JDict d /\
    (exists s, lookup (lit "english") d = Some (generate_sentences.JString s)) /\
    exists cs, lookup (lit "chunks") d = Some (generate_sentences.JList cs) /\
               Forall valid_chunk cs.

(** The item that an exception of [validate_data] names. *)
Definition error_item (e : generate_sentences.ValueError) : option nat :=
  match e with
  | generate_sentences.NotAList => None
  | generate_sentences.ItemNotObject idx
  | generate_sentences.MissingEnglish idx
  | generate_sentences.MissingChunks idx
  | generate_sentences.ChunkNotObject _ idx
  | generate_sentences.InvalidField _ idx _ => Some idx
  end.

Section GenerateSentencesNotions.
Import generate_sentences.

(** Two items of a response, the second with a chunk that has no pinyin. *)
Definition sample_chunk : json :=
  JDict [ (lit "chinese", JString (lit "我"));
          (lit "pinyin", JString (lit "wǒ"));
          (lit "transliteration", JString (lit "I")) ].

Definition sample_response : list json :=
  [ JDict [ (lit "english", JString (lit "I"));
            (lit "chunks", JList [sample_chunk]) ];
    JDict [ (lit "english", JString (lit "you"));
            (lit "chunks",
             JList [ JDict [ (lit "chinese", JString (lit "你"));
                             (lit "pinyin", JNull);
                             (lit "transliteration", JString (lit "you")) ] ]) ] ].

End GenerateSentencesNotions.

(** The concatenated Chinese text of a sentence. *)
Definition sentence_text (item : entry) : str :=
  full_chinese (get (chunks item) []).

(** The number of sentences whose text contains [w]. *)
Definition sentences_with (w : str) (data : list entry) : nat :=
  length (filter (fun item => contains w (sentence_text item)) data).

(** The sentences of a file, when it holds some. *)
Definition file_data (files : filesystem) (f : str) : list entry :=
  match files f with
  | Some (Document data) => data
  | _ => []
  end.

(** The count that [bulk_generate.py] keeps for a word of the list. *)
Definition expected_count (words : list str) (data : list entry) (w : str) : nat :=
  if mem w words then sentences_with w data else 0.

Section BulkGenerateNotions.
Import bulk_generate.

(** A file that [generate_for_word] leaves as it finds it, at every
    call. *)
Definition untouched (generate_for_word : generator) (f : str) : Prop :=
  forall n files word, fst (generate_for_word n files word) f = files f.

(** What a part of a run does to the state: when [generate_for_word]
    leaves the output file alone, that file grows by the sentences
    counted in [total_new_count]; no other file changes that
    [generate_for_word] leaves alone; and the warning of line 95 is not
    among the new messages. *)
Record extends (generate_for_word : generator) (out : str)
       (st st' : state) : Prop := {
  ext_added :
    untouched generate_for_word out ->
    exists added,
      file_data (fs st') out = file_data (fs st) out ++ added /\
      total_new_count st' = total_new_count st + length added;
  ext_frame :
    forall f, f <> out -> untouched generate_for_word f ->
              fs st' f = fs st f;
  ext_printed :
    exists msgs, printed st' = printed st ++ msgs /\ ~ In Stopping msgs
}.

(** The counts agree with the output file, on the words of [T]. *)
Definition in_sync (a : args) (T : list str) (st : state) : Prop :=
  forall w, dd_get w 0 (counts st) =
            length (filter (str_eqb w) T) *
            sentences_with w (file_data (fs st) (output a)).

(** The state in which [main] enters its loop, and the state in which it
    leaves it. *)
Definition loop_start (set_order : list str -> list str)
           (word_lists : word_files) (files : filesystem) (a : args) : state :=
  let words := snd (load_word_list word_lists (word_list a)) in
  {| fs := files;
     counts := snd (get_sentence_counts set_order files (output a) words);
     consecutive_failures := 0; total_new_count := 0; calls := 0;
     printed := fst (load_word_list word_lists (word_list a)) ++
                fst (get_sentence_counts set_order files (output a) words) |}.

(** A run of the bulk generator on the word list [hsk1.txt] and the
    output file [corpus.yml]. *)
Definition bulk_args : args :=
  {| word_list := lit "hsk1.txt"; output := lit "corpus.yml";
     limit := 5%Z; retries := 3%Z |}.

(** A generator that writes the dictionary file at every call and
    returns the same two sentences, and one that writes it and fails. *)
Definition with_dictionary (files : filesystem) : filesystem :=
  fun f => if str_eq_dec f (lit "cedict_ts.u8")
           then Some (YamlError (lit "not a YAML document")) else files f.

Definition downloading : generator :=
  fun _ files _ => (with_dictionary files, inl two_readings).

Definition timing_out : generator :=
  fun _ files _ => (with_dictionary files, inr (lit "timeout")).

End BulkGenerateNotions.

(** ** [audio-gen/generate.py] *)

Module audio_gen.

Definition UNDERSCORE : char := 95%N.

Definition is_underscore (c : char) : bool := (c =? UNDERSCORE)%N.

(** The class [[a-z0-9]]. *)
Definition is_a_z_0_9 (c : char) : bool := between 97 122 c || between 48 57 c.

(** [re.sub(r'[^a-z0-9]', '_', text)] *)
Definition replace_non_alphanumeric (text : str) : str :=
  map (fun c => if is_a_z_0_9 c then c else UNDERSCORE) text.

(** [re.sub(r'_+', '_', text)]: of a run of underscores the last one is
    kept. *)
Fixpoint collapse_underscores (text : str) : str :=
  match text with
  | c :: (d :: _) as rest =>
      if is_underscore c && is_underscore d then collapse_underscores rest
      else c :: collapse_underscores rest
  | _ => text
  end.

Section Normalize.
Context {U : UCD}.

(** The full compatibility decomposition of a code point, the table of
    [unicodedata.normalize('NFKD', _)]. *)
Variable compatibility_decomposition : char -> str.

Definition normalize_NFKD (s : str) : str :=
  canonical_order (flat_map compatibility_decomposition s).

Definition normalize (text : str) : str :=
  let nfkd_form := normalize_NFKD text in
  let text := filter (fun c => (combining c =? 0)%N) nfkd_form in
  let text := lower text in
  let text := replace_non_alphanumeric text in
  let text := collapse_underscores text in
  let text := strip_by is_underscore text in
  text.

Record voice : Type := { name : str; id : str }.

Definition DEFAULT_CHINESE_VOICES : list voice :=
  [ {| name := lit "julia"; id := lit "tOuLUAIdXShmWH7PEUrU" |};
    {| name := lit "jin"; id := lit "vZZLclMx4wouUtKBRfZn" |} ].

Definition DEFAULT_ENGLISH_VOICES : list voice := DEFAULT_CHINESE_VOICES.

(** What [requests.post] gives: a response, or an exception. *)
Inductive response : Type :=
| Response (status_code : nat) (content : list N) (text : str)
| RequestException (e : str).

Inductive message : Type :=
| Generating (text name : str)
| ErrorGenerating (text : str) (status_code : nat) (response_text : str)
| ExceptionGenerating (text e : str).

(** The audio files of the output directory by name, the number of
    requests made so far, the names of the files written, and what was
    printed. *)
Record state : Type := {
  files : str -> option (list N);
  requests : nat;
  written : list str;
  printed : list message
}.

(** [requests.post(url, json=data, headers=headers)] at the n-th request
    of the run, for a voice and a text. *)
Variable post : nat -> str -> str -> response.

Definition generate_audio (text voice_id output_name : str) (st : state)
  : state :=
  match files st output_name with
  | Some _ => st
  | None =>
      let out := printed st ++ [Generating text output_name] in
      match post (requests st) voice_id text with
      | Response status_code content response_text =>
          if status_code =? 200 then
            {| files := fun f => if str_eq_dec f output_name then Some content
                                 else files st f;
               requests := S (requests st);
               written := written st ++ [output_name];
               printed := out |}
          else
            {| files := files st; requests := S (requests st);
               written := written st;
               printed := out ++ [ErrorGenerating text status_code response_text] |}
      | RequestException e =>
          {| files := files st; requests := S (requests st);
             written := written st;
             printed := out ++ [ExceptionGenerating text e] |}
      end
  end.

(** [f"{voice_name}_{normalize(text)}.mp3"] *)
Definition filename (voice_name text : str) : str :=
  voice_name ++ [UNDERSCORE] ++ normalize text ++ lit ".mp3".

(** The loops of lines 97-101 and 114-118. *)
Definition generate_for_voices (voices : list voice) (text key : str)
           (st : state) : state :=
  fold_left (fun st voice =>
               generate_audio text (id voice) (filename (name voice) key) st)
            voices st.

(** The body of the loop of lines 93-118. *)
Definition generate_item (st : state) (item : entry) : state :=
  let st :=
    match english item with
    | Some eng_text => generate_for_voices DEFAULT_ENGLISH_VOICES eng_text eng_text st
    | None => st
    end in
  match chunks item with
  | Some cs =>
      let chi_text := full_chinese cs in
      let pinyin_str := join [32%N] (map chunk_pinyin cs) in
      if truthy chi_text
      then generate_for_voices DEFAULT_CHINESE_VOICES chi_text pinyin_str st
      else st
  | None => st
  end.

(** Lines 93-118 of [main]. *)
Definition generate_all (data : list entry) (st : state) : state :=
  fold_left generate_item data st.
End Normalize.

End audio_gen.

(** A code point that may stand in a file name made by [normalize]. *)
Definition file_name_char (c : char) : bool :=
  audio_gen.is_a_z_0_9 c || audio_gen.is_underscore c.

(** No two underscores in a row. *)
Fixpoint single_underscores (s : str) : bool :=
  match s with
  | c :: (d :: _) as rest =>
      negb (audio_gen.is_underscore c && audio_gen.is_underscore d) &&
      single_underscores rest
  | _ => true
  end.

(** From [st] to [st'] the audio files only grow: a file that exists
    keeps its content, the files written are new and distinct, no other
    file appears, and at most [k] requests are made. *)
Definition grows (k : nat) (st st' : audio_gen.state) : Prop :=
  (forall f c, audio_gen.files st f = Some c -> audio_gen.files st' f = Some c) /\
  audio_gen.requests st' <= audio_gen.requests st + k /\
  exists new,
    audio_gen.written st' = audio_gen.written st ++ new /\
    NoDup new /\
    (forall n, In n new ->
               audio_gen.files st n = None /\ audio_gen.files st' n <> None) /\
    (forall f, audio_gen.files st f = None -> ~ In f new ->
               audio_gen.files st' f = None).

(** Two sentences whose pinyin differs in the tones only. *)
Definition buy_and_sell : list entry :=
  [ en "to buy" [ck "买" "mǎi"]; en "to sell" [ck "卖" "mài"] ].

Definition no_audio : audio_gen.state :=
  {| audio_gen.files := fun _ => None; audio_gen.requests := 0;
     audio_gen.written := []; audio_gen.printed := [] |}.

(** ** [generator/ai_wrappers.py] *)

Module ai_wrappers.

Definition FREE_MODELS : list str :=
  [ lit "tngtech/deepseek-r1t2-chimera:free";
    lit "nex-agi/deepseek-v3.1-nex-n1:free";
    lit "allenai/olmo-3.1-32b-think:free";
    lit "google/gemma-3-27b-it:free";
    lit "openai/gpt-oss-120b:free" ].

Definition mapping : dict str :=
  [ (lit "Haiku",
     lit "arn:aws:bedrock:eu-west-1:118330671040:inference-profile/global.anthropic.claude-haiku-4-5-20251001-v1:0");
    (lit "Sonnet",
     lit "arn:aws:bedrock:eu-west-1:118330671040:inference-profile/global.anthropic.claude-sonnet-4-5-20250929-v1:0");
    (lit "Opus",
     lit "arn:aws:bedrock:eu-west-1:118330671040:inference-profile/global.anthropic.claude-opus-4-5-20251101-v1:0") ].

(** [mapping.get(model_name, model_name)] *)
Definition get_claude_model_id (model_name : str) : str :=
  get (lookup model_name mapping) model_name.

(** The request that a wrapper sends: [opencode] to Bedrock with the
    model id of [get_claude_model_id], [openrouter_wrapper] to OpenRouter. *)
Inductive request : Type :=
| Bedrock (model_id prompt : str)
| OpenRouter (model_name prompt : str).

Inductive message : Type :=
| SelectedFree (model_name : str).

(** [run_ai]: what it prints and the request of the wrapper it calls,
    [None] for the [ValueError]; [choice] is the index that
    [random.choice] draws. *)
Definition run_ai (choice : nat) (model_name prompt : str)
  : list message * option request :=
  let '(out, model_name) :=
    if str_eqb model_name (lit "free")
    then let model_name := nth choice FREE_MODELS [] in
         ([SelectedFree model_name], model_name)
    else ([], model_name) in
  if mem model_name [lit "Haiku"; lit "Sonnet"; lit "Opus"]
  then (out, Some (Bedrock (get_claude_model_id model_name) prompt))
  else if contains (lit "/") model_name || endswith (lit ":free") model_name
  then (out, Some (OpenRouter model_name prompt))
  else (out, None).

End ai_wrappers.

(** [s.split(sep)], for a separator of one code point. *)
Fixpoint split_on (sep : char) (s : str) : list str :=
  match s with
  | [] => [[]]
  | c :: r =>
      if (c =? sep)%N then [] :: split_on sep r
      else match split_on sep r with
           | w :: ws => (c :: w) :: ws
           | [] => [[c]]
           end
  end.

(** ** [generator/cedict_tool.py] *)

Module cedict_tool.

Definition SPACE : char := 32%N.
Definition SLASH : char := 47%N.
Definition LINE_FEED : char := 10%N.
Definition LEFT_BRACKET : char := 91%N.
Definition RIGHT_BRACKET : char := 93%N.

(** What a [.] of the pattern can match from the start of [s]: the code
    points before the first line feed. *)
Fixpoint dots (s : str) : str :=
  match s with
  | [] => []
  | c :: r => if (c =? LINE_FEED)%N then [] else c :: dots r
  end.

(** The greedy second group and the slash that ends the pattern, on the
    text [s] that the dots can reach: the text before the last slash. *)
Fixpoint greedy_to_slash (s : str) : option str :=
  match s with
  | [] => None
  | c :: r =>
      match greedy_to_slash r with
      | Some g => Some (c :: g)
      | None => if (c =? SLASH)%N then Some [] else None
      end
  end.

(** The pattern after its left bracket, on [s]: a lazy first group, as
    short as a match allows, then a right bracket, a space, a slash, the
    greedy second group and a slash. *)
Fixpoint lazy_group (s : str) : option (str * str) :=
  match (if startswith [RIGHT_BRACKET; SPACE; SLASH] s
         then greedy_to_slash (dots (skipn 3 s))
         else None) with
  | Some group2 => Some ([], group2)
  | None =>
      match s with
      | [] => None
      | c :: r =>
          if (c =? LINE_FEED)%N then None
          else match lazy_group r with
               | Some (group1, group2) => Some (c :: group1, group2)
               | None => None
               end
      end
  end.

(** [re.search] of line 50: the two groups of the leftmost match of a
    left bracket, a lazy group of dots, a right bracket, a space, a slash,
    a greedy group of dots and a slash. *)
Fixpoint search (line : str) : option (str * str) :=
  match line with
  | [] => None
  | c :: r =>
      match (if (c =? LEFT_BRACKET)%N then lazy_group r else None) with
      | Some groups => Some groups
      | None => search r
      end
  end.

(** An item of the list that [lookup_word] returns. *)
Record definition : Type := {
  traditional : str;
  simplified : str;
  pinyin : str;
  definitions : list str
}.

(** The body of the loop of lines 37-59. *)
Definition lookup_line (word : str) (found : list definition) (line : str)
  : list definition :=
  if startswith [NUMBER_SIGN] line then found
  else
    let parts := split_on SPACE (strip line) in
    if length parts <? 3 then found
    else
      let traditional := nth 0 parts [] in
      let simplified := nth 1 parts [] in
      if str_eqb word traditional || str_eqb word simplified then
        match search line with
        | Some (pinyin, group2) =>
            let defs := split_on SLASH group2 in
            found ++ [ {| traditional := traditional;
                          simplified := simplified;
                          pinyin := pinyin;
                          definitions := defs |} ]
        | None => found
        end
      else found.

(** [lookup_word], on the lines of the dictionary file. *)
Definition lookup_word (lines : list str) (word : str) : list definition :=
  fold_left (lookup_line word) lines [].

End cedict_tool.

(** A line of the dictionary: "Traditional Simplified [pinyin] /d1/d2/". *)
Definition cedict_line (e : cedict_tool.definition) : str :=
  cedict_tool.traditional e ++ [cedict_tool.SPACE] ++
  cedict_tool.simplified e ++ [cedict_tool.SPACE; cedict_tool.LEFT_BRACKET] ++
  cedict_tool.pinyin e ++
  [cedict_tool.RIGHT_BRACKET; cedict_tool.SPACE; cedict_tool.SLASH] ++
  join [cedict_tool.SLASH] (cedict_tool.definitions e) ++
  [cedict_tool.SLASH; cedict_tool.LINE_FEED].

(** A headword: no white space and no left bracket. *)
Definition headword (w : str) : bool :=
  forallb (fun c => negb (is_space c) && negb (c =? cedict_tool.LEFT_BRACKET)%N) w.

(** An entry that its line determines. *)
Definition well_formed_entry (e : cedict_tool.definition) : bool :=
  truthy (cedict_tool.traditional e) &&
  negb (startswith [NUMBER_SIGN] (cedict_tool.traditional e)) &&
  headword (cedict_tool.traditional e) && headword (cedict_tool.simplified e) &&
  forallb (fun c => negb (c =? cedict_tool.RIGHT_BRACKET)%N &&
                    negb (c =? cedict_tool.LINE_FEED)%N)
          (cedict_tool.pinyin e) &&
  match cedict_tool.definitions e with [] => false | _ :: _ => true end &&
  forallb (forallb (fun c => negb (c =? cedict_tool.SLASH)%N &&
                             negb (c =? cedict_tool.LINE_FEED)%N))
          (cedict_tool.definitions e).

(** An entry that [lookup_word] can return for [word]. *)
Definition entry_for (word : str) (d : cedict_tool.definition) : Prop :=
  (cedict_tool.traditional d = word \/ cedict_tool.simplified d = word) /\
  Forall (fun c => (c =? cedict_tool.SPACE)%N = false) (cedict_tool.traditional d) /\
  Forall (fun c => (c =? cedict_tool.SPACE)%N = false) (cedict_tool.simplified d) /\
  Forall (fun c => (c =? cedict_tool.LINE_FEED)%N = false) (cedict_tool.pinyin d) /\
  cedict_tool.definitions d <> [] /\
  Forall (Forall (fun c => (c =? cedict_tool.SLASH)%N = false))
         (cedict_tool.definitions d) /\
  Forall (Forall (fun c => (c =? cedict_tool.LINE_FEED)%N = false))
         (cedict_tool.definitions d).

Definition cedict_header : list str :=
  [lit "# CC-CEDICT" ++ [cedict_tool.LINE_FEED];
   lit "#! version=1" ++ [cedict_tool.LINE_FEED]].

Definition cedict_entries : list cedict_tool.definition :=
  [ {| cedict_tool.traditional := lit "學";
       cedict_tool.simplified := lit "学";
       cedict_tool.pinyin := lit "xue2";
       cedict_tool.definitions := [lit "to learn"; lit "to study"] |};
    {| cedict_tool.traditional := lit "你好";
       cedict_tool.simplified := lit "你好";
       cedict_tool.pinyin := lit "ni3 hao3";
       cedict_tool.definitions := [lit "hello"; lit "hi"] |};
    {| cedict_tool.traditional := lit "学";
       cedict_tool.simplified := lit "学";
       cedict_tool.pinyin := lit "xue2";
       cedict_tool.definitions := [lit "Japanese variant of 學"] |} ].

(* ================================================================= *)
(** * Properties *)

(** ** Strings *)

Lemma str_eqb_eq (a b : str) : str_eqb a b = true <-> a = b.
Proof. unfold str_eqb. destruct (str_eq_dec a b); split; congruence. Qed.

Lemma str_eqb_refl (a : str) : str_eqb a a = true.
Proof. now apply str_eqb_eq. Qed.

Lemma str_eqb_neq (a b : str) : str_eqb a b = false <-> a <> b.
Proof. unfold str_eqb. destruct (str_eq_dec a b); split; congruence. Qed.

Lemma truthy_true (s : str) : truthy s = true <-> s <> [].
Proof. destruct s; simpl; split; congruence. Qed.

Lemma truthy_false (s : str) : truthy s = false <-> s = [].
Proof. destruct s; simpl; split; congruence. Qed.

(** ** Dictionaries *)

Section DictFacts.
Context {V : Type}.
Implicit Types (d : dict V) (k : str).

Lemma lookup_dd_update k k' dflt (f : V -> V) d :
  lookup k (dd_update k' dflt f d) =
  if str_eq_dec k k' then Some (f (get (lookup k' d) dflt)) else lookup k d.
Proof.
  induction d as [|[k0 v] d IH]; simpl.
  - destruct (str_eq_dec k k'); reflexivity.
  - destruct (str_eq_dec k' k0) as [->|Hn]; simpl.
    + destruct (str_eq_dec k k0); reflexivity.
    + rewrite IH. destruct (str_eq_dec k k0) as [->|]; [|reflexivity].
      destruct (str_eq_dec k0 k'); congruence.
Qed.

Lemma dd_get_lookup k dflt d : dd_get k dflt d = get (lookup k d) dflt.
Proof.
  induction d as [|[k0 v] d IH]; simpl; [reflexivity|].
  destruct (str_eq_dec k k0); auto.
Qed.

Lemma lookup_In k v d : lookup k d = Some v -> In (k, v) d.
Proof.
  induction d as [|[k0 v0] d IH]; simpl; [discriminate|].
  destruct (str_eq_dec k k0) as [->|]; intros H; [left; congruence | right; auto].
Qed.

Lemma In_lookup k v d : NoDup (map fst d) -> In (k, v) d -> lookup k d = Some v.
Proof.
  induction d as [|[k0 v0] d IH]; simpl; [tauto|].
  intros Hnd [Heq|Hin]; inversion Hnd as [|? ? Hni Hnd']; subst.
  - inversion Heq; subst. destruct (str_eq_dec k k); congruence.
  - destruct (str_eq_dec k k0) as [->|]; [|auto].
    exfalso. apply Hni. change k0 with (fst (k0, v)). now apply in_map.
Qed.

Lemma keys_dd_update k dflt (f : V -> V) d :
  map fst (dd_update k dflt f d) =
  if in_dec str_eq_dec k (map fst d) then map fst d else map fst d ++ [k].
Proof.
  induction d as [|[k0 v] d IH]; simpl; [reflexivity|].
  destruct (str_eq_dec k k0) as [->|Hn]; simpl.
  - destruct (str_eq_dec k0 k0); congruence.
  - rewrite IH. destruct (str_eq_dec k0 k); [congruence|].
    destruct (in_dec str_eq_dec k (map fst d)); reflexivity.
Qed.

Lemma NoDup_dd_update k dflt (f : V -> V) d :
  NoDup (map fst d) -> NoDup (map fst (dd_update k dflt f d)).
Proof.
  intros Hnd. rewrite keys_dd_update.
  destruct (in_dec str_eq_dec k (map fst d)) as [|Hni]; [assumption|].
  apply NoDup_app; [assumption | repeat constructor; tauto |].
  intros x Hx [<-|[]]. tauto.
Qed.
End DictFacts.

Lemma mem_In k l : mem k l = true <-> In k l.
Proof.
  unfold mem. rewrite existsb_exists. split.
  - intros (x & Hx & He). apply str_eqb_eq in He. now subst.
  - intros H. exists k. split; [assumption | apply str_eqb_refl].
Qed.

Lemma mem_not_In k l : mem k l = false <-> ~ In k l.
Proof.
  rewrite <- mem_In. destruct (mem k l); split; congruence.
Qed.

Lemma filter_filter {A : Type} (p q : A -> bool) (l : list A) :
  filter p (filter q l) = filter (fun x => q x && p x) l.
Proof.
  induction l as [|x l IH]; simpl; [reflexivity|].
  destruct (q x); simpl; [destruct (p x)|]; now rewrite IH.
Qed.

Lemma fold_left_snoc {X : Type} (xs acc : list X) :
  fold_left snoc xs acc = acc ++ xs.
Proof.
  revert acc. induction xs as [|x xs IH]; intros acc; simpl.
  - now rewrite app_nil_r.
  - rewrite IH. unfold snoc. now rewrite <- app_assoc.
Qed.

Section GroupFacts.
Context {V X : Type} (step : V -> X -> V) (dflt : V).
Implicit Types (d : dict V) (kxs : list (str * X)).

Lemma group_with_app kxs1 kxs2 d :
  group_with step dflt (kxs1 ++ kxs2) d =
  group_with step dflt kxs2 (group_with step dflt kxs1 d).
Proof. unfold group_with. apply fold_left_app. Qed.

Lemma lookup_group_with k kxs d :
  lookup k (group_with step dflt kxs d) =
  match values k kxs with
  | [] => lookup k d
  | xs => Some (fold_left step xs (get (lookup k d) dflt))
  end.
Proof.
  revert d. induction kxs as [|[k0 x] kxs IH]; intros d; [reflexivity|].
  change (group_with step dflt ((k0, x) :: kxs) d)
    with (group_with step dflt kxs (dd_update k0 dflt (fun v => step v x) d)).
  rewrite IH, lookup_dd_update. unfold values. simpl.
  destruct (str_eq_dec k k0) as [->|Hn].
  - rewrite str_eqb_refl. simpl.
    destruct (map snd (filter (fun kx => str_eqb (fst kx) k0) kxs)); reflexivity.
  - assert (He : str_eqb k0 k = false) by (apply str_eqb_neq; congruence).
    rewrite He. reflexivity.
Qed.

Lemma NoDup_group_with kxs d :
  NoDup (map fst d) -> NoDup (map fst (group_with step dflt kxs d)).
Proof.
  revert d. induction kxs as [|[k0 x] kxs IH]; intros d Hd; [assumption|].
  apply IH. now apply NoDup_dd_update.
Qed.

Lemma keys_group_with kxs d :
  map fst (group_with step dflt kxs d) =
  map fst d ++
  filter (fun k => negb (mem k (map fst d))) (first_occurrences (map fst kxs)).
Proof.
  revert d. induction kxs as [|[k0 x] kxs IH]; intros d.
  - simpl. now rewrite app_nil_r.
  - change (group_with step dflt ((k0, x) :: kxs) d)
      with (group_with step dflt kxs (dd_update k0 dflt (fun v => step v x) d)).
    rewrite IH, keys_dd_update. simpl.
    destruct (in_dec str_eq_dec k0 (map fst d)) as [Hin|Hni].
    + apply mem_In in Hin. rewrite Hin. simpl. f_equal.
      rewrite filter_filter. apply filter_ext. intros k.
      destruct (str_eqb k k0) eqn:E; simpl; [|reflexivity].
      apply str_eqb_eq in E. subst. now rewrite Hin.
    + apply mem_not_In in Hni. rewrite Hni. simpl.
      rewrite <- app_assoc. simpl. do 2 f_equal.
      rewrite filter_filter. apply filter_ext. intros k.
      unfold mem. rewrite existsb_app. simpl. rewrite orb_false_r.
      rewrite negb_orb. apply andb_comm.
Qed.

Lemma In_group_with k v kxs :
  In (k, v) (group_with step dflt kxs []) <->
  values k kxs <> [] /\ v = fold_left step (values k kxs) dflt.
Proof.
  assert (Hnd : NoDup (map fst (group_with step dflt kxs [])))
    by (apply NoDup_group_with; constructor).
  split.
  - intros Hin. apply (In_lookup _ _ _ Hnd) in Hin.
    rewrite lookup_group_with in Hin. simpl in Hin.
    destruct (values k kxs) eqn:E; [discriminate|].
    injection Hin as <-. split; [discriminate | reflexivity].
  - intros [Hne ->]. apply lookup_In. rewrite lookup_group_with. simpl.
    destruct (values k kxs); [congruence | reflexivity].
Qed.
End GroupFacts.

Lemma values_In {X : Type} k (x : X) kxs : In x (values k kxs) <-> In (k, x) kxs.
Proof.
  unfold values. rewrite in_map_iff. split.
  - intros ([k' x'] & <- & Hin). apply filter_In in Hin as [Hin He].
    apply str_eqb_eq in He. simpl in *. now subst.
  - intros Hin. exists (k, x). split; [reflexivity|].
    apply filter_In. split; [assumption | apply str_eqb_refl].
Qed.

(** ** The first loop *)

Lemma enumerate_from_cons {A : Type} n (x : A) l :
  enumerate_from n (x :: l) = (n, x) :: enumerate_from (S n) l.
Proof. reflexivity. Qed.

Lemma In_enumerate_from {A : Type} n (l : list A) i x :
  In (i, x) (enumerate_from n l) <-> n <= i /\ nth_error l (i - n) = Some x.
Proof.
  revert n. induction l as [|y l IH]; intros n.
  - simpl. split; [tauto|]. intros [_ H]. destruct (i - n); discriminate.
  - rewrite enumerate_from_cons. simpl. rewrite IH. split.
    + intros [Heq|[Hle Hn]].
      * inversion Heq; subst. rewrite Nat.sub_diag. auto.
      * split; [lia|]. replace (i - n) with (S (i - S n)) by lia. assumption.
    + intros [Hle Hn]. destruct (Nat.eq_dec i n) as [->|Hne].
      * rewrite Nat.sub_diag in Hn. simpl in Hn. left. congruence.
      * right. split; [lia|]. replace (i - n) with (S (i - S n)) in Hn by lia.
        assumption.
Qed.

Lemma In_enumerate {A : Type} (l : list A) i x :
  In (i, x) (enumerate_from 0 l) <-> nth_error l i = Some x.
Proof. rewrite In_enumerate_from, Nat.sub_0_r. intuition lia. Qed.

Section ScanFacts.
Context {U : UCD}.

Lemma scan_chunks_spec i cs wm :
  fold_left (scan_chunk i) cs wm =
  group_with word_step [] (flat_map word_triple (map (pair i) cs)) wm.
Proof.
  revert wm. induction cs as [|c cs IH]; intros wm; [reflexivity|].
  simpl. rewrite group_with_app, IH. f_equal.
  unfold scan_chunk, word_triple, recorded. simpl.
  destruct (has_letter (chunk_chinese c)); [|reflexivity].
  destruct (truthy (normalize_pinyin_full (chunk_pinyin c))); reflexivity.
Qed.

Lemma scan_from_spec n data cg wm :
  fold_left scan_entry (enumerate_from n data) (cg, wm) =
  (group_with snoc [] (sentence_keys_from n data) cg,
   group_with word_step [] (word_triples_from n data) wm).
Proof.
  revert n cg wm. induction data as [|e data IH]; intros n cg wm; [reflexivity|].
  rewrite enumerate_from_cons. simpl fold_left.
  unfold sentence_keys_from, word_triples_from, occurrences_from in *.
  rewrite enumerate_from_cons. simpl flat_map.
  destruct (chunks e) as [cs|]; simpl.
  - rewrite IH. rewrite flat_map_app, !group_with_app. f_equal.
    now rewrite scan_chunks_spec.
  - apply IH.
Qed.

Lemma chinese_groups_spec data :
  chinese_groups data = group_with snoc [] (sentence_keys data) [].
Proof.
  unfold chinese_groups, scan, enumerate.
  change (combine (seq 0 (length data)) data) with (enumerate_from 0 data).
  now rewrite scan_from_spec.
Qed.

Lemma word_map_spec data :
  word_map data = group_with word_step [] (word_triples_from 0 data) [].
Proof.
  unfold word_map, scan, enumerate.
  change (combine (seq 0 (length data)) data) with (enumerate_from 0 data).
  now rewrite scan_from_spec.
Qed.

Lemma In_sentence_keys data k i :
  In (k, i) (sentence_keys data) <-> record_chinese data i = Some k.
Proof.
  unfold sentence_keys, sentence_keys_from, record_chinese, chunks_at.
  rewrite in_flat_map. split.
  - intros ([i' e] & Hin & Hk). apply In_enumerate in Hin. simpl in Hk.
    destruct (chunks e) as [cs|] eqn:E; [|contradiction].
    destruct Hk as [Hk|[]]. inversion Hk; subst. rewrite Hin. simpl.
    now rewrite E.
  - destruct (nth_error data i) as [e|] eqn:E; simpl; [|discriminate].
    destruct (chunks e) as [cs|] eqn:Ec; simpl; [|discriminate].
    intros H. inversion H; subst. exists (i, e). split.
    + now apply In_enumerate.
    + simpl. rewrite Ec. now left.
Qed.

Lemma In_occurrences data i c :
  In (i, c) (occurrences data) <->
  exists cs, chunks_at data i = Some cs /\ In c cs.
Proof.
  unfold occurrences, occurrences_from, chunks_at. rewrite in_flat_map. split.
  - intros ([i' e] & Hin & Hc). apply In_enumerate in Hin. simpl in Hc.
    destruct (chunks e) as [cs|] eqn:E; [|contradiction].
    apply in_map_iff in Hc as (c' & Heq & Hc). inversion Heq; subst.
    exists cs. rewrite Hin. simpl. auto.
  - intros (cs & Hcs & Hc).
    destruct (nth_error data i) as [e|] eqn:E; simpl in Hcs; [|discriminate].
    exists (i, e). split; [now apply In_enumerate|].
    simpl. rewrite Hcs. now apply in_map.
Qed.

(** The group of a Chinese text holds exactly the records with that
    text, and is never empty. *)
Lemma chinese_groups_In data ch indices :
  In (ch, indices) (chinese_groups data) <->
  indices <> [] /\ indices = values ch (sentence_keys data).
Proof.
  rewrite chinese_groups_spec, In_group_with, fold_left_snoc. simpl.
  split; intros [H1 H2]; subst; auto.
Qed.

Lemma chinese_groups_member data ch indices i :
  In (ch, indices) (chinese_groups data) ->
  (In i indices <-> record_chinese data i = Some ch).
Proof.
  intros H. apply chinese_groups_In in H as [_ ->].
  now rewrite values_In, In_sentence_keys.
Qed.
End ScanFacts.

(** ** First occurrences *)

Lemma In_first_occurrences k l : In k (first_occurrences l) <-> In k l.
Proof.
  induction l as [|k0 l IH]; simpl; [tauto|].
  rewrite filter_In, IH. destruct (str_eq_dec k0 k) as [->|Hn].
  - tauto.
  - assert (str_eqb k k0 = false) by (apply str_eqb_neq; congruence).
    rewrite H. simpl. intuition congruence.
Qed.

Lemma NoDup_first_occurrences l : NoDup (first_occurrences l).
Proof.
  induction l as [|k0 l IH]; simpl; constructor.
  - rewrite filter_In. intros [_ H]. now rewrite str_eqb_refl in H.
  - now apply NoDup_filter.
Qed.

Lemma first_occurrences_single l :
  length (first_occurrences l) = 1 <->
  l <> [] /\ forall x y, In x l -> In y l -> x = y.
Proof.
  destruct l as [|k l]; simpl.
  - split; [discriminate | intros [H _]; congruence].
  - split.
    + intros H. split; [discriminate|].
      assert (Hall : forall x, In x l -> x = k).
      { intros x Hx. destruct (str_eq_dec x k) as [|Hn]; [assumption|].
        assert (Hin : In x (filter (fun k' => negb (str_eqb k' k)) (first_occurrences l))).
        { apply filter_In. split; [now apply In_first_occurrences|].
          apply str_eqb_neq in Hn. now rewrite Hn. }
        destruct (filter _ (first_occurrences l)); [contradiction | discriminate]. }
      intros x y [<-|Hx] [<-|Hy]; auto.
      * symmetry. auto.
      * rewrite (Hall x Hx). symmetry. auto.
    + intros [_ H]. f_equal.
      destruct (filter _ (first_occurrences l)) as [|x r] eqn:E; [reflexivity|].
      assert (Hin : In x (x :: r)) by now left.
      rewrite <- E in Hin. apply filter_In in Hin as [Hin Hne].
      rewrite In_first_occurrences in Hin. exfalso.
      assert (Hxk : x = k) by (apply H; simpl; auto). subst x.
      now rewrite str_eqb_refl in Hne.
Qed.

(** ** Duplicate sentences *)

Section DuplicateFacts.
Context {U : UCD}.

Lemma has_chunks_key data idx :
  has_chunks data idx ->
  exists k, sentence_pinyin data idx = Some k /\
            sentence_key data idx = Some (normalize_pinyin_full k).
Proof.
  intros [cs H]. unfold sentence_key, sentence_pinyin. rewrite H. simpl. eauto.
Qed.

Lemma record_chinese_has_chunks data i ch :
  record_chinese data i = Some ch -> has_chunks data i.
Proof.
  unfold record_chinese, has_chunks.
  destruct (chunks_at data i); simpl; intros H; [eauto | discriminate].
Qed.

Lemma chinese_groups_valid data ch indices :
  In (ch, indices) (chinese_groups data) -> Forall (has_chunks data) indices.
Proof.
  intros H. apply Forall_forall. intros i Hi.
  apply (chinese_groups_member _ _ _ i H) in Hi.
  eapply record_chinese_has_chunks; eauto.
Qed.

Lemma pinyin_map_from data indices pm :
  Forall (has_chunks data) indices ->
  for_each indices
    (fun pm idx =>
       full_py <- sentence_pinyin data idx ;;
       Some (dd_append (normalize_pinyin_full full_py) idx pm)) pm =
  Some (group_with snoc [] (map (fun idx => (key_of data idx, idx)) indices) pm).
Proof.
  intros Hv. revert pm. induction Hv as [|idx indices Hidx Hv IH]; intros pm.
  - reflexivity.
  - simpl. destruct (has_chunks_key Hidx) as (k & Hk & Hkey).
    rewrite Hk. simpl. rewrite IH. unfold key_of. rewrite Hkey. reflexivity.
Qed.

Lemma pinyin_map_spec data indices :
  Forall (has_chunks data) indices ->
  pinyin_map data indices =
  Some (group_with snoc [] (map (fun idx => (key_of data idx, idx)) indices) []).
Proof. apply pinyin_map_from. Qed.

Lemma is_duplicate_group_total data indices :
  Forall (has_chunks data) indices ->
  exists b, is_duplicate_group data indices = Some b.
Proof.
  intros Hv. unfold is_duplicate_group.
  destruct (1 <? length indices); [|eauto].
  rewrite pinyin_map_spec by assumption. simpl. eauto.
Qed.

(** A group counts as a duplicate exactly when it has at least two
    records and all of them have the same pinyin key. *)
Lemma is_duplicate_group_true data indices :
  Forall (has_chunks data) indices ->
  (is_duplicate_group data indices = Some true <->
   1 < length indices /\
   forall i j, In i indices -> In j indices ->
               sentence_key data i = sentence_key data j).
Proof.
  intros Hv. unfold is_duplicate_group.
  assert (Hkey : forall i, In i indices ->
                           sentence_key data i = Some (key_of data i)).
  { intros i Hi. rewrite Forall_forall in Hv.
    destruct (has_chunks_key (Hv i Hi)) as (k & _ & Hk).
    unfold key_of. now rewrite Hk. }
  destruct (1 <? length indices) eqn:Hlen.
  - apply Nat.ltb_lt in Hlen.
    rewrite pinyin_map_spec by assumption. simpl.
    rewrite <- (length_map fst), keys_group_with. simpl.
    rewrite map_map. simpl.
    assert (Hf : forall l : list str, filter (fun _ => true) l = l).
    { intros l. induction l; simpl; congruence. }
    rewrite Hf. split.
    + intros H. injection H as H. apply Nat.eqb_eq in H.
      apply first_occurrences_single in H as [_ H].
      split; [assumption|]. intros i j Hi Hj.
      rewrite (Hkey i Hi), (Hkey j Hj). f_equal.
      apply H; apply in_map_iff; eauto.
    + intros [_ H]. f_equal. apply Nat.eqb_eq.
      apply first_occurrences_single. split.
      * destruct indices; simpl in *; [lia | discriminate].
      * intros x y Hx Hy.
        apply in_map_iff in Hx as (i & <- & Hi).
        apply in_map_iff in Hy as (j & <- & Hj).
        specialize (H i j Hi Hj). rewrite (Hkey i Hi), (Hkey j Hj) in H.
        congruence.
  - apply Nat.ltb_ge in Hlen. split; [discriminate | intros [H _]; lia].
Qed.
End DuplicateFacts.

Section DuplicateReport.
Context {U : UCD}.

Lemma has_chunks_entry data idx :
  has_chunks data idx -> exists e, nth_error data idx = Some e.
Proof.
  intros [cs H]. unfold chunks_at in H.
  destruct (nth_error data idx); [eauto | discriminate].
Qed.

Lemma map_m_total {A B : Type} (f : A -> option B) (P : A -> Prop) xs :
  (forall x, P x -> exists y, f x = Some y) ->
  Forall P xs -> exists ys, map_m f xs = Some ys /\ length ys = length xs.
Proof.
  intros Hf Hxs. induction Hxs as [|x xs Hx _ (ys & IH & Hl)]; simpl.
  - exists []. auto.
  - destruct (Hf x Hx) as [y Hy]. rewrite Hy, IH. simpl.
    exists (y :: ys). simpl. auto.
Qed.

Lemma print_duplicate_total data ch indices :
  indices <> [] -> Forall (has_chunks data) indices ->
  exists b, print_duplicate data (ch, indices) = Some b.
Proof.
  intros Hne Hv. unfold print_duplicate.
  destruct (@map_m_total _ _
              (fun idx => e <- nth_error data idx ;;
                          Some (get (english e) QUESTION_MARKS))
              (has_chunks data) indices) as (en & Hen & _).
  - intros x Hx. destruct (has_chunks_entry Hx) as [e He]. rewrite He. simpl. eauto.
  - assumption.
  - rewrite Hen. destruct indices as [|i0 indices]; [congruence|].
    pose proof (Forall_inv Hv) as H0.
    destruct (has_chunks_key H0) as (k & Hk & _).
    simpl. rewrite Hk. simpl. eauto.
Qed.

Lemma duplicates_step_eq data n out g b :
  is_duplicate_group data (snd g) = Some b ->
  duplicates_step data (n, out) g =
  if b then
    if n <? 10
    then blk <- print_duplicate data g ;; Some (S n, out ++ blk)
    else Some (S n, out)
  else Some (n, out).
Proof.
  intros H. unfold duplicates_step. rewrite H. simpl.
  destruct b; [|reflexivity].
  destruct (n <? 10); [|reflexivity].
  destruct (print_duplicate data g); reflexivity.
Qed.

Lemma for_each_cons {A S : Type} (body : S -> A -> option S) x xs s :
  for_each (x :: xs) body s = (s' <- body s x ;; for_each xs body s').
Proof. reflexivity. Qed.

Lemma duplicates_loop data groups :
  Forall (well_formed_group data) groups ->
  forall n out,
  exists blocks,
    Forall2 (fun g b => print_duplicate data g = Some b)
            (firstn (10 - n) (filter (counts_as_duplicate data) groups)) blocks /\
    for_each groups (duplicates_step data) (n, out) =
    Some (n + length (filter (counts_as_duplicate data) groups),
          out ++ concat blocks).
Proof.
  induction 1 as [|[ch indices] groups [Hne Hv] _ IH]; intros n out.
  - exists []. split.
    + simpl filter. rewrite firstn_nil. constructor.
    + simpl. now rewrite Nat.add_0_r, app_nil_r.
  - simpl snd in *.
    destruct (is_duplicate_group_total Hv) as [b Hb].
    rewrite for_each_cons, (duplicates_step_eq data n out (ch, indices) Hb).
    assert (Hc : counts_as_duplicate data (ch, indices) = b).
    { unfold counts_as_duplicate. simpl snd. rewrite Hb. now destruct b. }
    simpl filter. rewrite Hc.
    destruct b.
    + destruct (n <? 10) eqn:Hn.
      * apply Nat.ltb_lt in Hn.
        destruct (print_duplicate_total ch Hne Hv) as [blk Hblk].
        rewrite Hblk.
        destruct (IH (S n) (out ++ blk)) as (blocks & HF & Hrun).
        exists (blk :: blocks). split.
        -- replace (10 - n) with (S (10 - S n)) by lia. rewrite firstn_cons.
           constructor; assumption.
        -- unfold bind. rewrite Hrun. simpl. rewrite <- app_assoc.
           do 2 f_equal. lia.
      * apply Nat.ltb_ge in Hn.
        destruct (IH (S n) out) as (blocks & HF & Hrun).
        exists blocks. split.
        -- replace (10 - n) with 0 by lia.
           replace (10 - S n) with 0 in HF by lia. assumption.
        -- unfold bind. rewrite Hrun. simpl. do 2 f_equal. lia.
    + destruct (IH n out) as (blocks & HF & Hrun). exists blocks. auto.
Qed.

Lemma chinese_groups_well_formed data :
  Forall (well_formed_group data) (chinese_groups data).
Proof.
  apply Forall_forall. intros [ch indices] Hin. split; simpl.
  - now apply chinese_groups_In in Hin.
  - eapply chinese_groups_valid; eauto.
Qed.

(** The duplicate part of the report: the first ten counted groups are
    printed, then the summary line. *)
Lemma report_duplicates_spec data :
  exists blocks,
    Forall2 (fun g b => print_duplicate data g = Some b)
            (firstn 10 (duplicate_groups data)) blocks /\
    report_duplicates data (chinese_groups data) =
    Some (concat blocks ++ [duplicates_summary (length (duplicate_groups data))]).
Proof.
  destruct (duplicates_loop (chinese_groups_well_formed data) 0 [])
    as (blocks & HF & Hrun).
  exists blocks. split; [exact HF|].
  unfold report_duplicates. rewrite Hrun. reflexivity.
Qed.

(** Two records are in one counted group exactly when they have the same
    Chinese text and every record with that text has the same key. *)
Lemma duplicate_groups_spec data ch indices :
  In (ch, indices) (duplicate_groups data) <->
  indices = values ch (sentence_keys data) /\
  1 < length indices /\
  forall i j, In i indices -> In j indices ->
              sentence_key data i = sentence_key data j.
Proof.
  unfold duplicate_groups. rewrite filter_In, chinese_groups_In.
  unfold counts_as_duplicate. simpl snd. split.
  - intros [[Hne Hval] Hdup].
    assert (Hv : Forall (has_chunks data) indices).
    { eapply chinese_groups_valid. apply chinese_groups_In. eauto. }
    destruct (is_duplicate_group data indices) as [[|]|] eqn:E; try discriminate.
    apply (is_duplicate_group_true Hv) in E. tauto.
  - intros (Hval & Hlen & Hkeys).
    assert (Hne : indices <> []) by (destruct indices; simpl in *; [lia | discriminate]).
    assert (Hv : Forall (has_chunks data) indices).
    { eapply chinese_groups_valid. apply chinese_groups_In. eauto. }
    split; [auto|].
    assert (E : is_duplicate_group data indices = Some true)
      by (apply (is_duplicate_group_true Hv); auto).
    now rewrite E.
Qed.
End DuplicateReport.

(** ** Which records are reported as duplicates *)

Lemma two_distinct_length {A : Type} (x y : A) (l : list A) :
  x <> y -> In x l -> In y l -> 1 < length l.
Proof.
  intros Hne Hx Hy. destruct l as [|a [|b l]]; simpl in *; [contradiction | | lia].
  destruct Hx as [<-|[]], Hy as [<-|[]]. congruence.
Qed.

(** C1, as the code has it: two distinct records are reported as
    duplicates exactly when they have the same concatenated Chinese text
    and every record of the corpus with that text has the same
    full-letters pinyin key; one record that reads the text differently
    keeps the whole group out of the report. *)
Theorem duplicates_reported_iff (U : UCD) (data : list entry) (i j : nat) :
  reported_as_duplicates data i j <->
  i <> j /\
  exists t,
    record_chinese data i = Some t /\ record_chinese data j = Some t /\
    forall k, record_chinese data k = Some t ->
              sentence_key data k = sentence_key data i.
Proof.
  unfold reported_as_duplicates. split.
  - intros (Hne & [ch indices] & Hg & Hi & Hj). simpl in Hi, Hj.
    split; [assumption|]. exists ch.
    apply duplicate_groups_spec in Hg as (Hval & _ & Hkeys). subst indices.
    rewrite values_In, In_sentence_keys in Hi, Hj.
    repeat split; try assumption.
    intros k Hk. apply Hkeys; rewrite values_In, In_sentence_keys; assumption.
  - intros (Hne & t & Hi & Hj & Hall). split; [assumption|].
    exists (t, values t (sentence_keys data)). simpl.
    rewrite !values_In, !In_sentence_keys. repeat split; try assumption.
    apply duplicate_groups_spec. split; [reflexivity|]. split.
    + apply (@two_distinct_length _ i j); [assumption | |];
        rewrite values_In, In_sentence_keys; assumption.
    + intros a b Ha Hb. rewrite values_In, In_sentence_keys in Ha, Hb.
      rewrite (Hall a Ha), (Hall b Hb). reflexivity.
Qed.

(** C1 as worded fails: the first two records of [three_readings] have the
    same Chinese text and the same pinyin key, and are not reported,
    because the third record reads the text differently. *)
Lemma duplicates_iff_same_text_and_key_fails :
  ~ @duplicates_iff_same_text_and_key fragment_ucd three_readings 0 1.
Proof.
  unfold duplicates_iff_same_text_and_key. intros [_ H].
  destruct H as (_ & g & Hg & _).
  - split; [discriminate|]. split.
    + exists (lit "行"). split; vm_compute; reflexivity.
    + exists (lit "xíng"). split; vm_compute; reflexivity.
  - vm_compute in Hg. exact Hg.
Qed.

(** C4: two records with the same concatenated Chinese text and different
    full-letters pinyin keys are never in one reported duplicate group. *)
Theorem homographs_never_grouped (U : UCD) (data : list entry) (i j : nat)
        (t : str) :
  record_chinese data i = Some t ->
  record_chinese data j = Some t ->
  sentence_key data i <> sentence_key data j ->
  forall g, In g (duplicate_groups data) -> ~ (In i (snd g) /\ In j (snd g)).
Proof.
  intros _ _ Hne [ch indices] Hg [Hi Hj]. simpl in Hi, Hj.
  apply duplicate_groups_spec in Hg as (_ & _ & Hkeys).
  apply Hne. now apply Hkeys.
Qed.

Lemma homographs_never_grouped_witness :
  ~ exists g, In g (@duplicate_groups fragment_ucd two_readings) /\
              In 0 (snd g) /\ In 1 (snd g).
Proof.
  intros (g & Hg & H0 & H1).
  apply (@homographs_never_grouped fragment_ucd two_readings 0 1 (lit "行")
           eq_refl eq_refl) with (g := g).
  - vm_compute. discriminate.
  - exact Hg.
  - split; assumption.
Defined.

(** ** The order on strings and [sorted] *)

Lemma str_ltb_irrefl (a : str) : str_ltb a a = false.
Proof.
  induction a as [|x a IH]; simpl; [reflexivity|].
  rewrite N.ltb_irrefl, N.eqb_refl. simpl. assumption.
Qed.

Lemma str_ltb_cons x a y b :
  str_ltb (x :: a) (y :: b) = true <->
  (x < y)%N \/ (x = y /\ str_ltb a b = true).
Proof.
  simpl. rewrite orb_true_iff, andb_true_iff, N.ltb_lt, N.eqb_eq. tauto.
Qed.

Lemma str_ltb_trans (a b c : str) :
  str_ltb a b = true -> str_ltb b c = true -> str_ltb a c = true.
Proof.
  revert b c. induction a as [|x a IH]; intros [|y b] [|z c]; try discriminate;
    try reflexivity.
  rewrite !str_ltb_cons. intros [H1|[-> H1]] [H2|[-> H2]].
  - left. lia.
  - now left.
  - now left.
  - right. split; [reflexivity|]. eapply IH; eauto.
Qed.

Lemma str_ltb_total (a b : str) :
  str_ltb a b = false -> str_ltb b a = false -> a = b.
Proof.
  revert b. induction a as [|x a IH]; intros [|y b]; try discriminate;
    try reflexivity.
  simpl. rewrite !orb_false_iff, !andb_false_iff, !N.ltb_ge, !N.eqb_neq.
  intros [H1 H1'] [H2 H2'].
  assert (x = y) by lia. subst y. f_equal. apply IH; tauto.
Qed.

Lemma str_le_refl a : str_le a a.
Proof. apply str_ltb_irrefl. Qed.

Lemma str_le_trans a b c : str_le a b -> str_le b c -> str_le a c.
Proof.
  unfold str_le. intros Hab Hbc.
  destruct (str_ltb c a) eqn:Hca; [|reflexivity]. exfalso.
  destruct (str_ltb a b) eqn:E.
  - rewrite (str_ltb_trans _ _ _ Hca E) in Hbc. discriminate.
  - rewrite (str_ltb_total _ _ E Hab) in Hca. congruence.
Qed.

Section SortedFacts.
Context {A : Type} (key : A -> str).

Lemma Permutation_insert_by x l : Permutation (insert_by key x l) (x :: l).
Proof.
  induction l as [|y l IH]; simpl; [reflexivity|].
  destruct (str_ltb (key y) (key x)); [|reflexivity].
  rewrite IH. apply perm_swap.
Qed.

Lemma Permutation_sorted_by l : Permutation (sorted_by key l) l.
Proof.
  induction l as [|x l IH]; simpl; [reflexivity|].
  rewrite Permutation_insert_by. now constructor.
Qed.

Lemma In_sorted_by x l : In x (sorted_by key l) <-> In x l.
Proof.
  split; apply Permutation_in;
    [| symmetry]; apply Permutation_sorted_by.
Qed.

Lemma length_sorted_by l : length (sorted_by key l) = length l.
Proof. apply Permutation_length, Permutation_sorted_by. Qed.

Lemma key_le_trans x y z : key_le key x y -> key_le key y z -> key_le key x z.
Proof. apply str_le_trans. Qed.

Lemma HdRel_insert_by a x l :
  HdRel (key_le key) a l -> key_le key a x ->
  HdRel (key_le key) a (insert_by key x l).
Proof.
  intros Hl Hx. destruct l as [|y l]; simpl; [now constructor|].
  destruct (str_ltb (key y) (key x)); constructor; [|assumption].
  now inversion Hl.
Qed.

Lemma Sorted_insert_by x l :
  Sorted (key_le key) l -> Sorted (key_le key) (insert_by key x l).
Proof.
  induction 1 as [|y l Hs IH Hhd]; simpl; [repeat constructor|].
  destruct (str_ltb (key y) (key x)) eqn:E.
  - constructor; [assumption|]. apply HdRel_insert_by; [assumption|].
    unfold key_le, str_le.
    destruct (str_ltb (key x) (key y)) eqn:E'; [|reflexivity].
    pose proof (str_ltb_trans _ _ _ E E') as Hc.
    rewrite str_ltb_irrefl in Hc. discriminate.
  - constructor; [now constructor|]. constructor. exact E.
Qed.

Lemma StronglySorted_sorted_by l : StronglySorted (key_le key) (sorted_by key l).
Proof.
  apply Sorted_StronglySorted.
  - intros x y z. apply key_le_trans.
  - induction l as [|x l IH]; simpl; [constructor|]. now apply Sorted_insert_by.
Qed.
End SortedFacts.

(** ** The tone loops *)

Section ToneLoops.
Context {U : UCD}.

Lemma tones_group_eq data ch pfm n out sfp :
  tones_group data ch pfm (n, out) sfp =
  if 1 <? length (snd sfp) then
    b <- print_inconsistent data (ch, pfm, sorted (snd sfp)) ;;
    Some (S n, out ++ b)
  else Some (n, out).
Proof.
  destruct sfp as [s fps]. unfold tones_group, print_inconsistent. simpl snd.
  destruct (1 <? length fps); [|reflexivity].
  destruct (map_m (variant_line data ch pfm) (sorted fps)); reflexivity.
Qed.

Lemma tones_group_loop data ch pfm items :
  forall n out blocks,
    Forall2 (fun g b => print_inconsistent data g = Some b)
            (map (fun sfp => (ch, pfm, sorted (snd sfp)))
                 (filter (fun sfp => 1 <? length (snd sfp)) items)) blocks ->
    for_each items (tones_group data ch pfm) (n, out) =
    Some (n + length blocks, out ++ concat blocks).
Proof.
  induction items as [|sfp items IH]; intros n out blocks HF.
  - inversion HF; subst. simpl. now rewrite Nat.add_0_r, app_nil_r.
  - rewrite for_each_cons, tones_group_eq. simpl filter in HF.
    destruct (1 <? length (snd sfp)).
    + inversion HF as [|g b gs bs Hb HF' E1 E2]; subst.
      rewrite Hb. unfold bind. rewrite (IH _ _ _ HF'). simpl.
      rewrite <- app_assoc. do 2 f_equal. lia.
    + now apply IH.
Qed.

Lemma tones_word_eq data n out item :
  tones_word data (n, out) item =
  if 1 <? length (snd item) then
    for_each (stripped_map (snd item))
             (tones_group data (fst item) (snd item)) (n, out)
  else Some (n, out).
Proof. destruct item as [ch pfm]. reflexivity. Qed.

Lemma tones_word_loop data items :
  forall n out blocks,
    Forall2 (fun g b => print_inconsistent data g = Some b)
            (flat_map inconsistent_groups_of items) blocks ->
    for_each items (tones_word data) (n, out) =
    Some (n + length blocks, out ++ concat blocks).
Proof.
  induction items as [|item items IH]; intros n out blocks HF.
  - inversion HF; subst. simpl. now rewrite Nat.add_0_r, app_nil_r.
  - rewrite for_each_cons, tones_word_eq. simpl flat_map in HF.
    apply Forall2_app_inv_l in HF as (b1 & b2 & HF1 & HF2 & ->).
    unfold inconsistent_groups_of in HF1.
    destruct (1 <? length (snd item)).
    + rewrite tones_group_loop with (blocks := b1) by exact HF1. unfold bind.
      rewrite (IH _ _ _ HF2), concat_app, length_app, <- app_assoc.
      do 2 f_equal. lia.
    + inversion HF1; subst. now apply IH.
Qed.

Lemma report_tones_blocks data wm blocks :
  Forall2 (fun g b => print_inconsistent data g = Some b)
          (flat_map inconsistent_groups_of (sorted_items wm)) blocks ->
  report_tones data wm =
  Some (InconsistentTones :: concat blocks ++
        match blocks with [] => [NoneFound] | _ => [] end).
Proof.
  intros HF. unfold report_tones.
  rewrite tones_word_loop with (blocks := blocks) by exact HF. simpl.
  destruct blocks; simpl; [reflexivity|]. now rewrite app_nil_r.
Qed.
End ToneLoops.

(** ** The word map *)

Lemma values_app {X : Type} k (a b : list (str * X)) :
  values k (a ++ b) = values k a ++ values k b.
Proof. unfold values. now rewrite filter_app, map_app. Qed.

Lemma find_filter_hd {A : Type} (p : A -> bool) l x r :
  filter p l = x :: r -> find p l = Some x.
Proof.
  induction l as [|y l IH]; simpl; [discriminate|].
  destruct (p y); [congruence | assumption].
Qed.

Lemma filter_map_pair {A : Type} (p : A -> bool) (n : nat) l :
  filter (fun ic => p (snd ic)) (map (pair n) l) = map (pair n) (filter p l).
Proof.
  induction l as [|x l IH]; simpl; [reflexivity|].
  destruct (p x); simpl; now rewrite IH.
Qed.

Section WordMapFacts.
Context {U : UCD}.

Lemma normalize_pinyin_full_nil : normalize_pinyin_full [] = [].
Proof. reflexivity. Qed.

Lemma normalize_pinyin_stripped_nil : normalize_pinyin_stripped [] = [].
Proof. reflexivity. Qed.

Lemma chunk_matches_recorded ch fp c :
  has_letter ch = true -> fp <> [] ->
  chunk_matches ch fp c =
  recorded c && str_eqb (chunk_chinese c) ch
  && str_eqb (normalize_pinyin_full (chunk_pinyin c)) fp.
Proof.
  intros Hch Hfp. unfold chunk_matches, recorded, chunk_chinese.
  destruct (str_eqb (normalize_pinyin_full (chunk_pinyin c)) fp) eqn:Efp;
    [|now rewrite !andb_false_r].
  rewrite !andb_true_r. apply str_eqb_eq in Efp. rewrite Efp.
  apply truthy_true in Hfp. rewrite Hfp, andb_true_r.
  destruct (chinese c) as [ch'|]; simpl.
  - destruct (str_eqb ch' ch) eqn:E; [|now rewrite andb_false_r].
    apply str_eqb_eq in E. subst. now rewrite Hch.
  - reflexivity.
Qed.

Lemma values_word_triples ch fp occ :
  has_letter ch = true -> fp <> [] ->
  values fp (values ch (flat_map word_triple occ)) =
  map fst (filter (fun ic => chunk_matches ch fp (snd ic)) occ).
Proof.
  intros Hch Hfp. induction occ as [|[i c] occ IH]; [reflexivity|].
  simpl flat_map. rewrite !values_app, IH. simpl filter.
  rewrite (@chunk_matches_recorded ch fp c Hch Hfp). unfold word_triple. simpl.
  destruct (recorded c); simpl; [|reflexivity].
  unfold values at 2. simpl.
  destruct (str_eqb (chunk_chinese c) ch); simpl; [|reflexivity].
  unfold values at 1. simpl.
  destruct (str_eqb (normalize_pinyin_full (chunk_pinyin c)) fp); reflexivity.
Qed.

Lemma In_word_triples data ch fp i :
  In (ch, (fp, i)) (word_triples_from 0 data) <->
  exists c, In (i, c) (occurrences data) /\ recorded c = true /\
            chunk_chinese c = ch /\ normalize_pinyin_full (chunk_pinyin c) = fp.
Proof.
  unfold word_triples_from. rewrite in_flat_map. split.
  - intros ([i' c] & Hin & Ht). unfold word_triple in Ht. simpl in Ht.
    destruct (recorded c) eqn:E; [|contradiction].
    destruct Ht as [Ht|[]]. inversion Ht; subst. exists c. auto.
  - intros (c & Hin & Hr & <- & <-). exists (i, c). split; [assumption|].
    unfold word_triple. simpl. rewrite Hr. now left.
Qed.

(** The entries of [word_map]: a Chinese text with a letter, and for
    each non-empty full-letters key the sentences of its occurrences. *)
Lemma word_map_In data ch pfm :
  In (ch, pfm) (word_map data) ->
  has_letter ch = true /\
  NoDup (map fst pfm) /\
  forall fp indices,
    In (fp, indices) pfm <->
    indices <> [] /\ fp <> [] /\
    indices = map fst (key_occurrences data ch fp).
Proof.
  rewrite word_map_spec, In_group_with. intros [Hne Hpfm].
  change (fold_left word_step (values ch (word_triples_from 0 data)) [])
    with (group_with snoc [] (values ch (word_triples_from 0 data)) []) in Hpfm.
  assert (Hch : has_letter ch = true).
  { destruct (values ch (word_triples_from 0 data)) as [|[fp i] r] eqn:E;
      [congruence|].
    assert (Hin : In (fp, i) (values ch (word_triples_from 0 data)))
      by (rewrite E; now left).
    apply values_In, In_word_triples in Hin as (c & _ & Hr & <- & _).
    unfold recorded in Hr. now apply andb_true_iff in Hr. }
  split; [assumption|]. split.
  { subst pfm. apply NoDup_group_with. constructor. }
  intros fp indices. subst pfm. rewrite In_group_with, fold_left_snoc. simpl.
  split.
  - intros [Hn ->].
    assert (Hfp : fp <> []).
    { destruct (values fp (values ch (word_triples_from 0 data))) as [|i r] eqn:E;
        [congruence|].
      assert (Hin : In i (values fp (values ch (word_triples_from 0 data))))
        by (rewrite E; now left).
      apply values_In, values_In, In_word_triples in Hin as (c & _ & Hr & _ & <-).
      unfold recorded in Hr. apply andb_true_iff in Hr as [_ Hr].
      now apply truthy_true. }
    repeat split; try assumption.
    unfold key_occurrences, word_triples_from.
    now apply values_word_triples.
  - intros (Hn & Hfp & ->).
    assert (E : values fp (values ch (word_triples_from 0 data)) =
                map fst (key_occurrences data ch fp))
      by (now apply values_word_triples).
    rewrite E. auto.
Qed.

Lemma first_occurrence_from (p : chunk -> bool) data :
  forall n i0 c0 rest,
    filter (fun ic => p (snd ic)) (occurrences_from n data) = (i0, c0) :: rest ->
    n <= i0 /\
    exists e cs, nth_error data (i0 - n) = Some e /\ chunks e = Some cs /\
                 find p cs = Some c0.
Proof.
  induction data as [|e data IH]; intros n i0 c0 rest; [discriminate|].
  unfold occurrences_from. rewrite enumerate_from_cons. simpl flat_map.
  fold (occurrences_from (S n) data). rewrite filter_app.
  destruct (chunks e) as [cs|] eqn:Ec.
  - rewrite filter_map_pair.
    destruct (filter p cs) as [|c r] eqn:Ef; simpl.
    + intros H. apply IH in H as (Hle & e' & cs' & Hn & Hc & Hf).
      split; [lia|]. exists e', cs'.
      replace (i0 - n) with (S (i0 - S n)) by lia. auto.
    + intros H. inversion H; subst. split; [lia|].
      exists e, cs. rewrite Nat.sub_diag. repeat split; try assumption.
      now apply find_filter_hd with (r := r).
  - simpl. intros H. apply IH in H as (Hle & e' & cs' & Hn & Hc & Hf).
    split; [lia|]. exists e', cs'.
    replace (i0 - n) with (S (i0 - S n)) by lia. auto.
Qed.
End WordMapFacts.

(** ** The lines of one inconsistent group *)

Lemma values_keyed {f : str -> str} s (l : list str) :
  values s (map (fun k => (f k, k)) l) = filter (fun k => str_eqb (f k) s) l.
Proof.
  unfold values. induction l as [|k l IH]; simpl; [reflexivity|].
  destruct (str_eqb (f k) s); simpl; now rewrite IH.
Qed.

Section ToneGroups.
Context {U : UCD}.

Lemma stripped_map_spec (pfm : dict (list nat)) :
  stripped_map pfm =
  group_with snoc []
    (map (fun k => (normalize_pinyin_stripped k, k)) (map fst pfm)) [].
Proof.
  unfold stripped_map, group_with. generalize (@nil (str * list str)).
  induction (map fst pfm) as [|k l IH]; intros d; simpl; [reflexivity|].
  apply IH.
Qed.

(** An item of [stripped_map]: the keys of [py_full_map] with one
    stripped key, in the order of [py_full_map]. *)
Lemma stripped_map_In (pfm : dict (list nat)) s fps :
  In (s, fps) (stripped_map pfm) <->
  fps <> [] /\
  fps = filter (fun k => str_eqb (normalize_pinyin_stripped k) s) (map fst pfm).
Proof.
  rewrite stripped_map_spec, In_group_with, fold_left_snoc, values_keyed.
  simpl. split; intros [H1 H2]; subst; auto.
Qed.

Lemma inconsistent_groups_In data ch pfm fps :
  In (ch, pfm, fps) (inconsistent_groups data) <->
  In (ch, pfm) (word_map data) /\ 1 < length pfm /\
  exists s fps0, In (s, fps0) (stripped_map pfm) /\ 1 < length fps0 /\
                 fps = sorted fps0.
Proof.
  unfold inconsistent_groups. rewrite in_flat_map. split.
  - intros ([ch' pfm'] & Hin & Hg). unfold sorted_items in Hin.
    apply In_sorted_by in Hin. unfold inconsistent_groups_of in Hg.
    simpl fst in Hg. simpl snd in Hg.
    destruct (1 <? length pfm') eqn:E; [|contradiction].
    apply Nat.ltb_lt in E.
    apply in_map_iff in Hg as ([s fps0] & Heq & Hf).
    apply filter_In in Hf as [Hf Hl]. simpl in Hl. apply Nat.ltb_lt in Hl.
    inversion Heq; subst. eauto 8.
  - intros (Hin & Hlen & s & fps0 & Hs & Hl & ->).
    exists (ch, pfm). split.
    + unfold sorted_items. now apply In_sorted_by.
    + unfold inconsistent_groups_of. simpl fst. simpl snd.
      apply Nat.ltb_lt in Hlen. rewrite Hlen.
      apply in_map_iff. exists (s, fps0). split; [reflexivity|].
      apply filter_In. split; [assumption|]. now apply Nat.ltb_lt.
Qed.

(** One line of a group: the pinyin of the first chunk occurrence with
    this Chinese text and key, the number of such occurrences, and the
    english of the sentence of the first one. *)
Lemma variant_line_spec data ch pfm fp :
  In (ch, pfm) (word_map data) -> In fp (map fst pfm) ->
  exists i0 c0 rest e0,
    key_occurrences data ch fp = (i0, c0) :: rest /\
    nth_error data i0 = Some e0 /\
    chunk_matches ch fp c0 = true /\
    variant_line data ch pfm fp =
    Some (Variant (chunk_pinyin c0) (length (key_occurrences data ch fp))
                  (english e0)).
Proof.
  intros Hwm Hfp. apply word_map_In in Hwm as (Hch & Hnd & Hpfm).
  apply in_map_iff in Hfp as ([fp' indices] & Heq & Hin). simpl in Heq. subst fp'.
  pose proof (In_lookup _ _ _ Hnd Hin) as Hlk.
  apply Hpfm in Hin as (Hne & Hfpne & Hind).
  destruct (key_occurrences data ch fp) as [|[i0 c0] rest] eqn:Eocc;
    [simpl in Hind; congruence|].
  pose proof Eocc as Hfirst. unfold key_occurrences, occurrences in Hfirst.
  apply first_occurrence_from in Hfirst as (_ & e0 & cs & Hn & Hcs & Hfind).
  rewrite Nat.sub_0_r in Hn.
  assert (Hm : chunk_matches ch fp c0 = true).
  { apply find_some in Hfind. tauto. }
  exists i0, c0, rest, e0. repeat split; try assumption.
  unfold variant_line. rewrite dd_get_lookup, Hlk. simpl get. subst indices.
  simpl map. simpl find_sample. unfold chunks_at. rewrite Hn. simpl bind.
  rewrite Hcs. simpl bind. rewrite Hfind.
  assert (Ht : truthy (chunk_pinyin c0) = true).
  { apply truthy_true. intros E.
    unfold chunk_matches in Hm. apply andb_true_iff in Hm as [_ Hm].
    apply str_eqb_eq in Hm. rewrite E, normalize_pinyin_full_nil in Hm.
    congruence. }
  rewrite Ht. simpl. rewrite Hn. simpl. now rewrite length_map.
Qed.

Lemma inconsistent_group_keys data ch pfm fps :
  In (ch, pfm, fps) (inconsistent_groups data) ->
  In (ch, pfm) (word_map data) /\ Forall (fun fp => In fp (map fst pfm)) fps.
Proof.
  intros H. apply inconsistent_groups_In in H
    as (Hwm & _ & s & fps0 & Hs & _ & ->).
  split; [assumption|]. apply Forall_forall. intros fp Hfp.
  apply In_sorted_by in Hfp. apply stripped_map_In in Hs as [_ ->].
  now apply filter_In in Hfp.
Qed.

Lemma print_inconsistent_total data g :
  In g (inconsistent_groups data) ->
  exists b, print_inconsistent data g = Some b.
Proof.
  destruct g as [[ch pfm] fps]. intros H.
  apply inconsistent_group_keys in H as [Hwm Hk].
  destruct (@map_m_total _ _ (variant_line data ch pfm)
                         (fun fp => In fp (map fst pfm)) fps)
    as (vs & Hvs & _); [|assumption|].
  - intros fp Hfp.
    destruct (variant_line_spec data ch pfm fp Hwm Hfp)
      as (i0 & c0 & rest & e0 & _ & _ & _ & Hv). eauto.
  - unfold print_inconsistent. rewrite Hvs. simpl. eauto.
Qed.

Lemma Forall2_total {A B : Type} (R : A -> B -> Prop) l :
  (forall x, In x l -> exists y, R x y) -> exists l', Forall2 R l l'.
Proof.
  induction l as [|x l IH]; intros H.
  - exists []. constructor.
  - destruct (H x) as [y Hy]; [now left|].
    destruct IH as [l' Hl']; [intros z Hz; apply H; now right|].
    exists (y :: l'). now constructor.
Qed.

(** The tone part of the report: the header, the groups in order, and
    "None found." when there is no group. *)
Lemma report_tones_spec data :
  exists blocks,
    Forall2 (fun g b => print_inconsistent data g = Some b)
            (inconsistent_groups data) blocks /\
    report_tones data (word_map data) =
    Some (InconsistentTones :: concat blocks ++
          match blocks with [] => [NoneFound] | _ => [] end).
Proof.
  destruct (@Forall2_total _ _
              (fun g b => print_inconsistent data g = Some b)
              (inconsistent_groups data)) as [blocks HF].
  - intros g Hg. now apply print_inconsistent_total.
  - exists blocks. split; [assumption|]. now apply report_tones_blocks.
Qed.

(** The whole analysis never raises, and its report is the duplicate
    part followed by the tone part. *)
Lemma analyze_spec data :
  exists dups tones,
    Forall2 (fun g b => print_duplicate data g = Some b)
            (firstn 10 (duplicate_groups data)) dups /\
    Forall2 (fun g b => print_inconsistent data g = Some b)
            (inconsistent_groups data) tones /\
    analyze data =
    Some (concat dups ++ [duplicates_summary (length (duplicate_groups data))]
          ++ InconsistentTones :: concat tones ++
             match tones with [] => [NoneFound] | _ => [] end).
Proof.
  destruct (report_duplicates_spec data) as (dups & Hd & Hrd).
  destruct (report_tones_spec data) as (tones & Ht & Hrt).
  exists dups, tones. repeat split; try assumption.
  unfold analyze. unfold chinese_groups in Hrd. unfold word_map in Hrt.
  destruct (scan data) as [groups wm]. simpl in Hrd, Hrt.
  rewrite Hrd, Hrt. simpl. now rewrite <- app_assoc.
Qed.
End ToneGroups.

(** ** The kinds of lines in each part of the report *)

Lemma map_m_Forall {A B : Type} (f : A -> option B) (P : B -> Prop) xs ys :
  (forall x y, f x = Some y -> P y) -> map_m f xs = Some ys -> Forall P ys.
Proof.
  intros Hf. revert ys. induction xs as [|x xs IH]; simpl; intros ys H.
  - injection H as <-. constructor.
  - destruct (f x) as [y|] eqn:Ey; [|discriminate]. simpl in H.
    destruct (map_m f xs) as [ys'|]; [|discriminate]. simpl in H.
    injection H as <-. constructor; eauto.
Qed.

Lemma Forall_concat {A : Type} (P : A -> Prop) (ls : list (list A)) :
  Forall (Forall P) ls -> Forall P (concat ls).
Proof.
  induction 1; simpl; [constructor|]. apply Forall_app. auto.
Qed.

Lemma Forall2_Forall_r {A B : Type} (R : A -> B -> Prop) (P : B -> Prop) l l' :
  Forall2 R l l' -> (forall x y, R x y -> P y) -> Forall P l'.
Proof. induction 1; intros H'; constructor; eauto. Qed.

Section LineKinds.
Context {U : UCD}.

Lemma variant_line_Variant data ch pfm fp l :
  variant_line data ch pfm fp = Some l -> exists r n e, l = Variant r n e.
Proof.
  unfold variant_line.
  destruct (find_sample data ch fp (dd_get fp [] pfm) []); cbn [bind];
    [|discriminate].
  destruct (nth_error (dd_get fp [] pfm) 0) as [i0|]; cbn [bind]; [|discriminate].
  destruct (nth_error data i0); cbn [bind]; [|discriminate].
  intros H. injection H as <-. eauto.
Qed.

Lemma print_inconsistent_lines data g b :
  print_inconsistent data g = Some b ->
  Forall (fun l => is_tone_line l = true) b.
Proof.
  destruct g as [[ch pfm] fps]. unfold print_inconsistent.
  destruct (map_m (variant_line data ch pfm) fps) as [vs|] eqn:E;
    cbn [bind]; intros H; [|discriminate].
  injection H as <-. constructor; [reflexivity|].
  eapply map_m_Forall; [|exact E]. intros fp l Hl.
  apply variant_line_Variant in Hl as (r & n & e & ->). reflexivity.
Qed.

Lemma print_duplicate_lines data g b :
  print_duplicate data g = Some b ->
  Forall (fun l => is_duplicate_line l = true) b.
Proof.
  destruct g as [ch indices]. unfold print_duplicate.
  destruct (nth_error indices 0) as [i0|]; cbn [bind]; [|discriminate].
  destruct (sentence_pinyin data i0); cbn [bind]; [|discriminate].
  destruct (map_m _ indices); cbn [bind]; [|discriminate].
  intros H. injection H as <-. repeat constructor.
Qed.

Lemma tone_part_lines data tones :
  Forall2 (fun g b => print_inconsistent data g = Some b)
          (inconsistent_groups data) tones ->
  Forall (fun l => is_duplicate_line l = false)
         (InconsistentTones :: concat tones ++
          match tones with [] => [NoneFound] | _ => [] end).
Proof.
  intros HF. constructor; [reflexivity|]. apply Forall_app. split.
  - apply Forall_concat. eapply Forall2_Forall_r; [exact HF|].
    intros g b Hb. simpl in Hb. apply print_inconsistent_lines in Hb.
    eapply Forall_impl; [|exact Hb]. intros [] Hl; try discriminate; reflexivity.
  - destruct tones; repeat constructor.
Qed.
End LineKinds.

(** ** The order and the cap of the duplicate report *)

Lemma filter_true {A : Type} (l : list A) : filter (fun _ => true) l = l.
Proof. induction l; simpl; congruence. Qed.

Lemma filter_map_comm {A B : Type} (p : B -> bool) (g : A -> B) l :
  filter p (map g l) = map g (filter (fun x => p (g x)) l).
Proof.
  induction l as [|x l IH]; simpl; [reflexivity|].
  destruct (p (g x)); simpl; now rewrite IH.
Qed.

Lemma dict_by_keys {V : Type} (d : dict V) (f : str -> V) :
  (forall k v, In (k, v) d -> v = f k) ->
  d = map (fun k => (k, f k)) (map fst d).
Proof.
  induction d as [|[k v] d IH]; intros H; simpl; [reflexivity|].
  rewrite <- IH by (intros; apply H; now right).
  now rewrite <- (H k v) by now left.
Qed.

Section DuplicateOrder.
Context {U : UCD}.

(** The groups of [chinese_groups] come in the order in which their
    Chinese text first occurs in the corpus. *)
Lemma chinese_groups_order data :
  chinese_groups data =
  map (fun ch => (ch, values ch (sentence_keys data)))
      (first_occurrences (map fst (sentence_keys data))).
Proof.
  rewrite (dict_by_keys (chinese_groups data)
                        (fun ch => values ch (sentence_keys data))).
  - f_equal. rewrite chinese_groups_spec, keys_group_with. simpl.
    apply filter_true.
  - intros k v H. now apply chinese_groups_In in H.
Qed.

Lemma duplicate_groups_order data :
  duplicate_groups data =
  map (fun ch => (ch, values ch (sentence_keys data)))
      (filter (fun ch => counts_as_duplicate
                           data (ch, values ch (sentence_keys data)))
              (first_occurrences (map fst (sentence_keys data)))).
Proof.
  unfold duplicate_groups. rewrite (chinese_groups_order data).
  apply filter_map_comm.
Qed.

(** The report, for any number of counted groups. *)
Lemma duplicate_report_general data :
  exists dups rest,
    Forall2 (fun g b => print_duplicate data g = Some b)
            (firstn 10 (duplicate_groups data)) dups /\
    analyze data =
    Some (concat dups ++
          duplicates_summary (length (duplicate_groups data)) :: rest) /\
    Forall (fun l => is_duplicate_line l = false) rest.
Proof.
  destruct (analyze_spec data) as (dups & tones & Hd & Ht & Ha).
  exists dups. eexists. split; [exact Hd|]. split; [exact Ha|].
  now apply (@tone_part_lines U data).
Qed.
End DuplicateOrder.

(** ** The tone part, explicitly *)

Lemma map_m_map {A B : Type} (f : A -> option B) (g : A -> B) xs :
  (forall x, In x xs -> f x = Some (g x)) -> map_m f xs = Some (map g xs).
Proof.
  induction xs as [|x xs IH]; intros H; simpl; [reflexivity|].
  rewrite (H x) by now left. simpl. rewrite IH by (intros; apply H; now right).
  reflexivity.
Qed.

Lemma Forall2_map_r {A B : Type} (R : A -> B -> Prop) (g : A -> B) l :
  (forall x, In x l -> R x (g x)) -> Forall2 R l (map g l).
Proof.
  induction l as [|x l IH]; intros H; simpl; constructor.
  - apply H. now left.
  - apply IH. intros; apply H; now right.
Qed.

Section TonePart.
Context {U : UCD}.

Lemma variant_line_explicit data ch pfm fp :
  In (ch, pfm) (word_map data) -> In fp (map fst pfm) ->
  variant_line data ch pfm fp = Some (variant_of data ch fp).
Proof.
  intros Hwm Hfp.
  destruct (variant_line_spec data ch pfm fp Hwm Hfp)
    as (i0 & c0 & rest & e0 & Hocc & Hn & _ & Hv).
  rewrite Hv. unfold variant_of. rewrite Hocc, Hn. reflexivity.
Qed.

Lemma print_inconsistent_explicit data g :
  In g (inconsistent_groups data) ->
  print_inconsistent data g = Some (block_of data g).
Proof.
  destruct g as [[ch pfm] fps]. intros H.
  apply inconsistent_group_keys in H as [Hwm Hk].
  unfold print_inconsistent, block_of.
  rewrite (@map_m_map _ _ (variant_line data ch pfm) (variant_of data ch)).
  - reflexivity.
  - intros fp Hfp. rewrite Forall_forall in Hk.
    apply variant_line_explicit; auto.
Qed.

Lemma report_tones_explicit data :
  report_tones data (word_map data) = Some (tone_part data).
Proof.
  rewrite report_tones_blocks
    with (blocks := map (block_of data) (inconsistent_groups data)).
  - unfold tone_part. destruct (inconsistent_groups data); reflexivity.
  - apply Forall2_map_r. intros g Hg. now apply print_inconsistent_explicit.
Qed.

Lemma analyze_explicit data :
  exists dups,
    Forall2 (fun g b => print_duplicate data g = Some b)
            (firstn 10 (duplicate_groups data)) dups /\
    analyze data =
    Some (concat dups ++
          duplicates_summary (length (duplicate_groups data)) ::
          tone_part data).
Proof.
  destruct (report_duplicates_spec data) as (dups & Hd & Hrd).
  exists dups. split; [assumption|].
  pose proof (report_tones_explicit data) as Hrt.
  unfold analyze. unfold chinese_groups in Hrd. unfold word_map in Hrt.
  destruct (scan data) as [groups wm]. simpl in Hrd, Hrt.
  rewrite Hrd, Hrt. simpl. now rewrite <- app_assoc.
Qed.
End TonePart.

(** ** Which Chinese texts are reported *)

Lemma NoDup_two_distinct {A : Type} (l : list A) :
  NoDup l -> 1 < length l -> exists x y, In x l /\ In y l /\ x <> y.
Proof.
  intros Hnd Hlen. destruct l as [|x [|y l]]; simpl in Hlen; try lia.
  exists x, y. repeat split; simpl; auto.
  inversion Hnd as [|? ? Hni _]; subst. intros ->. apply Hni. now left.
Qed.

Section ReportedTexts.
Context {U : UCD}.

Lemma In_tone_part_ChineseOf data ch :
  In (ChineseOf ch) (tone_part data) <->
  exists pfm fps, In (ch, pfm, fps) (inconsistent_groups data).
Proof.
  unfold tone_part. simpl. rewrite in_app_iff, in_concat. split.
  - intros [H|[(b & Hb & Hin)|H]]; [discriminate| |].
    + apply in_map_iff in Hb as ([[ch' pfm] fps] & <- & Hg).
      simpl in Hin. destruct Hin as [Heq|Hin].
      * inversion Heq; subst. eauto.
      * apply in_map_iff in Hin as (fp & Hfp & _).
        unfold variant_of in Hfp.
        destruct (key_occurrences data ch' fp) as [|[i0 c0] r]; discriminate.
    + destruct (inconsistent_groups data); simpl in H; [|contradiction].
      destruct H as [H|[]]. discriminate.
  - intros (pfm & fps & Hg). right. left.
    exists (block_of data (ch, pfm, fps)). split.
    + now apply in_map.
    + simpl. now left.
Qed.

Lemma In_analyze_ChineseOf data out ch :
  analyze data = Some out ->
  (In (ChineseOf ch) out <-> In (ChineseOf ch) (tone_part data)).
Proof.
  destruct (analyze_explicit data) as (dups & Hd & Ha). rewrite Ha.
  intros H. injection H as <-. rewrite in_app_iff. simpl. split.
  - intros [H|[H|H]]; [| |assumption].
    + exfalso. apply in_concat in H as (b & Hb & Hin).
      assert (HF : Forall (Forall (fun l => is_duplicate_line l = true)) dups).
      { eapply Forall2_Forall_r; [exact Hd|]. intros g b'.
        apply print_duplicate_lines. }
      rewrite Forall_forall in HF. specialize (HF b Hb).
      rewrite Forall_forall in HF. specialize (HF _ Hin). discriminate.
    + exfalso. unfold duplicates_summary in H.
      destruct (10 <? _); [discriminate|]. destruct (_ =? 0); discriminate.
  - auto.
Qed.

Lemma word_map_unique data ch pfm pfm' :
  In (ch, pfm) (word_map data) -> In (ch, pfm') (word_map data) -> pfm = pfm'.
Proof.
  intros H H'.
  assert (Hnd : NoDup (map fst (word_map data))).
  { rewrite word_map_spec. apply NoDup_group_with. constructor. }
  apply (In_lookup _ _ _ Hnd) in H, H'. congruence.
Qed.

(** The full-letters keys recorded for a Chinese text. *)
Lemma word_map_keys data ch k :
  (exists pfm, In (ch, pfm) (word_map data) /\ In k (map fst pfm)) <->
  has_letter ch = true /\ k <> [] /\
  exists i c, In (i, c) (occurrences data) /\ chunk_chinese c = ch /\
              normalize_pinyin_full (chunk_pinyin c) = k.
Proof.
  split.
  - intros (pfm & Hwm & Hk).
    apply word_map_In in Hwm as (Hch & _ & Hpfm).
    apply in_map_iff in Hk as ([k' indices] & Heq & Hin). simpl in Heq. subst k'.
    apply Hpfm in Hin as (Hne & Hk & ->).
    repeat split; try assumption.
    destruct (key_occurrences data ch k) as [|[i c] r] eqn:E;
      [simpl in Hne; congruence|].
    assert (Hin : In (i, c) (key_occurrences data ch k)) by (rewrite E; now left).
    apply filter_In in Hin as [Hin Hm]. simpl in Hm.
    rewrite (@chunk_matches_recorded U ch k c Hch Hk) in Hm.
    apply andb_true_iff in Hm as [Hm Hfp].
    apply andb_true_iff in Hm as [_ Hc].
    apply str_eqb_eq in Hfp, Hc. eauto.
  - intros (Hch & Hk & i & c & Hin & Hc & Hfp).
    assert (Hr : recorded c = true).
    { unfold recorded. rewrite Hc, Hfp, Hch. simpl. now apply truthy_true. }
    assert (Ht : In (ch, (k, i)) (word_triples_from 0 data)).
    { apply In_word_triples. exists c. auto. }
    set (pfm := group_with snoc [] (values ch (word_triples_from 0 data)) []).
    assert (Hwm : In (ch, pfm) (word_map data)).
    { rewrite word_map_spec. apply In_group_with. split; [|reflexivity].
      apply values_In in Ht. intros E. rewrite E in Ht. contradiction. }
    exists pfm. split; [assumption|].
    pose proof (word_map_In _ _ _ Hwm) as (_ & _ & Hpfm).
    apply in_map_iff. exists (k, map fst (key_occurrences data ch k)).
    split; [reflexivity|]. apply Hpfm. repeat split; try assumption.
    assert (Hm : In (i, c) (key_occurrences data ch k)).
    { apply filter_In. split; [assumption|]. simpl.
      rewrite (@chunk_matches_recorded U ch k c Hch Hk), Hr, Hc, Hfp.
      now rewrite !str_eqb_refl. }
    intros E. apply (in_map fst) in Hm. rewrite E in Hm. contradiction.
Qed.

(** A Chinese text has a reported group exactly when two of its
    recorded keys are different and have the same stripped key. *)
Lemma inconsistent_iff_two_keys data ch :
  (exists pfm fps, In (ch, pfm, fps) (inconsistent_groups data)) <->
  exists pfm k1 k2,
    In (ch, pfm) (word_map data) /\
    In k1 (map fst pfm) /\ In k2 (map fst pfm) /\ k1 <> k2 /\
    normalize_pinyin_stripped k1 = normalize_pinyin_stripped k2.
Proof.
  split.
  - intros (pfm & fps & H).
    apply inconsistent_groups_In in H as (Hwm & _ & s & fps0 & Hs & Hl & _).
    pose proof (word_map_In _ _ _ Hwm) as (_ & Hnd & _).
    apply stripped_map_In in Hs as [_ Hf].
    assert (Hnd0 : NoDup fps0) by (subst fps0; now apply NoDup_filter).
    destruct (NoDup_two_distinct Hnd0 Hl) as (k1 & k2 & H1 & H2 & Hne).
    subst fps0. apply filter_In in H1 as [H1 E1], H2 as [H2 E2].
    apply str_eqb_eq in E1, E2.
    exists pfm, k1, k2. repeat split; try assumption. congruence.
  - intros (pfm & k1 & k2 & Hwm & H1 & H2 & Hne & Hs).
    set (s := normalize_pinyin_stripped k1).
    set (fps0 := filter (fun k => str_eqb (normalize_pinyin_stripped k) s)
                        (map fst pfm)).
    assert (Hin1 : In k1 fps0).
    { apply filter_In. split; [assumption | apply str_eqb_refl]. }
    assert (Hin2 : In k2 fps0).
    { apply filter_In. split; [assumption|]. apply str_eqb_eq. now symmetry. }
    exists pfm, (sorted fps0). apply inconsistent_groups_In.
    split; [assumption|]. split.
    + rewrite <- (length_map fst). now apply (@two_distinct_length _ k1 k2).
    + exists s, fps0. repeat split.
      * apply stripped_map_In. split; [|reflexivity].
        intros E. rewrite E in Hin1. contradiction.
      * now apply (@two_distinct_length _ k1 k2).
Qed.

Lemma keys_strip_nonempty_spec data i c :
  keys_strip_nonempty data = true -> In (i, c) (occurrences data) ->
  normalize_pinyin_full (chunk_pinyin c) <> [] ->
  normalize_pinyin_stripped (normalize_pinyin_full (chunk_pinyin c)) <> [].
Proof.
  unfold keys_strip_nonempty. rewrite forallb_forall. intros H Hin Hne.
  specialize (H _ Hin). simpl in H. apply truthy_true in Hne.
  rewrite Hne in H. simpl in H. now apply truthy_true.
Qed.
End ReportedTexts.

Section ReportedIff.
Context {U : UCD}.

(** The Chinese texts of the tone report, when no non-empty full-letters
    key of the corpus has an empty stripped key. *)
Lemma tone_inconsistency_iff_keys (data : list entry) :
  (forall i c, In (i, c) (occurrences data) ->
     normalize_pinyin_full (chunk_pinyin c) <> [] ->
     normalize_pinyin_stripped (normalize_pinyin_full (chunk_pinyin c)) <> []) ->
  exists out,
    analyze data = Some out /\
    forall ch,
      In (ChineseOf ch) out <->
      has_letter ch = true /\
      exists p1 p2,
        chunk_occurs data ch p1 /\ chunk_occurs data ch p2 /\
        normalize_pinyin_full p1 <> normalize_pinyin_full p2 /\
        normalize_pinyin_stripped (normalize_pinyin_full p1) =
        normalize_pinyin_stripped (normalize_pinyin_full p2).
Proof.
  intros Hcorpus.
  destruct (analyze_explicit data) as (dups & _ & Ha).
  eexists. split; [exact Ha|]. intros ch.
  rewrite (@In_analyze_ChineseOf U data _ ch Ha), In_tone_part_ChineseOf,
    inconsistent_iff_two_keys.
  split.
  - intros (pfm & k1 & k2 & Hwm & H1 & H2 & Hne & Hs).
    destruct (proj1 (word_map_keys data ch k1)) as (Hch & _ & i1 & c1 & Ho1 & Hc1 & Hk1);
      [eauto|].
    destruct (proj1 (word_map_keys data ch k2)) as (_ & _ & i2 & c2 & Ho2 & Hc2 & Hk2);
      [eauto|].
    split; [assumption|].
    exists (chunk_pinyin c1), (chunk_pinyin c2).
    repeat split; try (red; eauto 6); congruence.
  - intros (Hch & p1 & p2 & (i1 & c1 & Ho1 & Hc1 & Hp1) & (i2 & c2 & Ho2 & Hc2 & Hp2)
            & Hne & Hs).
    subst p1 p2.
    assert (Hk1 : normalize_pinyin_full (chunk_pinyin c1) <> []).
    { intros E. rewrite E in Hs, Hne.
      rewrite normalize_pinyin_stripped_nil in Hs. symmetry in Hs.
      revert Hs. apply (Hcorpus i2 c2); auto. }
    assert (Hk2 : normalize_pinyin_full (chunk_pinyin c2) <> []).
    { intros E. rewrite E in Hs, Hne.
      rewrite normalize_pinyin_stripped_nil in Hs.
      revert Hs. apply (Hcorpus i1 c1); auto. }
    destruct (proj2 (word_map_keys data ch
                       (normalize_pinyin_full (chunk_pinyin c1))))
      as (pfm & Hwm & Hin1);
      [split; [exact Hch|]; split; [exact Hk1|]; eauto|].
    destruct (proj2 (word_map_keys data ch
                       (normalize_pinyin_full (chunk_pinyin c2))))
      as (pfm' & Hwm' & Hin2);
      [split; [exact Hch|]; split; [exact Hk2|]; eauto|].
    rewrite <- (@word_map_unique U data ch pfm pfm' Hwm Hwm') in Hin2.
    exists pfm, (normalize_pinyin_full (chunk_pinyin c1)),
      (normalize_pinyin_full (chunk_pinyin c2)).
    repeat split; assumption.
Qed.
End ReportedIff.

(** C2: a Chinese chunk text appears in the tone-inconsistency report
    exactly when it contains a letter and two of its chunk occurrences
    have different full-letters pinyin keys with the same stripped key.
    The hypothesis holds of every corpus under the Unicode tables: a
    non-empty full-letters key never has an empty stripped key, so an
    occurrence without letters in its pinyin cannot be one of the two. *)
Theorem tone_inconsistency_iff (U : UCD) (data : list entry) :
  keys_strip_nonempty data = true ->
  exists out,
    analyze data = Some out /\
    forall ch,
      In (ChineseOf ch) out <->
      has_letter ch = true /\
      exists p1 p2,
        chunk_occurs data ch p1 /\ chunk_occurs data ch p2 /\
        normalize_pinyin_full p1 <> normalize_pinyin_full p2 /\
        normalize_pinyin_stripped (normalize_pinyin_full p1) =
        normalize_pinyin_stripped (normalize_pinyin_full p2).
Proof.
  intros Hcorpus. apply tone_inconsistency_iff_keys.
  intros i c Hin Hne.
  exact (keys_strip_nonempty_spec data i c Hcorpus Hin Hne).
Qed.

Lemma tone_inconsistency_iff_witness :
  @keys_strip_nonempty fragment_ucd nage_corpus = true /\
  exists out,
    @analyze fragment_ucd nage_corpus = Some out /\
    forall ch,
      In (ChineseOf ch) out <->
      @has_letter fragment_ucd ch = true /\
      exists p1 p2,
        chunk_occurs nage_corpus ch p1 /\ chunk_occurs nage_corpus ch p2 /\
        @normalize_pinyin_full fragment_ucd p1 <>
        @normalize_pinyin_full fragment_ucd p2 /\
        @normalize_pinyin_stripped fragment_ucd
           (@normalize_pinyin_full fragment_ucd p1) =
        @normalize_pinyin_stripped fragment_ucd
           (@normalize_pinyin_full fragment_ucd p2).
Proof.
  split; [vm_compute; reflexivity|].
  apply (@tone_inconsistency_iff fragment_ucd nage_corpus).
  vm_compute. reflexivity.
Defined.

(** ** The lines of a reported group *)

(** C3, as the code has it: a reported group lists the Chinese text and
    then one line for each distinct full-letters pinyin key of the group,
    in sorted order of the keys: the raw pinyin of the first chunk
    occurrence with that text and key, the number of chunk occurrences
    with that text and key, and the english of the sentence of the first
    one.  Raw spellings with the same full-letters key share one line. *)
Theorem tone_group_lines (U : UCD) (data : list entry) :
  exists dups,
    analyze data =
    Some (concat dups ++
          duplicates_summary (length (duplicate_groups data)) ::
          InconsistentTones ::
          concat (map (block_of data) (inconsistent_groups data)) ++
          match inconsistent_groups data with [] => [NoneFound] | _ => [] end) /\
    forall ch pfm fps,
      In (ch, pfm, fps) (inconsistent_groups data) ->
      block_of data (ch, pfm, fps) = ChineseOf ch :: map (variant_of data ch) fps /\
      1 < length fps /\ NoDup fps /\ StronglySorted str_le fps /\
      (exists s, forall fp,
          In fp fps <->
          (fp <> [] /\
           exists i c, In (i, c) (occurrences data) /\ chunk_chinese c = ch /\
                       normalize_pinyin_full (chunk_pinyin c) = fp) /\
          normalize_pinyin_stripped fp = s) /\
      forall fp, In fp fps ->
        exists i0 c0 rest e0,
          key_occurrences data ch fp = (i0, c0) :: rest /\
          nth_error data i0 = Some e0 /\
          chinese c0 = Some ch /\
          normalize_pinyin_full (chunk_pinyin c0) = fp /\
          variant_of data ch fp =
          Variant (chunk_pinyin c0) (S (length rest)) (english e0).
Proof.
  destruct (analyze_explicit data) as (dups & _ & Ha).
  exists dups. split; [exact Ha|].
  intros ch pfm fps Hg.
  pose proof (inconsistent_group_keys _ _ _ _ Hg) as [_ Hkeys].
  apply inconsistent_groups_In in Hg as (Hwm & _ & s & fps0 & Hs & Hl & ->).
  pose proof (word_map_In _ _ _ Hwm) as (Hch & Hnd & _).
  apply stripped_map_In in Hs as [_ Hf].
  split; [reflexivity|]. split; [unfold sorted; now rewrite length_sorted_by|].
  split.
  { eapply Permutation_NoDup.
    - symmetry. apply Permutation_sorted_by.
    - subst fps0. now apply NoDup_filter. }
  split; [apply (StronglySorted_sorted_by (fun k : str => k))|].
  split.
  { exists s. intros fp. unfold sorted. rewrite In_sorted_by. subst fps0.
    rewrite filter_In, str_eqb_eq. split.
    - intros [Hin Hst]. split; [|assumption].
      destruct (proj1 (word_map_keys data ch fp)) as (_ & Hne & Hocc); eauto.
    - intros [[Hne Hocc] Hst]. split; [|assumption].
      destruct (proj2 (word_map_keys data ch fp)) as (pfm' & Hwm' & Hin); [auto|].
      now rewrite (@word_map_unique U data ch pfm pfm' Hwm Hwm'). }
  intros fp Hfp. rewrite Forall_forall in Hkeys. specialize (Hkeys fp Hfp).
  destruct (variant_line_spec data ch pfm fp Hwm Hkeys)
    as (i0 & c0 & rest & e0 & Hocc & Hn & Hm & _).
  exists i0, c0, rest, e0.
  unfold chunk_matches in Hm. apply andb_true_iff in Hm as [Hc Hk].
  apply str_eqb_eq in Hk.
  destruct (chinese c0) as [ch'|] eqn:Ec; [|discriminate].
  apply str_eqb_eq in Hc. subst ch'.
  repeat split; try assumption.
  unfold variant_of. rewrite Hocc, Hn. reflexivity.
Qed.

(** C3 as worded fails: in [nage_corpus] the spelling [nà ge] occurs with
    a key of the reported group, and no line of the report shows it; it
    is counted in the line of [nàge]. *)
Lemma every_raw_variant_listed_fails :
  ~ @every_raw_variant_listed fragment_ucd nage_corpus.
Proof.
  intros H.
  pose (g := hd ([], [], []) (@inconsistent_groups fragment_ucd nage_corpus)).
  destruct (@analyze fragment_ucd nage_corpus) as [out|] eqn:Ea;
    [|vm_compute in Ea; discriminate].
  destruct (H out (fst (fst g)) (snd (fst g)) (snd g) (lit "nà ge") Ea)
    as [e He].
  - vm_compute. left. reflexivity.
  - exists 1, (ck "那个" "nà ge"). repeat split; vm_compute; auto.
  - vm_compute. auto.
  - vm_compute in Ea. injection Ea as <-. vm_compute in He.
    repeat (destruct He as [He|He]; [discriminate|]). exact He.
Qed.

(** ** Chunks that the tone analysis never sees *)

Section Prune.
Context {U : UCD}.

Lemma occurrences_prune data :
  forall n,
    occurrences_from n (prune data) =
    filter (fun ic => recorded (snd ic)) (occurrences_from n data).
Proof.
  induction data as [|e data IH]; intros n; [reflexivity|].
  unfold occurrences_from in *. simpl map.
  rewrite !enumerate_from_cons. simpl flat_map. rewrite filter_app, <- IH.
  f_equal. destruct (chunks e) as [cs|]; simpl; [|reflexivity].
  now rewrite filter_map_pair.
Qed.

Lemma word_triples_recorded occ :
  flat_map word_triple (filter (fun ic => recorded (snd ic)) occ) =
  flat_map word_triple occ.
Proof.
  induction occ as [|[i c] occ IH]; simpl; [reflexivity|].
  destruct (recorded c) eqn:E; simpl; rewrite IH; [reflexivity|].
  unfold word_triple. simpl. now rewrite E.
Qed.

Lemma word_map_prune data : word_map (prune data) = word_map data.
Proof.
  rewrite !word_map_spec. unfold word_triples_from.
  now rewrite occurrences_prune, word_triples_recorded.
Qed.

Lemma inconsistent_groups_prune data :
  inconsistent_groups (prune data) = inconsistent_groups data.
Proof. unfold inconsistent_groups. now rewrite word_map_prune. Qed.

Lemma key_occurrences_prune data ch fp :
  has_letter ch = true -> fp <> [] ->
  key_occurrences (prune data) ch fp = key_occurrences data ch fp.
Proof.
  intros Hch Hfp. unfold key_occurrences, occurrences.
  rewrite occurrences_prune, filter_filter. apply filter_ext.
  intros [i c]. simpl. rewrite (@chunk_matches_recorded U ch fp c Hch Hfp).
  destruct (recorded c); reflexivity.
Qed.

Lemma english_prune data i :
  (e0 <- nth_error (prune data) i ;; english e0) =
  (e0 <- nth_error data i ;; english e0).
Proof.
  unfold prune. rewrite nth_error_map.
  destruct (nth_error data i); reflexivity.
Qed.

Lemma variant_of_prune data ch fp :
  has_letter ch = true -> fp <> [] ->
  variant_of (prune data) ch fp = variant_of data ch fp.
Proof.
  intros Hch Hfp. unfold variant_of.
  rewrite key_occurrences_prune by assumption.
  destruct (key_occurrences data ch fp) as [|[i0 c0] r]; [reflexivity|].
  now rewrite english_prune.
Qed.

(** The tone part of the report is that of the pruned corpus. *)
Lemma tone_part_prune data : tone_part (prune data) = tone_part data.
Proof.
  unfold tone_part. rewrite inconsistent_groups_prune. do 3 f_equal.
  apply map_ext_in. intros [[ch pfm] fps] Hg. simpl. f_equal.
  pose proof (inconsistent_group_keys _ _ _ _ Hg) as [Hwm Hk].
  rewrite Forall_forall in Hk.
  apply map_ext_in. intros fp Hfp.
  destruct (proj1 (word_map_keys data ch fp)) as (Hch & Hne & _); [eauto|].
  now apply variant_of_prune.
Qed.

Lemma prune_replace l1 e e' l2 :
  prune_entry e = prune_entry e' ->
  prune (l1 ++ e :: l2) = prune (l1 ++ e' :: l2).
Proof. intros H. unfold prune. rewrite !map_app. simpl. now rewrite H. Qed.

Lemma tone_part_replace l1 e e' l2 :
  prune_entry e = prune_entry e' ->
  tone_part (l1 ++ e :: l2) = tone_part (l1 ++ e' :: l2).
Proof.
  intros H. rewrite <- (tone_part_prune (l1 ++ e :: l2)),
    <- (tone_part_prune (l1 ++ e' :: l2)).
  f_equal. now apply prune_replace.
Qed.

Lemma prune_entry_skip e cs1 c cs2 :
  chunks e = Some (cs1 ++ c :: cs2) -> recorded c = false ->
  prune_entry e = prune_entry (with_chunks e (cs1 ++ cs2)).
Proof.
  intros He Hc. unfold prune_entry, with_chunks. simpl. rewrite He. simpl.
  rewrite !filter_app. simpl. now rewrite Hc.
Qed.

Lemma no_letter_full p : has_letter p = false -> normalize_pinyin_full p = [].
Proof.
  intros H. unfold normalize_pinyin_full.
  replace (filter is_letter p) with (@nil char); [reflexivity|].
  symmetry. induction p as [|c p IH]; [reflexivity|].
  simpl in *. apply orb_false_iff in H as [Hc Hp]. rewrite Hc. auto.
Qed.

Lemma scan_chunk_skip i wm c : recorded c = false -> scan_chunk i wm c = wm.
Proof.
  unfold recorded, scan_chunk. intros H.
  destruct (has_letter (chunk_chinese c)); [|reflexivity]. simpl in *.
  now rewrite H.
Qed.
End Prune.

Section Skipped.
Context {U : UCD}.

Lemma tone_part_has_letter data ch :
  In (ChineseOf ch) (tone_part data) -> has_letter ch = true.
Proof.
  intros H. apply In_tone_part_ChineseOf in H as (pfm & fps & Hg).
  apply inconsistent_group_keys in Hg as [Hwm _].
  now apply word_map_In in Hwm.
Qed.

Lemma chunks_at_middle l1 e l2 :
  chunks_at (l1 ++ e :: l2) (length l1) = chunks e.
Proof.
  unfold chunks_at. rewrite nth_error_app2, Nat.sub_diag by lia. reflexivity.
Qed.

Lemma full_chinese_middle cs1 c cs2 :
  full_chinese (cs1 ++ c :: cs2) =
  full_chinese cs1 ++ chunk_chinese c ++ full_chinese cs2.
Proof. unfold full_chinese. rewrite map_app, concat_app. reflexivity. Qed.

Lemma record_in_its_group data i t :
  record_chinese data i = Some t ->
  exists indices, In (t, indices) (chinese_groups data) /\ In i indices.
Proof.
  intros H. exists (values t (sentence_keys data)).
  assert (Hin : In i (values t (sentence_keys data)))
    by (now apply values_In, In_sentence_keys).
  split; [|assumption]. apply chinese_groups_In. split; [|reflexivity].
  intros E. rewrite E in Hin. contradiction.
Qed.
End Skipped.

(** A chunk without the [chinese] field has the empty text, which has no
    letter. *)
Lemma missing_chinese_no_letter (U : UCD) (py : option str) :
  has_letter (chunk_chinese {| chinese := None; pinyin := py |}) = false.
Proof. reflexivity. Qed.

(** C5: a chunk whose Chinese text has no letter (an empty or missing
    text included) is never listed in the tone report, whatever its
    pinyin: the tone part of the report is the same with any other pinyin
    in the chunk and without the chunk; its Chinese text is still part of
    the concatenated text under which its sentence is grouped for the
    duplicate search. *)
Theorem punctuation_chunk_excluded (U : UCD) (l1 l2 : list entry) (e : entry)
        (cs1 cs2 : list chunk) (c : chunk) :
  chunks e = Some (cs1 ++ c :: cs2) ->
  has_letter (chunk_chinese c) = false ->
  (exists dups,
      analyze (l1 ++ e :: l2) =
      Some (concat dups ++
            duplicates_summary (length (duplicate_groups (l1 ++ e :: l2))) ::
            tone_part (l1 ++ e :: l2))) /\
  ~ In (ChineseOf (chunk_chinese c)) (tone_part (l1 ++ e :: l2)) /\
  (forall py,
      tone_part (l1 ++ with_chunks e
                         (cs1 ++ {| chinese := chinese c; pinyin := py |} :: cs2)
                    :: l2) =
      tone_part (l1 ++ e :: l2)) /\
  tone_part (l1 ++ with_chunks e (cs1 ++ cs2) :: l2) = tone_part (l1 ++ e :: l2) /\
  record_chinese (l1 ++ e :: l2) (length l1) =
  Some (full_chinese cs1 ++ chunk_chinese c ++ full_chinese cs2) /\
  exists indices,
    In (full_chinese cs1 ++ chunk_chinese c ++ full_chinese cs2, indices)
       (chinese_groups (l1 ++ e :: l2)) /\
    In (length l1) indices.
Proof.
  intros He Hc.
  assert (Hr : recorded c = false) by (unfold recorded; now rewrite Hc).
  assert (Hrec : record_chinese (l1 ++ e :: l2) (length l1) =
                 Some (full_chinese cs1 ++ chunk_chinese c ++ full_chinese cs2)).
  { unfold record_chinese. rewrite chunks_at_middle, He. simpl.
    now rewrite full_chinese_middle. }
  split.
  { destruct (analyze_explicit (l1 ++ e :: l2)) as (dups & _ & Ha). eauto. }
  split.
  { intros H. apply tone_part_has_letter in H. congruence. }
  split.
  { intros py. symmetry. apply tone_part_replace.
    rewrite (prune_entry_skip e cs1 c cs2 He Hr).
    assert (Hr' : recorded {| chinese := chinese c; pinyin := py |} = false).
    { unfold recorded. unfold chunk_chinese in *. simpl. now rewrite Hc. }
    symmetry.
    exact (prune_entry_skip
             (with_chunks e (cs1 ++ {| chinese := chinese c; pinyin := py |} :: cs2))
             cs1 {| chinese := chinese c; pinyin := py |} cs2 eq_refl Hr'). }
  split.
  { symmetry. apply tone_part_replace. now apply prune_entry_skip with (c := c). }
  split; [assumption|]. now apply record_in_its_group.
Qed.

Lemma punctuation_chunk_excluded_witness :
  let l1 := [en "that one" [ck "那个" "nàge"]] in
  let e := en "that one there" [ck "那个" "nà ge"; ck "。" "."] in
  let l2 := [en "that thing" [ck "那个" "nàgè"]] in
  ~ In (ChineseOf (lit "。")) (@tone_part fragment_ucd (l1 ++ e :: l2)) /\
  @tone_part fragment_ucd (l1 ++ with_chunks e [ck "那个" "nà ge"] :: l2) =
  @tone_part fragment_ucd (l1 ++ e :: l2).
Proof.
  intros l1 e l2.
  destruct (@punctuation_chunk_excluded fragment_ucd l1 l2 e
              [ck "那个" "nà ge"] [] (ck "。" "."))
    as (_ & H1 & _ & H2 & _).
  - reflexivity.
  - vm_compute. reflexivity.
  - split; [exact H1 | exact H2].
Defined.

(** C9: a chunk whose pinyin has no letter has the empty full-letters
    key, is skipped by the first loop even when its Chinese text has
    letters, and the tone part of the report is the same without it. *)
Theorem letterless_pinyin_excluded (U : UCD) (l1 l2 : list entry) (e : entry)
        (cs1 cs2 : list chunk) (c : chunk) :
  chunks e = Some (cs1 ++ c :: cs2) ->
  has_letter (chunk_pinyin c) = false ->
  normalize_pinyin_full (chunk_pinyin c) = [] /\
  (forall i wm, scan_chunk i wm c = wm) /\
  (exists dups,
      analyze (l1 ++ e :: l2) =
      Some (concat dups ++
            duplicates_summary (length (duplicate_groups (l1 ++ e :: l2))) ::
            tone_part (l1 ++ e :: l2))) /\
  tone_part (l1 ++ with_chunks e (cs1 ++ cs2) :: l2) = tone_part (l1 ++ e :: l2).
Proof.
  intros He Hc.
  pose proof (no_letter_full _ Hc) as Hfull.
  assert (Hr : recorded c = false).
  { unfold recorded. rewrite Hfull. apply andb_false_r. }
  split; [assumption|]. split.
  { intros i wm. now apply scan_chunk_skip. }
  split.
  { destruct (analyze_explicit (l1 ++ e :: l2)) as (dups & _ & Ha). eauto. }
  symmetry. apply tone_part_replace. now apply prune_entry_skip with (c := c).
Qed.

Lemma letterless_pinyin_excluded_witness :
  let e := en "good" [ck "好" "hǎo"; ck "好" "3"] in
  @normalize_pinyin_full fragment_ucd (lit "3") = [] /\
  @tone_part fragment_ucd [with_chunks e [ck "好" "hǎo"]] =
  @tone_part fragment_ucd [e].
Proof.
  intros e.
  destruct (@letterless_pinyin_excluded fragment_ucd [] [] e
              [ck "好" "hǎo"] [] (ck "好" "3"))
    as (H1 & _ & _ & H2).
  - reflexivity.
  - vm_compute. reflexivity.
  - split; [exact H1 | exact H2].
Defined.

(** ** Renaming sentence indices *)

Lemma map_m_compose {A B C : Type} (f : B -> option C) (r : A -> B) xs :
  map_m f (map r xs) = map_m (fun x => f (r x)) xs.
Proof.
  induction xs as [|x xs IH]; simpl; [reflexivity|]. now rewrite IH.
Qed.

Lemma map_m_ext {A B : Type} (f g : A -> option B) xs :
  (forall x, f x = g x) -> map_m f xs = map_m g xs.
Proof.
  intros H. induction xs as [|x xs IH]; simpl; [reflexivity|].
  now rewrite H, IH.
Qed.

Lemma for_each_ext {A S : Type} (f g : S -> A -> option S) xs s :
  (forall s x, f s x = g s x) -> for_each xs f s = for_each xs g s.
Proof.
  intros H. revert s. induction xs as [|x xs IH]; intros s; simpl; [reflexivity|].
  rewrite H. destruct (g s x); simpl; auto.
Qed.

Section MapValues.
Context {V W : Type} (g : V -> W).

Lemma keys_map_values (d : dict V) : map fst (map_values g d) = map fst d.
Proof. unfold map_values. rewrite map_map. reflexivity. Qed.

Lemma length_map_values (d : dict V) : length (map_values g d) = length d.
Proof. apply length_map. Qed.

Lemma dd_update_map_values k dflt dflt' (f : V -> V) (f' : W -> W) (d : dict V) :
  g dflt = dflt' -> (forall v, f' (g v) = g (f v)) ->
  dd_update k dflt' f' (map_values g d) = map_values g (dd_update k dflt f d).
Proof.
  intros Hd Hf. induction d as [|[k0 v] d IH]; simpl.
  - now rewrite <- Hd, Hf.
  - destruct (str_eq_dec k k0); simpl; [now rewrite Hf|]. now rewrite IH.
Qed.

Lemma dd_get_map_values k dflt dflt' (d : dict V) :
  g dflt = dflt' -> dd_get k dflt' (map_values g d) = g (dd_get k dflt d).
Proof.
  intros Hd. induction d as [|[k0 v] d IH]; simpl; [now symmetry|].
  destruct (str_eq_dec k k0); auto.
Qed.

Lemma sorted_items_map_values (d : dict V) :
  sorted_items (map_values g d) = map_values g (sorted_items d).
Proof.
  unfold sorted_items, sorted_by.
  induction d as [|[k v] d IH]; simpl; [reflexivity|]. rewrite IH.
  generalize (fold_right (insert_by fst) [] d). intros l.
  induction l as [|[k0 v0] l IHl]; simpl; [reflexivity|].
  destruct (str_ltb k0 k); simpl; [now rewrite IHl | reflexivity].
Qed.

Lemma group_with_map_values {X Y : Type} (fx : X -> Y)
      (step : V -> X -> V) (step' : W -> Y -> W) dflt dflt' kxs (d : dict V) :
  g dflt = dflt' -> (forall v x, step' (g v) (fx x) = g (step v x)) ->
  group_with step' dflt' (map (fun kx => (fst kx, fx (snd kx))) kxs)
             (map_values g d) =
  map_values g (group_with step dflt kxs d).
Proof.
  intros Hd Hs. revert d. induction kxs as [|[k x] kxs IH]; intros d;
    [reflexivity|].
  simpl map.
  change (group_with step' dflt' ((k, fx x) :: ?l) ?d0)
    with (group_with step' dflt' l
            (dd_update k dflt' (fun v => step' v (fx x)) d0)).
  change (group_with step dflt ((k, x) :: kxs) d)
    with (group_with step dflt kxs (dd_update k dflt (fun v => step v x) d)).
  rewrite <- IH. f_equal. apply dd_update_map_values; auto.
Qed.
End MapValues.

(** The two report loops read the corpus only through [data[idx]]: when
    the indices stored in the groups are renamed along with the corpus,
    the report is the same. *)
Section Renaming.
Context {U : UCD} (data data' : list entry) (r : nat -> nat).
Hypothesis Hr : forall i, nth_error data (r i) = nth_error data' i.

Lemma chunks_at_rename i : chunks_at data (r i) = chunks_at data' i.
Proof. unfold chunks_at. now rewrite Hr. Qed.

Lemma sentence_pinyin_rename i :
  sentence_pinyin data (r i) = sentence_pinyin data' i.
Proof. unfold sentence_pinyin. now rewrite chunks_at_rename. Qed.

Lemma pinyin_map_rename indices pm :
  for_each (map r indices)
    (fun pm idx =>
       full_py <- sentence_pinyin data idx ;;
       Some (dd_append (normalize_pinyin_full full_py) idx pm))
    (rename_groups r pm) =
  option_map (rename_groups r)
    (for_each indices
       (fun pm idx =>
          full_py <- sentence_pinyin data' idx ;;
          Some (dd_append (normalize_pinyin_full full_py) idx pm))
       pm).
Proof.
  revert pm. induction indices as [|i indices IH]; intros pm; [reflexivity|].
  simpl map. rewrite !for_each_cons, sentence_pinyin_rename.
  destruct (sentence_pinyin data' i) as [py|]; [|reflexivity]. simpl.
  rewrite <- IH. f_equal. unfold dd_append, rename_groups.
  apply dd_update_map_values; [reflexivity|].
  intros v. now rewrite map_app.
Qed.

Lemma is_duplicate_group_rename indices :
  is_duplicate_group data (map r indices) = is_duplicate_group data' indices.
Proof.
  unfold is_duplicate_group, pinyin_map. rewrite length_map.
  destruct (1 <? length indices); [|reflexivity].
  change (@nil (str * list nat)) with (rename_groups r []) at 1.
  rewrite pinyin_map_rename. fold (pinyin_map data' indices).
  destruct (pinyin_map data' indices) as [pm|]; simpl; [|reflexivity].
  unfold rename_groups. now rewrite length_map_values.
Qed.

Lemma print_duplicate_rename ch indices :
  print_duplicate data (ch, map r indices) = print_duplicate data' (ch, indices).
Proof.
  unfold print_duplicate. rewrite map_m_compose.
  rewrite (map_m_ext _ (fun idx => e <- nth_error data' idx ;;
                                   Some (get (english e) QUESTION_MARKS)))
    by (intros; now rewrite Hr).
  destruct indices as [|i0 indices]; [reflexivity|].
  simpl map. simpl nth_error. cbn [bind].
  now rewrite sentence_pinyin_rename.
Qed.

Lemma duplicates_step_rename st ch indices :
  duplicates_step data st (ch, map r indices) =
  duplicates_step data' st (ch, indices).
Proof.
  unfold duplicates_step. destruct st as [n out]. simpl snd.
  now rewrite is_duplicate_group_rename, print_duplicate_rename.
Qed.

Lemma report_duplicates_rename groups :
  report_duplicates data (rename_groups r groups) =
  report_duplicates data' groups.
Proof.
  unfold report_duplicates. f_equal.
  generalize (0, @nil line). induction groups as [|[ch indices] groups IH];
    intros st; [reflexivity|].
  simpl rename_groups. rewrite !for_each_cons. simpl snd. simpl fst.
  rewrite duplicates_step_rename.
  destruct (duplicates_step data' st (ch, indices)); simpl; auto.
Qed.

Lemma find_sample_rename ch fp indices sample_raw :
  find_sample data ch fp (map r indices) sample_raw =
  find_sample data' ch fp indices sample_raw.
Proof.
  revert sample_raw. induction indices as [|i indices IH]; intros sample_raw;
    [reflexivity|].
  simpl. rewrite chunks_at_rename.
  destruct (chunks_at data' i) as [cs|]; simpl; [|reflexivity].
  destruct (truthy _); [reflexivity | apply IH].
Qed.

Lemma variant_line_rename ch pfm fp :
  variant_line data ch (rename_groups r pfm) fp = variant_line data' ch pfm fp.
Proof.
  unfold variant_line, rename_groups.
  rewrite (@dd_get_map_values _ _ (map r) fp [] [] pfm eq_refl).
  rewrite find_sample_rename, length_map.
  destruct (find_sample data' ch fp (dd_get fp [] pfm) []); [|reflexivity].
  cbn [bind]. destruct (dd_get fp [] pfm) as [|i0 indices]; [reflexivity|].
  simpl map. simpl nth_error. cbn [bind]. now rewrite Hr.
Qed.

Lemma tones_group_rename ch pfm st item :
  tones_group data ch (rename_groups r pfm) st item =
  tones_group data' ch pfm st item.
Proof.
  unfold tones_group. destruct st as [n out], item as [s fps].
  destruct (1 <? length fps); [|reflexivity].
  rewrite (map_m_ext _ (variant_line data' ch pfm))
    by (intros; apply variant_line_rename).
  reflexivity.
Qed.

Lemma stripped_map_rename pfm :
  stripped_map (rename_groups r pfm) = stripped_map pfm.
Proof. unfold stripped_map, rename_groups. now rewrite keys_map_values. Qed.

Lemma tones_word_rename st ch pfm :
  tones_word data st (ch, rename_groups r pfm) = tones_word data' st (ch, pfm).
Proof.
  unfold tones_word. unfold rename_groups at 1. rewrite length_map_values.
  destruct (1 <? length pfm); [|reflexivity].
  rewrite stripped_map_rename. apply for_each_ext.
  intros. apply tones_group_rename.
Qed.

Lemma report_tones_rename wm :
  report_tones data (rename_word_map r wm) = report_tones data' wm.
Proof.
  unfold report_tones, rename_word_map. rewrite sorted_items_map_values.
  f_equal. generalize (0, [InconsistentTones]).
  induction (sorted_items wm) as [|[ch pfm] items IH]; intros st;
    [reflexivity|].
  simpl map_values. rewrite !for_each_cons. simpl fst. simpl snd.
  rewrite tones_word_rename.
  destruct (tones_word data' st (ch, pfm)); simpl; auto.
Qed.
End Renaming.

(** ** A record without chunks *)

Section Indexed.
Context {T : Type} (f : entry -> list T).

Lemma indexed_cons n e data :
  indexed f n (e :: data) = map (pair n) (f e) ++ indexed f (S n) data.
Proof. reflexivity. Qed.

Lemma indexed_succ data :
  forall n m, m <= n ->
    indexed f (S n) data =
    map (fun it => (shift m (fst it), snd it)) (indexed f n data).
Proof.
  induction data as [|e data IH]; intros n m Hle; [reflexivity|].
  rewrite !indexed_cons, map_app, map_map. simpl.
  rewrite (IH (S n) m) by lia. f_equal.
  apply map_ext. intros t. unfold shift.
  destruct (Nat.ltb_spec n m); [lia | reflexivity].
Qed.

Lemma indexed_insert l1 e l2 :
  f e = [] ->
  forall n,
    indexed f n (l1 ++ e :: l2) =
    map (fun it => (shift (n + length l1) (fst it), snd it))
        (indexed f n (l1 ++ l2)).
Proof.
  intros He. induction l1 as [|x l1 IH]; intros n.
  - simpl app. rewrite indexed_cons, He. simpl.
    apply indexed_succ. lia.
  - simpl app. rewrite !indexed_cons, map_app, map_map, IH. simpl.
    f_equal.
    + apply map_ext. intros t. unfold shift.
      destruct (Nat.ltb_spec n (n + S (length l1))); [reflexivity | lia].
    + apply map_ext. intros t. f_equal. f_equal. lia.
Qed.
End Indexed.

Lemma nth_error_insert {A : Type} (l1 l2 : list A) (x : A) i :
  nth_error (l1 ++ x :: l2) (shift (length l1) i) = nth_error (l1 ++ l2) i.
Proof.
  unfold shift. destruct (Nat.ltb_spec i (length l1)).
  - now rewrite !nth_error_app1 by assumption.
  - rewrite !nth_error_app2 by lia.
    replace (S i - length l1) with (S (i - length l1)) by lia. reflexivity.
Qed.

Section Skipping.
Context {U : UCD}.

Lemma sentence_keys_indexed data n :
  sentence_keys_from n data =
  map (fun it => (snd it, fst it)) (indexed key_items n data).
Proof.
  unfold sentence_keys_from, indexed.
  induction (enumerate_from n data) as [|[i e] l IH]; [reflexivity|].
  simpl. rewrite map_app, <- IH. f_equal.
  unfold key_items. destruct (chunks e); reflexivity.
Qed.

Lemma word_triples_indexed data n :
  word_triples_from n data =
  map (fun it => (fst (snd it), (snd (snd it), fst it)))
      (indexed word_items n data).
Proof.
  unfold word_triples_from, occurrences_from, indexed.
  induction (enumerate_from n data) as [|[i e] l IH]; [reflexivity|].
  simpl. rewrite flat_map_app, map_app, <- IH. f_equal.
  unfold word_items. destruct (chunks e) as [cs|]; [|reflexivity].
  induction cs as [|c cs IHc]; [reflexivity|].
  simpl. rewrite map_app, map_app, <- IHc. f_equal.
  unfold word_triple. simpl. destruct (recorded c); reflexivity.
Qed.

Lemma chinese_groups_insert l1 e l2 :
  chunks e = None ->
  chinese_groups (l1 ++ e :: l2) =
  rename_groups (shift (length l1)) (chinese_groups (l1 ++ l2)).
Proof.
  intros He. rewrite !chinese_groups_spec. unfold sentence_keys.
  rewrite !sentence_keys_indexed, indexed_insert
    by (unfold key_items; now rewrite He).
  rewrite !map_map. simpl.
  rewrite <- (map_map (fun it : nat * str => (snd it, fst it))
                      (fun kx => (fst kx, shift (length l1) (snd kx)))).
  unfold rename_groups.
  rewrite <- (@group_with_map_values _ _ (map (shift (length l1))) _ _
                (shift (length l1)) snoc snoc [] []).
  - reflexivity.
  - reflexivity.
  - intros v x. unfold snoc. now rewrite map_app.
Qed.

Lemma word_map_insert l1 e l2 :
  chunks e = None ->
  word_map (l1 ++ e :: l2) =
  rename_word_map (shift (length l1)) (word_map (l1 ++ l2)).
Proof.
  intros He. rewrite !word_map_spec.
  rewrite !word_triples_indexed, indexed_insert
    by (unfold word_items; now rewrite He).
  rewrite !map_map. simpl.
  rewrite <- (map_map
                (fun it : nat * (str * str) =>
                   (fst (snd it), (snd (snd it), fst it)))
                (fun kx => (fst kx, (fst (snd kx),
                                     shift (length l1) (snd (snd kx)))))).
  unfold rename_word_map.
  rewrite <- (@group_with_map_values
                _ _ (rename_groups (shift (length l1))) _ _
                (fun x : str * nat => (fst x, shift (length l1) (snd x)))
                word_step word_step [] []).
  - reflexivity.
  - reflexivity.
  - intros pfm [fp i]. unfold word_step, dd_append, rename_groups. simpl.
    apply dd_update_map_values; [reflexivity|].
    intros v. now rewrite map_app.
Qed.

(** Inserting a record without chunks anywhere in the corpus does not
    change the report. *)
Lemma analyze_insert l1 e l2 :
  chunks e = None -> analyze (l1 ++ e :: l2) = analyze (l1 ++ l2).
Proof.
  intros He. unfold analyze.
  pose proof (chinese_groups_insert l1 e l2 He) as Hg.
  pose proof (word_map_insert l1 e l2 He) as Hw.
  unfold chinese_groups, word_map in Hg, Hw.
  destruct (scan (l1 ++ e :: l2)) as [groups wm].
  destruct (scan (l1 ++ l2)) as [groups' wm']. simpl in Hg, Hw. subst.
  rewrite (report_duplicates_rename (l1 ++ e :: l2) (l1 ++ l2)
             (shift (length l1))) by (intros; apply nth_error_insert).
  rewrite (report_tones_rename (l1 ++ e :: l2) (l1 ++ l2)
             (shift (length l1))) by (intros; apply nth_error_insert).
  reflexivity.
Qed.
End Skipping.

(** C7: a record without the [chunks] field is skipped without an error:
    the analysis returns a report, and it is the report of the corpus
    without that record, so the record is in neither part of it. *)
Theorem record_without_chunks_skipped (U : UCD) (l1 l2 : list entry) (e : entry) :
  chunks e = None ->
  (exists out, analyze (l1 ++ e :: l2) = Some out) /\
  analyze (l1 ++ e :: l2) = analyze (l1 ++ l2) /\
  (forall g, In g (chinese_groups (l1 ++ e :: l2)) -> ~ In (length l1) (snd g)) /\
  (forall c, ~ In (length l1, c) (occurrences (l1 ++ e :: l2))).
Proof.
  intros He. split.
  { destruct (analyze_explicit (l1 ++ e :: l2)) as (dups & _ & Ha). eauto. }
  split; [now apply analyze_insert|]. split.
  - intros [ch indices] Hg Hin. simpl in Hin.
    apply (chinese_groups_member _ _ _ (length l1) Hg) in Hin.
    unfold record_chinese in Hin. rewrite chunks_at_middle, He in Hin.
    discriminate.
  - intros c Hin. apply In_occurrences in Hin as (cs & Hcs & _).
    rewrite chunks_at_middle, He in Hcs. discriminate.
Qed.

Lemma record_without_chunks_skipped_witness :
  (exists out,
      @analyze fragment_ucd (two_readings ++ no_chunks :: nage_corpus) = Some out) /\
  @analyze fragment_ucd (two_readings ++ no_chunks :: nage_corpus) =
  @analyze fragment_ucd (two_readings ++ nage_corpus).
Proof.
  destruct (@record_without_chunks_skipped fragment_ucd two_readings nage_corpus
              no_chunks) as (H1 & H2 & _).
  - reflexivity.
  - split; [exact H1 | exact H2].
Defined.

(** ** Determinism and the order of the tone report *)

Lemma StronglySorted_app {A : Type} (R : A -> A -> Prop) l1 l2 :
  StronglySorted R l1 -> StronglySorted R l2 ->
  (forall x y, In x l1 -> In y l2 -> R x y) ->
  StronglySorted R (l1 ++ l2).
Proof.
  intros H1 H2 H. induction H1 as [|x l1 Hs IH Hx]; simpl; [assumption|].
  constructor.
  - apply IH. intros a b Ha Hb. apply H; [now right | assumption].
  - apply Forall_app. split; [assumption|].
    apply Forall_forall. intros y Hy. apply H; [now left | assumption].
Qed.

Lemma StronglySorted_constant (l : list str) ch :
  (forall x, In x l -> x = ch) -> StronglySorted str_le l.
Proof.
  induction l as [|x l IH]; intros H; constructor.
  - apply IH. intros; apply H; now right.
  - apply Forall_forall. intros y Hy.
    rewrite (H x) by now left. rewrite (H y) by now right. apply str_le_refl.
Qed.

Section Determinism.
Context {U : UCD}.

Lemma inconsistent_groups_of_text item g :
  In g (inconsistent_groups_of item) -> fst (fst g) = fst item.
Proof.
  unfold inconsistent_groups_of. destruct (1 <? length (snd item)); [|intros []].
  rewrite in_map_iff. intros (sfp & <- & _). reflexivity.
Qed.

Lemma inconsistent_groups_sorted data :
  StronglySorted str_le
    (map (fun g => fst (fst g)) (inconsistent_groups data)).
Proof.
  unfold inconsistent_groups.
  pose proof (StronglySorted_sorted_by
                (fst : str * dict (list nat) -> str) (word_map data)) as Hs.
  fold (sorted_items (word_map data)) in Hs.
  induction Hs as [|item items Hs IH Hle]; [constructor|].
  simpl flat_map. rewrite map_app. apply StronglySorted_app.
  - apply StronglySorted_constant with (ch := fst item).
    intros x Hx. apply in_map_iff in Hx as (g & <- & Hg).
    now apply inconsistent_groups_of_text.
  - exact IH.
  - intros x y Hx Hy.
    apply in_map_iff in Hx as (g & <- & Hg).
    apply in_map_iff in Hy as (g' & <- & Hg').
    apply in_flat_map in Hg' as (item' & Hin & Hg').
    rewrite (inconsistent_groups_of_text _ _ Hg),
      (inconsistent_groups_of_text _ _ Hg').
    rewrite Forall_forall in Hle. exact (Hle item' Hin).
Qed.

Lemma run_sanitizer_total fs filename :
  exists out, run_sanitizer fs filename = Some out.
Proof.
  unfold run_sanitizer. destruct (fs filename) as [[e|data]|]; eauto.
  destruct data as [|e data]; eauto.
  destruct (analyze_explicit (e :: data)) as (dups & _ & Ha).
  rewrite Ha. simpl. eauto.
Qed.

End Determinism.

(** ** The two normalisations *)

Lemma filter_flat_map {A B : Type} (p : B -> bool) (f : A -> list B) l :
  filter p (flat_map f l) = flat_map (fun x => filter p (f x)) l.
Proof.
  induction l as [|x l IH]; simpl; [reflexivity|]. now rewrite filter_app, IH.
Qed.

Lemma flat_map_filter {A B : Type} (g : A -> list B) (p : A -> bool) l :
  flat_map g (filter p l) = flat_map (fun x => if p x then g x else []) l.
Proof.
  induction l as [|x l IH]; simpl; [reflexivity|].
  destruct (p x); simpl; now rewrite IH.
Qed.

Lemma flat_map_flat_map {A B C : Type} (g : B -> list C) (f : A -> list B) l :
  flat_map g (flat_map f l) = flat_map (fun x => flat_map g (f x)) l.
Proof.
  induction l as [|x l IH]; simpl; [reflexivity|]. now rewrite flat_map_app, IH.
Qed.

Lemma Forall_flat_map {A B : Type} (P : B -> Prop) (f : A -> list B) l :
  Forall (fun x => Forall P (f x)) l -> Forall P (flat_map f l).
Proof.
  induction 1; simpl; [constructor|]. apply Forall_app. auto.
Qed.

Section NormalisationFacts.
Context {U : UCD}.

(** Without a capital sigma, [lower] maps code point by code point. *)
Lemma lower_from_plain before s :
  Forall (fun c => is_sigma c = false) s ->
  lower_from before s = flat_map tolower_full s.
Proof.
  intros H. revert before. induction H as [|c s Hc _ IH]; intros before;
    [reflexivity|].
  simpl. unfold is_sigma in Hc. rewrite Hc. now rewrite IH.
Qed.

Lemma lower_plain s :
  Forall (fun c => is_sigma c = false) s -> lower s = flat_map tolower_full s.
Proof. apply lower_from_plain. Qed.

(** Canonical ordering moves combining marks only. *)
Lemma flat_map_bubble {B : Type} (g : char -> list B) c racc :
  g c = [] -> flat_map g (rev (bubble c racc)) = flat_map g (rev racc).
Proof.
  intros Hc. induction racc as [|d r IH]; simpl.
  - now rewrite Hc.
  - destruct ((combining d =? 0)%N || (combining d <=? combining c)%N); simpl.
    + rewrite !flat_map_app. simpl. rewrite Hc. simpl.
      now rewrite !app_nil_r.
    + now rewrite !flat_map_app, IH.
Qed.

Lemma flat_map_canonical_order {B : Type} (g : char -> list B) s :
  Forall (fun d => (combining d =? 0)%N = false -> g d = []) s ->
  flat_map g (canonical_order s) = flat_map g s.
Proof.
  unfold canonical_order. intros H.
  assert (Hgen : forall racc,
             flat_map g (rev (fold_left canonical_step s racc)) =
             flat_map g (rev racc) ++ flat_map g s).
  { induction H as [|d s Hd _ IH]; intros racc; simpl.
    - now rewrite app_nil_r.
    - rewrite IH. unfold canonical_step.
      destruct (combining d =? 0)%N eqn:E; simpl.
      + rewrite flat_map_app, <- app_assoc. simpl.
        now rewrite app_nil_r.
      + rewrite flat_map_bubble, (Hd eq_refl) by auto. reflexivity. }
  apply Hgen.
Qed.

Lemma Forall_bubble (P : char -> Prop) c racc :
  P c -> Forall P racc -> Forall P (bubble c racc).
Proof.
  intros Hc H. induction H as [|d r Hd Hr IH]; simpl; [auto|].
  destruct ((combining d =? 0)%N || (combining d <=? combining c)%N); auto.
Qed.

Lemma Forall_canonical_order (P : char -> Prop) s :
  Forall P s -> Forall P (canonical_order s).
Proof.
  unfold canonical_order. intros H. apply Forall_rev.
  assert (Hgen : forall racc, Forall P racc ->
                              Forall P (fold_left canonical_step s racc)).
  { induction H as [|d s Hd _ IH]; intros racc Hr; simpl; [assumption|].
    apply IH. unfold canonical_step.
    destruct (combining d =? 0)%N; [auto | now apply Forall_bubble]. }
  apply Hgen. constructor.
Qed.

(** On plain code points, the stripped key is built code point by code
    point. *)
Lemma stripped_plain x :
  forallb plain_char x = true ->
  normalize_pinyin_stripped x = flat_map stripped_char x.
Proof.
  intros Hx. unfold normalize_pinyin_stripped, strip_tones, normalize_NFD.
  assert (HD : Forall (fun d => plain_decomposed d = true)
                      (flat_map decomposition x)).
  { apply Forall_flat_map. rewrite forallb_forall in Hx.
    apply Forall_forall. intros c Hc. specialize (Hx c Hc).
    unfold plain_char in Hx. rewrite forallb_forall in Hx.
    now apply Forall_forall. }
  pose proof (Forall_canonical_order HD) as HO.
  set (O := canonical_order (flat_map decomposition x)) in *.
  set (M := filter (fun c => is_not_Mn (category c)) O).
  assert (HM : Forall (fun d => is_not_Mn (category d) = true /\
                                plain_decomposed d = true) M).
  { apply Forall_forall. intros d Hd. apply filter_In in Hd as [Hd Hn].
    rewrite Forall_forall in HO. auto. }
  assert (HMs : Forall (fun d => is_sigma d = false) M).
  { eapply Forall_impl; [|exact HM]. intros d [Hn Hp].
    unfold plain_decomposed in Hp. rewrite Hn in Hp. simpl in Hp.
    apply andb_true_iff in Hp as [Hp _]. apply andb_true_iff in Hp as [Hp _].
    now apply negb_true_iff. }
  rewrite (lower_plain HMs), filter_flat_map.
  assert (HF : Forall (fun e => is_sigma e = false)
                      (flat_map (fun d => filter is_letter (tolower_full d)) M)).
  { apply Forall_flat_map. eapply Forall_impl; [|exact HM]. intros d [Hn Hp].
    unfold plain_decomposed in Hp. rewrite Hn in Hp. simpl in Hp.
    apply andb_true_iff in Hp as [Hp _]. apply andb_true_iff in Hp as [_ Hp].
    rewrite forallb_forall in Hp. apply Forall_forall. intros e He.
    apply filter_In in He as [He Hl]. specialize (Hp e He).
    rewrite Hl in Hp. simpl in Hp. now apply negb_true_iff. }
  rewrite (lower_plain HF), flat_map_flat_map.
  unfold M. rewrite flat_map_filter.
  change (fun d => if is_not_Mn (category d)
                   then flat_map tolower_full (filter is_letter (tolower_full d))
                   else []) with strip_char.
  unfold O. rewrite flat_map_canonical_order.
  - now rewrite flat_map_flat_map.
  - eapply Forall_impl; [|exact HD]. intros d Hp Hc.
    unfold plain_decomposed in Hp. apply andb_true_iff in Hp as [_ Hp].
    rewrite Hc in Hp. simpl in Hp. apply negb_true_iff in Hp.
    now apply truthy_false.
Qed.
End NormalisationFacts.

Section TameFacts.
Context {U : UCD}.

Lemma tame_spec c :
  tame c = true ->
  is_sigma c = false /\ plain_char c = true /\
  (if is_letter c
   then forallb plain_char (tolower_full c) = true /\
        flat_map stripped_char (tolower_full c) = stripped_char c
   else stripped_char c = []).
Proof.
  unfold tame. intros Hp.
  apply andb_true_iff in Hp as [Hp H3]. apply andb_true_iff in Hp as [H1 H2].
  apply negb_true_iff in H1. repeat split; try assumption.
  destruct (is_letter c).
  - apply andb_true_iff in H3 as [H3 H4]. now apply str_eqb_eq in H4.
  - apply negb_true_iff in H3. now apply truthy_false.
Qed.

(** When the two normalisations act code point by code point on [p] and
    agree on each code point, they agree on [p]. *)
Lemma stripped_of_full_charwise p :
  (forall c, In c p -> tame c = true) ->
  normalize_pinyin_stripped (normalize_pinyin_full p) =
  normalize_pinyin_stripped p.
Proof.
  intros Hp.
  assert (Ht : forall c, In c p ->
             is_sigma c = false /\ plain_char c = true /\
             (if is_letter c
              then forallb plain_char (tolower_full c) = true /\
                   flat_map stripped_char (tolower_full c) = stripped_char c
              else stripped_char c = []))
    by (intros c Hc; now apply tame_spec, Hp).
  assert (Hfull : normalize_pinyin_full p =
                  flat_map tolower_full (filter is_letter p)).
  { apply lower_plain. apply Forall_forall. intros c Hc.
    apply filter_In in Hc as [Hc _]. now apply Ht. }
  rewrite Hfull, !stripped_plain.
  - rewrite flat_map_flat_map, flat_map_filter.
    clear Hfull Hp. induction p as [|c p IH]; [reflexivity|].
    simpl. rewrite IH by (intros; apply Ht; now right). f_equal.
    destruct (Ht c (or_introl eq_refl)) as (_ & _ & H3).
    destruct (is_letter c); [tauto | now rewrite H3].
  - apply forallb_forall. intros c Hc. now apply Ht.
  - apply forallb_forall. intros c' Hc'.
    apply in_flat_map in Hc' as (c & Hc & Hc').
    apply filter_In in Hc as [Hc Hl].
    destruct (Ht c Hc) as (_ & _ & H3). rewrite Hl in H3.
    destruct H3 as [H3 _]. rewrite forallb_forall in H3. auto.
Qed.
End TameFacts.

(** C10, as the code has it: when every code point of [p] is tame, the
    stripped key of the full-letters key of [p] is the stripped key of
    [p].  In the Unicode character database every code point except
    U+03A3, the capital sigma, is tame. *)
Theorem stripped_of_full_tame (U : UCD) (p : str) :
  forallb tame p = true ->
  normalize_pinyin_stripped (normalize_pinyin_full p) =
  normalize_pinyin_stripped p.
Proof.
  intros Hp. rewrite forallb_forall in Hp.
  apply stripped_of_full_charwise.
  intros c Hc. apply Hp. exact Hc.
Qed.

Lemma stripped_of_full_tame_witness :
  @normalize_pinyin_stripped fragment_ucd
     (@normalize_pinyin_full fragment_ucd (lit "Nǐ hǎo, LǙ!")) =
  @normalize_pinyin_stripped fragment_ucd (lit "Nǐ hǎo, LǙ!").
Proof.
  apply (@stripped_of_full_tame fragment_ucd (lit "Nǐ hǎo, LǙ!")).
  vm_compute. reflexivity.
Defined.

(** C10 as worded fails on [aΣ a]: the sigma ends a word in [p], and is
    lowered to a final sigma when [p] is stripped; in the letters of [p]
    it is followed by [a], and is lowered to a medial sigma. *)
Lemma stripped_of_full_is_stripped_fails :
  ~ @stripped_of_full_is_stripped fragment_ucd.
Proof.
  intros H. specialize (H (lit "aΣ a")). vm_compute in H. discriminate.
Qed.

(** ** The checker on small corpora *)

Example lower_final_sigma :
  @lower fragment_ucd (lit "aΣ a") = lit "aς a" /\
  @lower fragment_ucd (lit "aΣa") = lit "aσa".
Proof. split; vm_compute; reflexivity. Qed.

Example NFD_reorders_marks :
  @normalize_NFD fragment_ucd [0x61; 0x301; 0x323; 0x1D6]%N =
  [0x61; 0x323; 0x301; 0x75; 0x308; 0x304]%N.
Proof. vm_compute. reflexivity. Qed.

Example normalisations_of_greeting :
  @normalize_pinyin_full fragment_ucd (lit "Nǐ hǎo!") = lit "nǐhǎo" /\
  @normalize_pinyin_stripped fragment_ucd (lit "Nǐ hǎo!") = lit "nihao" /\
  @strip_tones fragment_ucd (lit "Nǐ hǎo!") = lit "ni hao!".
Proof. repeat split; vm_compute; reflexivity. Qed.

Example report_hello_twice :
  @run_sanitizer fragment_ucd (fun _ => Some (Document hello_twice)) (lit "s.yml") =
  Some [ Analyzing (lit "s.yml");
         DuplicateSentence (lit "你好"); PinyinOf (lit "nǐ hǎo");
         EnglishOf [lit "a"; lit "b"];
         FoundDuplicates 1;
         InconsistentTones; NoneFound ].
Proof. vm_compute. reflexivity. Qed.

Example report_two_readings :
  @analyze fragment_ucd two_readings =
  Some [NoDuplicates; InconsistentTones; NoneFound].
Proof. vm_compute. reflexivity. Qed.

Example report_three_readings :
  @analyze fragment_ucd three_readings =
  Some [NoDuplicates; InconsistentTones; NoneFound].
Proof. vm_compute. reflexivity. Qed.

Example report_nage_three_one :
  @analyze fragment_ucd nage_three_one =
  Some [ NoDuplicates; InconsistentTones;
         ChineseOf (lit "那个");
         Variant (lit "nàge") 3 (Some (lit "one"));
         Variant (lit "nàgè") 1 (Some (lit "four")) ].
Proof. vm_compute. reflexivity. Qed.

Example report_nage_corpus :
  @analyze fragment_ucd nage_corpus =
  Some [ NoDuplicates; InconsistentTones;
         ChineseOf (lit "那个");
         Variant (lit "nàge") 2 (Some (lit "that one"));
         Variant (lit "nàgè") 1 (Some (lit "that thing")) ].
Proof. vm_compute. reflexivity. Qed.

Example report_empty_document :
  @run_sanitizer fragment_ucd (fun _ => Some (Document [])) (lit "s.yml") =
  Some [Analyzing (lit "s.yml"); EmptyFile].
Proof. reflexivity. Qed.

Example report_missing_file :
  @run_sanitizer fragment_ucd (fun _ => None) (lit "s.yml") =
  Some [FileNotFound (lit "s.yml")].
Proof. reflexivity. Qed.

Example report_record_without_chunks :
  @run_sanitizer fragment_ucd (fun _ => Some (Document [no_chunks])) (lit "s.yml") =
  Some [Analyzing (lit "s.yml"); NoDuplicates; InconsistentTones; NoneFound].
Proof. vm_compute. reflexivity. Qed.

Example report_fifteen_pairs_summary :
  exists printed,
    @analyze fragment_ucd fifteen_pairs =
    Some (printed ++ [MoreDuplicates 5; InconsistentTones; NoneFound]) /\
    length printed = 30.
Proof.
  destruct (@analyze fragment_ucd fifteen_pairs) as [out|] eqn:E;
    [|vm_compute in E; discriminate].
  exists (firstn 30 out). vm_compute in E. injection E as <-.
  split; reflexivity.
Qed.

(** ** The fragment of the character database *)

Lemma all_from_spec (P : N -> bool) n c :
  all_from n c P = true ->
  forall x, (c <= x)%N -> (x < c + N.of_nat n)%N -> P x = true.
Proof.
  revert c. induction n as [|n IH]; intros c H x Hlo Hhi; [lia|].
  simpl in H. apply andb_true_iff in H as [Hc H].
  destruct (N.eq_dec x c) as [->|Hne]; [assumption|].
  apply (IH (N.succ c) H); lia.
Qed.

Lemma find_row_In c rows r : find_row c rows = Some r -> In (c, r) rows.
Proof.
  induction rows as [|[c' r'] rows IH]; simpl; [discriminate|].
  destruct (N.eqb_spec c c') as [->|_]; intros H.
  - injection H as <-. now left.
  - right. auto.
Qed.

Lemma between_spec lo hi c :
  between lo hi c = true -> (lo <= c)%N /\ (c <= hi)%N.
Proof.
  unfold between. rewrite andb_true_iff, !N.leb_le. tauto.
Qed.

(** A property of all code points is checked on the rows and ranges of
    the fragment, and on the two kinds of code points without a row. *)
Lemma fragment_all (P : N -> bool) :
  forallb (fun kr => P (fst kr)) fragment_rows = true ->
  all_from 26 0x41%N P = true ->
  all_from 26 0x61%N P = true ->
  all_from 10 0x30%N P = true ->
  (forall c, fragment_row c = Row Lo 0 [c] [c] false false -> P c = true) ->
  (forall c, fragment_row c = Row Cn 0 [c] [c] false false -> P c = true) ->
  forall c, P c = true.
Proof.
  intros Hrows Hupper Hlower Hdigit Hcjk Hnone c.
  destruct (between 0x41 0x5A c) eqn:E1.
  { apply between_spec in E1.
    apply (@all_from_spec P 26 0x41%N Hupper); simpl; lia. }
  destruct (between 0x61 0x7A c) eqn:E2.
  { apply between_spec in E2.
    apply (@all_from_spec P 26 0x61%N Hlower); simpl; lia. }
  destruct (between 0x30 0x39 c) eqn:E3.
  { apply between_spec in E3.
    apply (@all_from_spec P 10 0x30%N Hdigit); simpl; lia. }
  destruct (between 0x4E00 0x9FFF c) eqn:E4.
  { apply Hcjk. unfold fragment_row. now rewrite E1, E2, E3, E4. }
  destruct (find_row c fragment_rows) as [r|] eqn:Ef.
  - apply find_row_In in Ef. rewrite forallb_forall in Hrows.
    exact (Hrows (c, r) Ef).
  - apply Hnone. unfold fragment_row. now rewrite E1, E2, E3, E4, Ef.
Qed.

Section FragmentRows.
Variable c : char.

Section Unassigned.
Hypothesis Hrow : fragment_row c = Row Cn 0 [c] [c] false false.

Lemma unassigned_not_letter : @is_letter fragment_ucd c = false.
Proof.
  unfold is_letter.
  change (@category fragment_ucd c) with (row_category (fragment_row c)).
  now rewrite Hrow.
Qed.

Lemma unassigned_strip_char : @strip_char fragment_ucd c = [].
Proof.
  unfold strip_char.
  change (@tolower_full fragment_ucd c) with (row_lower (fragment_row c)).
  change (@category fragment_ucd c) with (row_category (fragment_row c)).
  rewrite Hrow. simpl. now rewrite unassigned_not_letter.
Qed.

Lemma unassigned_tame : is_sigma c = false -> @tame fragment_ucd c = true.
Proof.
  intros Hs. unfold tame, plain_char, stripped_char, plain_decomposed.
  change (@decomposition fragment_ucd c)
    with (row_decomposition (fragment_row c)).
  rewrite Hrow, unassigned_not_letter. simpl.
  rewrite unassigned_strip_char, Hrow, Hs. simpl.
  now rewrite unassigned_not_letter.
Qed.
End Unassigned.

Section Ideograph.
Hypothesis Hrow : fragment_row c = Row Lo 0 [c] [c] false false.

Lemma ideograph_letter : @is_letter fragment_ucd c = true.
Proof.
  unfold is_letter.
  change (@category fragment_ucd c) with (row_category (fragment_row c)).
  now rewrite Hrow.
Qed.

Lemma ideograph_strip_char : @strip_char fragment_ucd c = [c].
Proof.
  unfold strip_char.
  change (@tolower_full fragment_ucd c) with (row_lower (fragment_row c)).
  change (@category fragment_ucd c) with (row_category (fragment_row c)).
  rewrite Hrow. simpl. rewrite ideograph_letter. simpl.
  change (@tolower_full fragment_ucd c) with (row_lower (fragment_row c)).
  now rewrite Hrow.
Qed.

Lemma ideograph_plain :
  is_sigma c = false -> @plain_char fragment_ucd c = true.
Proof.
  intros Hs. unfold plain_char, plain_decomposed.
  change (@decomposition fragment_ucd c)
    with (row_decomposition (fragment_row c)).
  rewrite Hrow. simpl. rewrite Hrow, Hs. simpl.
  now rewrite Hs, orb_true_r.
Qed.

Lemma ideograph_stripped_char : @stripped_char fragment_ucd c = [c].
Proof.
  unfold stripped_char.
  change (@decomposition fragment_ucd c)
    with (row_decomposition (fragment_row c)).
  rewrite Hrow. simpl. now rewrite ideograph_strip_char.
Qed.

Lemma ideograph_tame : is_sigma c = false -> @tame fragment_ucd c = true.
Proof.
  intros Hs. unfold tame.
  rewrite Hs, (ideograph_plain Hs), ideograph_letter. simpl.
  change (@tolower_full fragment_ucd c) with (row_lower (fragment_row c)).
  rewrite Hrow. simpl.
  rewrite (ideograph_plain Hs), ideograph_stripped_char. simpl.
  apply str_eqb_refl.
Qed.

Lemma ideograph_solid :
  is_sigma c = false -> @solid_lowered fragment_ucd c = true.
Proof.
  intros Hs. unfold solid_lowered, solid.
  change (@tolower_full fragment_ucd c) with (row_lower (fragment_row c)).
  rewrite Hrow. simpl.
  now rewrite (ideograph_plain Hs), ideograph_stripped_char.
Qed.
End Ideograph.
End FragmentRows.

(** In the fragment, every code point but the capital sigma is tame. *)
Lemma fragment_tame (c : char) :
  is_sigma c = false -> @tame fragment_ucd c = true.
Proof.
  intros Hs.
  assert (H : is_sigma c || @tame fragment_ucd c = true).
  { apply (@fragment_all (fun x => is_sigma x || @tame fragment_ucd x)).
    - vm_compute. reflexivity.
    - vm_compute. reflexivity.
    - vm_compute. reflexivity.
    - vm_compute. reflexivity.
    - intros x Hx. destruct (is_sigma x) eqn:E; [reflexivity|].
      now apply ideograph_tame.
    - intros x Hx. destruct (is_sigma x) eqn:E; [reflexivity|].
      now apply unassigned_tame. }
  now rewrite Hs in H.
Qed.

(** In the fragment, a string without capital sigma is stripped to the
    same key before and after the full-letters normalisation. *)
Corollary stripped_of_full_without_sigma (p : str) :
  ~ In CAPITAL_SIGMA p ->
  @normalize_pinyin_stripped fragment_ucd (@normalize_pinyin_full fragment_ucd p) =
  @normalize_pinyin_stripped fragment_ucd p.
Proof.
  intros Hp. apply stripped_of_full_charwise. intros c Hc.
  apply fragment_tame. unfold is_sigma. apply N.eqb_neq.
  intros ->. contradiction.
Qed.

Lemma fragment_letters_solid (c : char) :
  @is_letter fragment_ucd c = true -> is_sigma c = false ->
  @solid_lowered fragment_ucd c = true.
Proof.
  intros Hl Hs.
  assert (H : negb (@is_letter fragment_ucd c) || is_sigma c ||
              @solid_lowered fragment_ucd c = true).
  { apply (@fragment_all
             (fun x => negb (@is_letter fragment_ucd x) || is_sigma x ||
                       @solid_lowered fragment_ucd x)).
    - vm_compute. reflexivity.
    - vm_compute. reflexivity.
    - vm_compute. reflexivity.
    - vm_compute. reflexivity.
    - intros x Hx. destruct (is_sigma x) eqn:E; [now rewrite orb_true_r|].
      rewrite (ideograph_solid Hx E). now rewrite orb_true_r.
    - intros x Hx. now rewrite (unassigned_not_letter Hx). }
  now rewrite Hl, Hs in H.
Qed.

Lemma fragment_lower_plain (q : str) :
  Forall (fun c => @is_letter fragment_ucd c = true) q ->
  forall before,
    forallb (@plain_char fragment_ucd) (@lower_from fragment_ucd before q) = true.
Proof.
  induction 1 as [|c q Hc _ IH]; intros before; [reflexivity|].
  simpl lower_from. rewrite forallb_app, IH, andb_true_r.
  destruct (c =? CAPITAL_SIGMA)%N eqn:E.
  - destruct (final_sigma before q); vm_compute; reflexivity.
  - pose proof (fragment_letters_solid c Hc E) as Hsolid.
    unfold solid_lowered in Hsolid. now apply andb_true_iff in Hsolid.
Qed.

Lemma fragment_lower_solid (q : str) :
  Forall (fun c => @is_letter fragment_ucd c = true) q -> q <> [] ->
  forall before,
    existsb (@solid fragment_ucd) (@lower_from fragment_ucd before q) = true.
Proof.
  intros Hq Hne before. destruct Hq as [|c q Hc _]; [congruence|].
  simpl lower_from. rewrite existsb_app. apply orb_true_iff. left.
  destruct (c =? CAPITAL_SIGMA)%N eqn:E.
  - destruct (final_sigma before q); vm_compute; reflexivity.
  - pose proof (fragment_letters_solid c Hc E) as Hsolid.
    unfold solid_lowered in Hsolid. now apply andb_true_iff in Hsolid.
Qed.

(** In the fragment, a non-empty full-letters key never has an empty
    stripped key. *)
Lemma fragment_key_strips_nonempty (p : str) :
  @normalize_pinyin_full fragment_ucd p <> [] ->
  @normalize_pinyin_stripped fragment_ucd (@normalize_pinyin_full fragment_ucd p)
  <> [].
Proof.
  unfold normalize_pinyin_full, lower. intros Hne.
  set (q := filter (@is_letter fragment_ucd) p) in *.
  assert (Hq : Forall (fun c => @is_letter fragment_ucd c = true) q).
  { apply Forall_forall. intros c Hc. now apply filter_In in Hc. }
  assert (Hqn : q <> []) by (intros E; rewrite E in Hne; now apply Hne).
  rewrite stripped_plain by now apply fragment_lower_plain.
  pose proof (fragment_lower_solid Hq Hqn []) as Hs.
  apply existsb_exists in Hs as (e & He & Hsolid).
  unfold solid in Hsolid. apply truthy_true in Hsolid.
  intros E. apply Hsolid.
  assert (Hin : forall x, In x (@stripped_char fragment_ucd e) ->
                          In x (flat_map (@stripped_char fragment_ucd)
                                         (@lower_from fragment_ucd [] q))).
  { intros x Hx. apply in_flat_map. eauto. }
  rewrite E in Hin. destruct (@stripped_char fragment_ucd e) as [|x r];
    [reflexivity|]. exfalso. apply (Hin x). now left.
Qed.

(** In the fragment, the Chinese texts of the tone report are characterised
    for every corpus. *)
Corollary tone_inconsistency_iff_fragment (data : list entry) :
  exists out,
    @analyze fragment_ucd data = Some out /\
    forall ch,
      In (ChineseOf ch) out <->
      @has_letter fragment_ucd ch = true /\
      exists p1 p2,
        chunk_occurs data ch p1 /\ chunk_occurs data ch p2 /\
        @normalize_pinyin_full fragment_ucd p1 <>
        @normalize_pinyin_full fragment_ucd p2 /\
        @normalize_pinyin_stripped fragment_ucd
           (@normalize_pinyin_full fragment_ucd p1) =
        @normalize_pinyin_stripped fragment_ucd
           (@normalize_pinyin_full fragment_ucd p2).
Proof.
  apply tone_inconsistency_iff_keys. intros i c _.
  apply fragment_key_strips_nonempty.
Qed.

(* ================================================================= *)
(** * Properties of the other functions and tools *)

Section KeyFacts.
Context {U : UCD}.

Lemma join_cons (sep p q : str) (ps : list str) :
  join sep (p :: q :: ps) = p ++ sep ++ join sep (q :: ps).
Proof. reflexivity. Qed.

Lemma filter_join_space (ps : list str) :
  is_letter 32%N = false ->
  filter is_letter (join [32%N] ps) = filter is_letter (concat ps).
Proof.
  intros Hsp. induction ps as [|p ps IH]; [reflexivity|].
  destruct ps as [|q ps].
  - simpl. now rewrite app_nil_r.
  - rewrite join_cons. change (concat (p :: q :: ps)) with (p ++ concat (q :: ps)).
    rewrite !filter_app. rewrite IH. simpl filter at 2. now rewrite Hsp.
Qed.

Lemma sentence_key_concat data i cs :
  is_letter 32%N = false ->
  chunks_at data i = Some cs ->
  sentence_key data i =
  Some (normalize_pinyin_full (concat (map chunk_pinyin cs))).
Proof.
  intros Hsp Hcs. unfold sentence_key, sentence_pinyin. rewrite Hcs. simpl.
  unfold normalize_pinyin_full. now rewrite filter_join_space.
Qed.

Lemma full_plain p :
  Forall (fun c => is_sigma c = false) p ->
  normalize_pinyin_full p = flat_map tolower_full (filter is_letter p).
Proof.
  intros H. unfold normalize_pinyin_full. apply lower_plain.
  rewrite Forall_forall in *. intros c Hc. apply filter_In in Hc as [Hc _]. auto.
Qed.

Lemma flat_map_concat {A B : Type} (f : A -> list B) (ls : list (list A)) :
  flat_map f (concat ls) = concat (map (flat_map f) ls).
Proof.
  induction ls as [|l ls IH]; simpl; [reflexivity|].
  now rewrite flat_map_app, IH.
Qed.

Lemma filter_concat {A : Type} (p : A -> bool) (ls : list (list A)) :
  filter p (concat ls) = concat (map (filter p) ls).
Proof.
  induction ls as [|l ls IH]; simpl; [reflexivity|].
  now rewrite filter_app, IH.
Qed.

Lemma full_concat (ps : list str) :
  Forall (Forall (fun c => is_sigma c = false)) ps ->
  normalize_pinyin_full (concat ps) = concat (map normalize_pinyin_full ps).
Proof.
  intros H. rewrite full_plain.
  - rewrite filter_concat, flat_map_concat, map_map. f_equal.
    apply map_ext_in. intros p Hp. symmetry. apply full_plain.
    rewrite Forall_forall in H. auto.
  - apply Forall_concat. exact H.
Qed.
End KeyFacts.

(** X1: two records whose chunks concatenate to the same Chinese text and
    to the same pinyin, however the text is cut into chunks, are never told
    apart: they are in the same group of [chinese_groups] with the same
    full-letters key, since the space that joins the pinyin of the chunks
    (line 65) is no letter and leaves no trace in the key.  A duplicate
    group holds both of them or neither, and they are reported as
    duplicates of each other when they are two records and every record
    with their text has their key. *)
Theorem duplicate_key_ignores_chunking (U : UCD) (data : list entry)
        (i j : nat) (cs cs' : list chunk) :
  is_letter 32%N = false ->
  chunks_at data i = Some cs -> chunks_at data j = Some cs' ->
  concat (map chunk_chinese cs) = concat (map chunk_chinese cs') ->
  concat (map chunk_pinyin cs) = concat (map chunk_pinyin cs') ->
  record_chinese data i = record_chinese data j /\
  sentence_key data i = sentence_key data j /\
  (exists ch indices,
      In (ch, indices) (chinese_groups data) /\ In i indices /\ In j indices) /\
  (forall g, In g (duplicate_groups data) -> In i (snd g) <-> In j (snd g)) /\
  (i <> j ->
   (forall k, record_chinese data k = record_chinese data i ->
              sentence_key data k = sentence_key data i) ->
   reported_as_duplicates data i j).
Proof.
  intros Hsp Hi Hj Hch Hpy.
  assert (Hri : record_chinese data i = Some (full_chinese cs))
    by (unfold record_chinese; now rewrite Hi).
  assert (Hrj : record_chinese data j = Some (full_chinese cs)).
  { unfold record_chinese. rewrite Hj. simpl. unfold full_chinese.
    now rewrite Hch. }
  assert (Hk : sentence_key data i = sentence_key data j).
  { rewrite (sentence_key_concat data i Hsp Hi),
      (sentence_key_concat data j Hsp Hj). now rewrite Hpy. }
  destruct (record_in_its_group data i Hri) as (indices & Hg & Hin).
  assert (Hjn : In j indices)
    by (now apply (chinese_groups_member data _ _ j Hg)).
  split; [congruence|]. split; [exact Hk|]. split; [eauto|]. split.
  - intros [ch' indices'] Hd. simpl.
    assert (Hg' : In (ch', indices') (chinese_groups data)).
    { unfold duplicate_groups in Hd. now apply filter_In in Hd as [Hd _]. }
    rewrite (chinese_groups_member data _ _ i Hg'),
      (chinese_groups_member data _ _ j Hg').
    now rewrite Hri, Hrj.
  - intros Hne Hall. split; [exact Hne|].
    exists (full_chinese cs, indices). simpl. split; [|now split].
    apply duplicate_groups_spec.
    pose proof Hg as Hv. apply chinese_groups_In in Hv as [_ Hv].
    split; [exact Hv|]. split; [exact (@two_distinct_length _ i j indices Hne Hin Hjn)|].
    intros a b Ha Hb.
    apply (chinese_groups_member data _ _ a Hg) in Ha.
    apply (chinese_groups_member data _ _ b Hg) in Hb.
    rewrite (Hall a), (Hall b); [reflexivity| |]; congruence.
Qed.

Lemma duplicate_key_ignores_chunking_witness :
  @sentence_key fragment_ucd rechunked 0 = @sentence_key fragment_ucd rechunked 1 /\
  @reported_as_duplicates fragment_ucd rechunked 0 1.
Proof.
  destruct (@duplicate_key_ignores_chunking fragment_ucd rechunked 0 1
              [ck "你" "nǐ"; ck "好" "hǎo"] [ck "你好" "nǐhǎo"]
              eq_refl eq_refl eq_refl eq_refl eq_refl)
    as (_ & Hk & _ & _ & Hrep).
  split; [exact Hk|]. apply Hrep; [discriminate|].
  intros [|[|k]]; [reflexivity | reflexivity |].
  destruct k; vm_compute; discriminate.
Defined.

(** X2: the full-letters key of a sentence (line 66) is the concatenation
    of the full-letters keys of its chunks (line 53), when the pinyin holds
    no capital sigma, whose lowercase depends on its neighbours. *)
Theorem sentence_key_of_chunk_keys (U : UCD) (data : list entry) (i : nat)
        (cs : list chunk) :
  is_letter 32%N = false ->
  Forall (fun c => Forall (fun x => is_sigma x = false) (chunk_pinyin c)) cs ->
  chunks_at data i = Some cs ->
  sentence_key data i =
  Some (concat (map (fun c => normalize_pinyin_full (chunk_pinyin c)) cs)).
Proof.
  intros Hsp Hsig Hcs. rewrite (sentence_key_concat data i Hsp Hcs).
  rewrite full_concat, map_map; [reflexivity|].
  apply Forall_map. exact Hsig.
Qed.

Lemma sentence_key_of_chunk_keys_witness :
  @sentence_key fragment_ucd rechunked 0 =
  Some (concat (map (fun c => @normalize_pinyin_full fragment_ucd (chunk_pinyin c))
                    [ck "你" "nǐ"; ck "好" "hǎo"])).
Proof.
  apply (@sentence_key_of_chunk_keys fragment_ucd rechunked 0).
  - vm_compute; reflexivity.
  - repeat constructor.
  - vm_compute; reflexivity.
Defined.

Section Idempotent.
Context {U : UCD}.

Lemma settled_letter_spec c :
  settled_letter c = true ->
  is_sigma c = false /\
  Forall (fun e => is_letter e = true /\ is_sigma e = false /\ tolower_full e = [e])
         (tolower_full c).
Proof.
  unfold settled_letter. intros H. apply andb_true_iff in H as [Hs Hall].
  split; [now apply negb_true_iff|].
  rewrite forallb_forall in Hall. apply Forall_forall. intros e He.
  specialize (Hall e He). apply andb_true_iff in Hall as [Hall Hfix].
  apply andb_true_iff in Hall as [Hl Hns].
  apply str_eqb_eq in Hfix. apply negb_true_iff in Hns. auto.
Qed.

Lemma filter_all {A : Type} (q : A -> bool) (l : list A) :
  Forall (fun x => q x = true) l -> filter q l = l.
Proof.
  induction 1 as [|x l Hx _ IH]; simpl; [reflexivity|]. now rewrite Hx, IH.
Qed.

Lemma flat_map_fixed {A : Type} (f : A -> list A) (l : list A) :
  Forall (fun x => f x = [x]) l -> flat_map f l = l.
Proof.
  induction 1 as [|x l Hx _ IH]; simpl; [reflexivity|]. now rewrite Hx, IH.
Qed.

Lemma full_idempotent_letters (p : str) :
  (forall c, In c p -> is_letter c = true -> settled_letter c = true) ->
  normalize_pinyin_full (normalize_pinyin_full p) = normalize_pinyin_full p.
Proof.
  intros H.
  assert (Hl : Forall (fun c => settled_letter c = true) (filter is_letter p)).
  { apply Forall_forall. intros c Hc. apply filter_In in Hc as [Hin Hc]. auto. }
  assert (Hkey : normalize_pinyin_full p = flat_map tolower_full (filter is_letter p)).
  { unfold normalize_pinyin_full. apply lower_plain.
    eapply Forall_impl; [|exact Hl]. intros c Hc.
    now apply settled_letter_spec in Hc. }
  assert (Hk : Forall (fun e => is_letter e = true /\ is_sigma e = false /\
                               tolower_full e = [e])
                      (normalize_pinyin_full p)).
  { rewrite Hkey. apply Forall_flat_map.
    eapply Forall_impl; [|exact Hl]. intros c Hc.
    now apply settled_letter_spec in Hc. }
  unfold normalize_pinyin_full at 1.
  rewrite filter_all
    by (eapply Forall_impl; [|exact Hk]; intros e (He & _ & _); exact He).
  rewrite lower_plain
    by (eapply Forall_impl; [|exact Hk]; intros e (_ & He & _); exact He).
  apply flat_map_fixed. eapply Forall_impl; [|exact Hk].
  intros e (_ & _ & He). exact He.
Qed.
End Idempotent.

(** X3: [normalize_pinyin_full] is idempotent on a string whose letters
    lower to letters that are their own lowercase and are no sigma.  (The
    capital I with dot above lowers to an i and a combining dot, which the
    second pass drops.) *)
Theorem normalize_pinyin_full_idempotent (U : UCD) (p : str) :
  forallb (fun c => implb (is_letter c) (settled_letter c)) p = true ->
  normalize_pinyin_full (normalize_pinyin_full p) = normalize_pinyin_full p.
Proof.
  intros H. apply full_idempotent_letters. intros c Hc Hl.
  rewrite forallb_forall in H. specialize (H c Hc). now rewrite Hl in H.
Qed.

Lemma normalize_pinyin_full_idempotent_witness :
  @normalize_pinyin_full fragment_ucd
     (@normalize_pinyin_full fragment_ucd (lit "Nǐ hǎo, LǙ!")) =
  @normalize_pinyin_full fragment_ucd (lit "Nǐ hǎo, LǙ!").
Proof.
  apply (@normalize_pinyin_full_idempotent fragment_ucd (lit "Nǐ hǎo, LǙ!")).
  vm_compute. reflexivity.
Defined.

Example normalize_pinyin_full_dotted_capital :
  @normalize_pinyin_full fragment_ucd [0x130%N] = [0x69%N; 0x307%N] /\
  @normalize_pinyin_full fragment_ucd [0x69%N; 0x307%N] = [0x69%N].
Proof. split; vm_compute; reflexivity. Qed.

(** ** The groups of the first loop *)

Lemma concat_filter_perm {A : Type} (f : str -> list A) (k : str) (l : list str) :
  NoDup l -> (~ In k l -> f k = []) ->
  Permutation (f k ++ concat (map f (filter (fun k' => negb (str_eqb k' k)) l)))
              (concat (map f l)).
Proof.
  induction l as [|a l IH]; intros Hnd Hk.
  - simpl. rewrite Hk by tauto. constructor.
  - inversion Hnd as [|? ? Hni Hnd']; subst. simpl.
    destruct (str_eq_dec a k) as [->|Hne].
    + rewrite str_eqb_refl. simpl.
      replace (filter (fun k' => negb (str_eqb k' k)) l) with l; [reflexivity|].
      symmetry. apply filter_all. apply Forall_forall. intros x Hx.
      apply negb_true_iff, str_eqb_neq. intros ->. contradiction.
    + assert (E : str_eqb a k = false) by now apply str_eqb_neq.
      rewrite E. simpl.
      rewrite Permutation_app_swap_app. apply Permutation_app_head.
      apply IH; [assumption|]. intros Hn. apply Hk. simpl. intuition congruence.
Qed.

Lemma values_cons_other {X : Type} k k' (x : X) r :
  k' <> k -> values k' ((k, x) :: r) = values k' r.
Proof.
  intros Hne. unfold values. simpl.
  assert (E : str_eqb k k' = false) by (apply str_eqb_neq; congruence).
  now rewrite E.
Qed.

Lemma values_cons_same {X : Type} k (x : X) r :
  values k ((k, x) :: r) = x :: values k r.
Proof. unfold values. simpl. now rewrite str_eqb_refl. Qed.

Lemma values_absent {X : Type} k (r : list (str * X)) :
  ~ In k (map fst r) -> values k r = [].
Proof.
  intros H. destruct (values k r) as [|x l] eqn:E; [reflexivity|].
  exfalso. apply H. assert (Hin : In x (values k r)) by (rewrite E; now left).
  apply values_In in Hin. change k with (fst (k, x)). now apply in_map.
Qed.

Lemma concat_values_perm {X : Type} (kxs : list (str * X)) :
  Permutation
    (concat (map (fun k => values k kxs) (first_occurrences (map fst kxs))))
    (map snd kxs).
Proof.
  induction kxs as [|[k x] r IH]; [constructor|].
  simpl map. simpl first_occurrences. simpl concat.
  rewrite values_cons_same. simpl. apply perm_skip.
  rewrite <- IH.
  erewrite map_ext_in.
  - apply (concat_filter_perm (fun k' => values k' r)).
    + apply NoDup_first_occurrences.
    + rewrite In_first_occurrences. apply values_absent.
  - intros k' Hk'. apply filter_In in Hk' as [_ Hk'].
    apply negb_true_iff, str_eqb_neq in Hk'. now apply values_cons_other.
Qed.

Lemma values_sorted (R : nat -> nat -> Prop) k (kxs : list (str * nat)) :
  StronglySorted R (map snd kxs) -> StronglySorted R (values k kxs).
Proof.
  unfold values. induction kxs as [|[k0 x] r IH]; simpl; intros H; [constructor|].
  inversion H as [|? ? Hs Hall]; subst.
  destruct (str_eqb k0 k); simpl; [|auto].
  constructor; [auto|].
  rewrite Forall_forall in *. intros y Hy. apply Hall.
  apply in_map_iff in Hy as (p & <- & Hp). apply filter_In in Hp as [Hp _].
  now apply in_map.
Qed.

Section Partition.
Context {U : UCD}.

Lemma sentence_keys_from_bounds n data :
  Forall (fun i => n <= i) (map snd (sentence_keys_from n data)) /\
  StronglySorted lt (map snd (sentence_keys_from n data)) /\
  length (sentence_keys_from n data) <= length data.
Proof.
  revert n. induction data as [|e data IH]; intros n.
  - repeat split; constructor.
  - unfold sentence_keys_from in *. rewrite enumerate_from_cons. simpl flat_map.
    destruct (IH (S n)) as (Hb & Hs & Hl).
    destruct (chunks e) as [cs|]; simpl.
    + repeat split.
      * constructor; [lia|]. eapply Forall_impl; [|exact Hb]. simpl. lia.
      * constructor; [assumption|]. eapply Forall_impl; [|exact Hb]. simpl. lia.
      * lia.
    + repeat split.
      * eapply Forall_impl; [|exact Hb]. simpl. lia.
      * assumption.
      * lia.
Qed.

Lemma chinese_groups_keys data :
  NoDup (map fst (chinese_groups data)).
Proof.
  rewrite chinese_groups_spec. apply NoDup_group_with. constructor.
Qed.

Lemma chinese_groups_perm data :
  Permutation (concat (map snd (chinese_groups data)))
              (map snd (sentence_keys data)).
Proof.
  rewrite chinese_groups_order, map_map. simpl. apply concat_values_perm.
Qed.
End Partition.

(** X4: the first loop partitions the records that have chunks by their
    concatenated Chinese text: the keys of [chinese_groups] are distinct,
    every group is non-empty, ascending and holds exactly the indices of
    the records with its text, every record with chunks is in exactly one
    group, and the groups together hold the indices of the records with
    chunks. *)
Theorem chinese_groups_partition (U : UCD) (data : list entry) :
  NoDup (map fst (chinese_groups data)) /\
  (forall ch indices,
      In (ch, indices) (chinese_groups data) ->
      indices <> [] /\ StronglySorted lt indices /\
      forall i, In i indices <-> record_chinese data i = Some ch) /\
  (forall i, has_chunks data i ->
      exists ch indices, In (ch, indices) (chinese_groups data) /\ In i indices) /\
  (forall g g' i,
      In g (chinese_groups data) -> In g' (chinese_groups data) ->
      In i (snd g) -> In i (snd g') -> g = g') /\
  Permutation (concat (map snd (chinese_groups data)))
              (map snd (sentence_keys data)).
Proof.
  split; [apply chinese_groups_keys|]. split; [|split; [|split]].
  - intros ch indices Hg. pose proof (chinese_groups_member data ch indices) as Hm.
    apply chinese_groups_In in Hg as Hg'. destruct Hg' as [Hne ->].
    split; [assumption|]. split; [|intros i; now apply Hm].
    apply values_sorted. apply sentence_keys_from_bounds.
  - intros i [cs Hcs].
    assert (Hr : record_chinese data i = Some (full_chinese cs))
      by (unfold record_chinese; now rewrite Hcs).
    exists (full_chinese cs), (values (full_chinese cs) (sentence_keys data)).
    assert (Hin : In i (values (full_chinese cs) (sentence_keys data)))
      by now rewrite values_In, In_sentence_keys.
    split; [|assumption]. apply chinese_groups_In. split; [|reflexivity].
    intros E. rewrite E in Hin. contradiction.
  - intros [ch ind] [ch' ind'] i Hg Hg' Hi Hi'. simpl in Hi, Hi'.
    apply (chinese_groups_member data ch ind i Hg) in Hi.
    apply (chinese_groups_member data ch' ind' i Hg') in Hi'.
    assert (ch = ch') by congruence. subst ch'.
    apply chinese_groups_In in Hg as [_ ->].
    apply chinese_groups_In in Hg' as [_ ->]. reflexivity.
  - apply chinese_groups_perm.
Qed.

(** ** The duplicate part of the report, explicitly *)

Section DuplicateBlocks.
Context {U : UCD}.

Lemma map_m_english data indices :
  Forall (has_chunks data) indices ->
  map_m (fun idx => e <- nth_error data idx ;;
                    Some (get (english e) QUESTION_MARKS)) indices =
  Some (map (english_or_marks data) indices).
Proof.
  induction 1 as [|idx indices [cs Hcs] _ IH]; [reflexivity|].
  simpl. unfold english_or_marks at 1. unfold chunks_at in Hcs.
  destruct (nth_error data idx) as [e|]; [|discriminate].
  simpl. rewrite IH. reflexivity.
Qed.

Lemma print_duplicate_block data g :
  well_formed_group data g ->
  print_duplicate data g = Some (duplicate_block data g).
Proof.
  destruct g as [ch indices]. intros [Hne Hall]. simpl in Hne, Hall.
  destruct indices as [|i0 indices]; [congruence|].
  unfold print_duplicate, duplicate_block, raw_pinyin. simpl nth_error.
  cbn [bind fst snd hd].
  inversion Hall as [|? ? Hi0 _]; subst.
  destruct (has_chunks_key Hi0) as (k & Hk & _). rewrite Hk. cbn [bind get].
  rewrite (map_m_english Hall). reflexivity.
Qed.

Lemma duplicate_groups_well_formed data :
  Forall (well_formed_group data) (duplicate_groups data).
Proof.
  pose proof (chinese_groups_well_formed data) as H.
  rewrite Forall_forall in *. intros g Hg. apply H.
  unfold duplicate_groups in Hg. now apply filter_In in Hg.
Qed.

Lemma Forall2_map_eq {A B : Type} (f : A -> option B) (g : A -> B) l l' :
  Forall (fun x => f x = Some (g x)) l ->
  Forall2 (fun x y => f x = Some y) l l' -> l' = map g l.
Proof.
  intros Hl H. induction H as [|x y l l' Hxy _ IH]; [reflexivity|].
  inversion Hl; subst. simpl. f_equal; [congruence | auto].
Qed.

Lemma analyze_blocks data :
  analyze data =
  Some (concat (map (duplicate_block data) (firstn 10 (duplicate_groups data))) ++
        duplicates_summary (length (duplicate_groups data)) :: tone_part data).
Proof.
  destruct (analyze_explicit data) as (dups & Hd & Ha). rewrite Ha.
  rewrite (@Forall2_map_eq _ _ (fun g => print_duplicate data g)
             (duplicate_block data) (firstn 10 (duplicate_groups data)) dups);
    [reflexivity| |exact Hd].
  pose proof (duplicate_groups_well_formed data) as Hw.
  rewrite Forall_forall in *. intros g Hg. apply print_duplicate_block.
  apply Hw. rewrite <- (firstn_skipn 10 (duplicate_groups data)).
  apply in_or_app. now left.
Qed.

Lemma length_concat_ge {A : Type} (ls : list (list A)) n :
  Forall (fun l => n <= length l) ls -> n * length ls <= length (concat ls).
Proof.
  induction 1 as [|l ls Hl _ IH]; simpl; [lia|]. rewrite length_app. lia.
Qed.

Lemma length_concat_filter {A B : Type} (p : A -> bool) (f : A -> list B) l :
  length (concat (map f (filter p l))) <= length (concat (map f l)).
Proof.
  induction l as [|x l IH]; simpl; [lia|].
  destruct (p x); simpl; rewrite ?length_app; lia.
Qed.

Lemma duplicate_groups_count data :
  2 * length (duplicate_groups data) <= length data.
Proof.
  assert (H2 : 2 * length (map snd (duplicate_groups data))
               <= length (concat (map snd (duplicate_groups data)))).
  { apply length_concat_ge. apply Forall_map, Forall_forall.
    intros [ch indices] Hg. apply duplicate_groups_spec in Hg as (_ & Hl & _).
    simpl. lia. }
  rewrite length_map in H2.
  pose proof (length_concat_filter (counts_as_duplicate data) snd
                (chinese_groups data)) as Hf.
  fold (duplicate_groups data) in Hf.
  pose proof (Permutation_length (chinese_groups_perm data)) as Hp.
  rewrite length_map in Hp.
  pose proof (sentence_keys_from_bounds 0 data) as (_ & _ & Hl).
  unfold sentence_keys in Hp. lia.
Qed.
End DuplicateBlocks.

(** ** The duplicate part of the report and its cap *)

Section DuplicateCap.
Context {U : UCD}.

Lemma tone_part_no_duplicate_line data :
  Forall (fun l => is_duplicate_line l = false) (tone_part data).
Proof.
  unfold tone_part. constructor; [reflexivity|]. apply Forall_app. split.
  - apply Forall_concat. apply Forall_forall. intros b Hb.
    apply in_map_iff in Hb as ([[ch pfm] fps] & <- & _). simpl.
    constructor; [reflexivity|]. apply Forall_forall. intros l Hl.
    apply in_map_iff in Hl as (fp & <- & _). unfold variant_of.
    destruct (key_occurrences data ch fp) as [|[i0 c0] occ]; reflexivity.
  - destruct (inconsistent_groups data); repeat constructor.
Qed.

Lemma duplicates_summary_more n :
  duplicates_summary (10 + S n) = MoreDuplicates (S n).
Proof.
  unfold duplicates_summary.
  replace (10 <? 10 + S n) with true by (symmetry; apply Nat.ltb_lt; lia).
  reflexivity.
Qed.
End DuplicateCap.

(** C6: the duplicate part of the report, for every corpus.  Each of the
    first ten duplicate groups, taken in the order in which their Chinese
    text first occurs in the corpus, is printed on its own with its three
    lines: the Chinese text, the raw pinyin of its first record and the
    english of each of its records.  One summary line follows, and what
    comes after it holds no line of a duplicate group.  With more than
    ten groups the summary is the number of the groups that are not
    printed: with exactly 15 groups, ten are printed and the summary is
    "... and 5 more". *)
Theorem duplicate_report_cap (U : UCD) (data : list entry) :
  analyze data =
  Some (concat (map (duplicate_block data)
                    (firstn 10 (duplicate_groups data))) ++
        duplicates_summary (length (duplicate_groups data)) ::
        tone_part data) /\
  Forall (fun l => is_duplicate_line l = false)
         (duplicates_summary (length (duplicate_groups data)) ::
          tone_part data) /\
  duplicate_groups data =
  map (fun ch => (ch, values ch (sentence_keys data)))
      (filter (fun ch => counts_as_duplicate
                           data (ch, values ch (sentence_keys data)))
              (first_occurrences (map fst (sentence_keys data)))) /\
  (forall n, length (duplicate_groups data) = 10 + S n ->
             length (firstn 10 (duplicate_groups data)) = 10 /\
             length (skipn 10 (duplicate_groups data)) = S n /\
             duplicates_summary (length (duplicate_groups data)) =
             MoreDuplicates (S n)) /\
  (length (duplicate_groups data) = 15 ->
   length (firstn 10 (duplicate_groups data)) = 10 /\
   analyze data =
   Some (concat (map (duplicate_block data)
                     (firstn 10 (duplicate_groups data))) ++
         MoreDuplicates 5 :: tone_part data)).
Proof.
  pose proof (analyze_blocks data) as Ha.
  split; [exact Ha|]. split.
  { constructor; [|apply tone_part_no_duplicate_line].
    unfold duplicates_summary.
    destruct (10 <? _); [reflexivity|]. destruct (_ =? 0); reflexivity. }
  split; [apply duplicate_groups_order|]. split.
  - intros n Hn. rewrite length_firstn, length_skipn, Hn.
    split; [lia|]. split; [lia|]. apply duplicates_summary_more.
  - intros Hn. rewrite length_firstn, Hn. split; [reflexivity|].
    rewrite Ha, Hn. reflexivity.
Qed.

Lemma duplicate_report_cap_witness :
  length (@duplicate_groups fragment_ucd fifteen_pairs) = 15 /\
  length (firstn 10 (@duplicate_groups fragment_ucd fifteen_pairs)) = 10 /\
  @analyze fragment_ucd fifteen_pairs =
  Some (concat (map (duplicate_block fifteen_pairs)
                    (firstn 10 (@duplicate_groups fragment_ucd fifteen_pairs))) ++
        MoreDuplicates 5 :: @tone_part fragment_ucd fifteen_pairs).
Proof.
  split; [vm_compute; reflexivity|].
  apply (proj2 (proj2 (proj2 (proj2
           (@duplicate_report_cap fragment_ucd fifteen_pairs))))).
  vm_compute. reflexivity.
Defined.

(** ** What fixes the order of the report *)

Section ReportOrder.
Context {U : UCD}.

(** The texts that the lines of a report name. *)
Lemma duplicate_texts_app out out' :
  duplicate_texts (out ++ out') = duplicate_texts out ++ duplicate_texts out'.
Proof. apply flat_map_app. Qed.

Lemma chinese_texts_app out out' :
  chinese_texts (out ++ out') = chinese_texts out ++ chinese_texts out'.
Proof. apply flat_map_app. Qed.

Lemma duplicate_texts_blocks data groups :
  duplicate_texts (concat (map (duplicate_block data) groups)) = map fst groups.
Proof.
  induction groups as [|g groups IH]; [reflexivity|].
  cbn [map concat]. rewrite duplicate_texts_app, IH. reflexivity.
Qed.

Lemma chinese_texts_blocks data groups :
  chinese_texts (concat (map (duplicate_block data) groups)) = [].
Proof.
  induction groups as [|g groups IH]; [reflexivity|].
  cbn [map concat]. rewrite chinese_texts_app, IH. reflexivity.
Qed.

Lemma texts_of_variants (f : line -> list str) data ch fps :
  (forall r n e, f (Variant r n e) = []) ->
  flat_map f (map (variant_of data ch) fps) = [].
Proof.
  intros Hf. induction fps as [|fp fps IH]; [reflexivity|].
  cbn [map flat_map]. rewrite IH. unfold variant_of.
  destruct (key_occurrences data ch fp) as [|[i0 c0] occ]; now rewrite Hf.
Qed.

Lemma chinese_texts_tone_blocks data groups :
  chinese_texts (concat (map (block_of data) groups)) =
  map (fun g => fst (fst g)) groups.
Proof.
  induction groups as [|[[ch pfm] fps] groups IH]; [reflexivity|].
  cbn [map concat]. rewrite chinese_texts_app, IH.
  unfold block_of, chinese_texts at 1. cbn [flat_map fst app].
  rewrite texts_of_variants; reflexivity.
Qed.

Lemma duplicate_texts_tone_blocks data groups :
  duplicate_texts (concat (map (block_of data) groups)) = [].
Proof.
  induction groups as [|[[ch pfm] fps] groups IH]; [reflexivity|].
  cbn [map concat]. rewrite duplicate_texts_app, IH, app_nil_r.
  unfold block_of, duplicate_texts. cbn [flat_map app].
  rewrite texts_of_variants; reflexivity.
Qed.

Lemma duplicate_texts_tone_part data : duplicate_texts (tone_part data) = [].
Proof.
  unfold tone_part.
  change (InconsistentTones :: ?l) with ([InconsistentTones] ++ l).
  rewrite !duplicate_texts_app, duplicate_texts_tone_blocks.
  destruct (inconsistent_groups data); reflexivity.
Qed.

Lemma chinese_texts_tone_part data :
  chinese_texts (tone_part data) =
  map (fun g => fst (fst g)) (inconsistent_groups data).
Proof.
  unfold tone_part.
  change (InconsistentTones :: ?l) with ([InconsistentTones] ++ l).
  rewrite !chinese_texts_app, chinese_texts_tone_blocks.
  destruct (inconsistent_groups data); cbn [chinese_texts flat_map app];
    now rewrite ?app_nil_r.
Qed.

Lemma texts_of_summary n :
  duplicate_texts [duplicates_summary n] = [] /\
  chinese_texts [duplicates_summary n] = [].
Proof.
  unfold duplicates_summary.
  destruct (10 <? n); [now split|]. destruct (n =? 0); now split.
Qed.

Lemma texts_of_analyze data body :
  analyze data = Some body ->
  duplicate_texts body = map fst (firstn 10 (duplicate_groups data)) /\
  chinese_texts body = map (fun g => fst (fst g)) (inconsistent_groups data).
Proof.
  rewrite analyze_blocks. intros [= <-].
  change (duplicates_summary ?n :: ?l) with ([duplicates_summary n] ++ l).
  rewrite !duplicate_texts_app, !chinese_texts_app.
  rewrite duplicate_texts_blocks, chinese_texts_blocks.
  destruct (texts_of_summary (length (duplicate_groups data))) as [-> ->].
  rewrite duplicate_texts_tone_part, chinese_texts_tone_part.
  now rewrite !app_nil_r.
Qed.
End ReportOrder.

(** [sorted] gives one result for all the orders of a list with distinct
    keys. *)
Section SortedCanonical.
Context {A : Type} (key : A -> str).

Lemma StronglySorted_unique (l1 l2 : list A) :
  StronglySorted (key_le key) l1 -> StronglySorted (key_le key) l2 ->
  Permutation l1 l2 -> NoDup (map key l1) -> l1 = l2.
Proof.
  intros H1. revert l2. induction H1 as [|x l1 Hs1 IH Hx]; intros l2 H2 Hp Hnd.
  - now apply Permutation_nil in Hp.
  - destruct H2 as [|y l2 Hs2 Hy].
    + symmetry in Hp. now apply Permutation_nil in Hp.
    + assert (Exy : x = y).
      { assert (Hyin : In y (x :: l1))
          by (apply (Permutation_in _ (Permutation_sym Hp)); now left).
        assert (Hxin : In x (y :: l2))
          by (apply (Permutation_in _ Hp); now left).
        destruct Hyin as [E|Hyin]; [exact E|].
        destruct Hxin as [E|Hxin]; [now symmetry|]. exfalso.
        rewrite Forall_forall in Hx, Hy.
        pose proof (Hx y Hyin) as Hle. pose proof (Hy x Hxin) as Hge.
        unfold key_le, str_le in Hle, Hge.
        pose proof (str_ltb_total _ _ Hge Hle) as Ek.
        inversion Hnd as [|? ? Hni _]; subst. apply Hni. rewrite Ek.
        now apply in_map. }
      subst y. f_equal. apply IH; [exact Hs2| |now inversion Hnd].
      now apply Permutation_cons_inv with (a := x).
Qed.

Lemma sorted_by_canonical (l l' : list A) :
  Permutation l' l -> NoDup (map key l) ->
  sorted_by key l' = sorted_by key l.
Proof.
  intros Hp Hnd. apply StronglySorted_unique.
  - apply StronglySorted_sorted_by.
  - apply StronglySorted_sorted_by.
  - rewrite !Permutation_sorted_by. exact Hp.
  - apply (Permutation_NoDup (l := map key l)); [|exact Hnd].
    apply Permutation_map. rewrite Permutation_sorted_by. now symmetry.
Qed.
End SortedCanonical.

Lemma report_tones_any_order (U : UCD) (data : list entry) (wm' : word_map_t) :
  Permutation wm' (word_map data) ->
  report_tones data wm' = Some (tone_part data).
Proof.
  intros Hp. rewrite <- report_tones_explicit. unfold report_tones, sorted_items.
  rewrite (@sorted_by_canonical _ fst (word_map data) wm' Hp); [reflexivity|].
  rewrite word_map_spec. apply NoDup_group_with. constructor.
Qed.

(** C8: what a run prints is fixed by the content of the file, down to
    the order of the lines.  A run that finds the same content under the
    file name prints the same report, whatever else the file system
    holds.  The duplicate groups are printed in the order in which their
    Chinese text first occurs in the file and the tone groups in
    increasing order of their Chinese text; and the report is the one that
    the code gives when [word_map] holds its items in any other order,
    since line 85 sorts them: only the data decides the findings, their
    order and their counts. *)
Theorem report_deterministic (U : UCD) (fs : filesystem) (filename : str)
        (data : list entry) (out : list line) :
  fs filename = Some (Document data) ->
  run_sanitizer fs filename = Some out ->
  (forall fs', fs' filename = fs filename ->
               run_sanitizer fs' filename = Some out) /\
  duplicate_texts out = map fst (firstn 10 (duplicate_groups data)) /\
  map fst (duplicate_groups data) =
  filter (fun ch => counts_as_duplicate
                      data (ch, values ch (sentence_keys data)))
         (first_occurrences (map fst (sentence_keys data))) /\
  StronglySorted str_le (chinese_texts out) /\
  forall wm',
    Permutation wm' (word_map data) -> data <> [] ->
    exists dups tones,
      report_duplicates data (chinese_groups data) = Some dups /\
      report_tones data wm' = Some tones /\
      out = Analyzing filename :: dups ++ tones.
Proof.
  intros Hf Hrun. split.
  { intros fs' Hfs'. rewrite <- Hrun. unfold run_sanitizer. now rewrite Hfs'. }
  unfold run_sanitizer in Hrun. rewrite Hf in Hrun.
  split; [|split; [|split]].
  - destruct data as [|e data]; [now injection Hrun as <-|].
    destruct (analyze (e :: data)) as [body|] eqn:Ha; [|discriminate].
    injection Hrun as <-. apply texts_of_analyze in Ha as [Hd _].
    change (duplicate_texts (Analyzing filename :: body))
      with (duplicate_texts body).
    exact Hd.
  - rewrite (duplicate_groups_order data), map_map. simpl. now rewrite map_id.
  - destruct data as [|e data]; [injection Hrun as <-; constructor|].
    destruct (analyze (e :: data)) as [body|] eqn:Ha; [|discriminate].
    injection Hrun as <-. apply texts_of_analyze in Ha as [_ Hc].
    change (chinese_texts (Analyzing filename :: body)) with (chinese_texts body).
    rewrite Hc. apply inconsistent_groups_sorted.
  - intros wm' Hp Hne.
    destruct data as [|e data]; [congruence|].
    destruct (report_duplicates_spec (e :: data)) as (dups & _ & Hd).
    eexists _, (tone_part (e :: data)).
    split; [exact Hd|]. split; [now apply report_tones_any_order|].
    pose proof (report_tones_explicit (e :: data)) as Ht.
    unfold analyze in Hrun. unfold chinese_groups in Hd. unfold word_map in Ht.
    destruct (scan (e :: data)) as [groups wm]. simpl in Hd, Ht.
    rewrite Hd, Ht in Hrun. simpl in Hrun. now injection Hrun as <-.
Qed.

Lemma report_deterministic_witness :
  (forall fs', fs' (lit "words.yml") = two_words_file (lit "words.yml") ->
               @run_sanitizer fragment_ucd fs' (lit "words.yml") =
               Some (get (@run_sanitizer fragment_ucd two_words_file
                            (lit "words.yml")) [])) /\
  duplicate_texts
    (get (@run_sanitizer fragment_ucd two_words_file (lit "words.yml")) [])
  = map fst (firstn 10 (@duplicate_groups fragment_ucd two_words)) /\
  map fst (@duplicate_groups fragment_ucd two_words) =
  filter (fun ch => @counts_as_duplicate fragment_ucd
                      two_words (ch, values ch (sentence_keys two_words)))
         (first_occurrences (map fst (sentence_keys two_words))) /\
  StronglySorted str_le
    (chinese_texts
       (get (@run_sanitizer fragment_ucd two_words_file (lit "words.yml")) [])) /\
  forall wm',
    Permutation wm' (@word_map fragment_ucd two_words) -> two_words <> [] ->
    exists dups tones,
      @report_duplicates fragment_ucd two_words
                         (@chinese_groups fragment_ucd two_words)
      = Some dups /\
      @report_tones fragment_ucd two_words wm' = Some tones /\
      get (@run_sanitizer fragment_ucd two_words_file (lit "words.yml")) []
      = Analyzing (lit "words.yml") :: dups ++ tones.
Proof.
  apply (@report_deterministic fragment_ucd two_words_file (lit "words.yml")
           two_words
           (get (@run_sanitizer fragment_ucd two_words_file (lit "words.yml")) [])).
  - vm_compute. reflexivity.
  - vm_compute. reflexivity.
Defined.

(** The report of the two words: the tone groups come in sorted order,
    not in the order of the file. *)
Example report_two_words :
  @run_sanitizer fragment_ucd two_words_file (lit "words.yml") =
  Some [ Analyzing (lit "words.yml");
         DuplicateSentence (lit "你好");
         PinyinOf (lit "nǐhǎo");
         EnglishOf [lit "hello"; lit "hi"];
         FoundDuplicates 1;
         InconsistentTones;
         ChineseOf (lit "行");
         Variant (lit "xìng") 1 (Some (lit "to be happy"));
         Variant (lit "xíng") 1 (Some (lit "to walk"));
         ChineseOf (lit "那个");
         Variant (lit "nàge") 1 (Some (lit "that one"));
         Variant (lit "nàgè") 1 (Some (lit "that thing")) ].
Proof. vm_compute. reflexivity. Qed.

(** X5: the report of [run_sanitizer] on a loaded corpus is never a
    [KeyError]: it is the three lines (text, raw pinyin of the first
    record, english of every record with ??? for a missing one) of each of
    the first ten duplicate groups, the summary line for the number of
    groups, and the tone part.  A duplicate group has at least two records,
    all the records of its text, so there are at most half as many groups
    as records. *)
Theorem analyze_closed_form (U : UCD) (data : list entry) :
  analyze data =
  Some (concat (map (duplicate_block data) (firstn 10 (duplicate_groups data))) ++
        duplicates_summary (length (duplicate_groups data)) :: tone_part data) /\
  (forall g, In g (duplicate_groups data) ->
             2 <= length (snd g) /\
             snd g = values (fst g) (sentence_keys data)) /\
  2 * length (duplicate_groups data) <= length data.
Proof.
  split; [apply analyze_blocks|]. split; [|apply duplicate_groups_count].
  intros [ch indices] Hg. apply duplicate_groups_spec in Hg as (Hv & Hl & _).
  simpl. split; [lia | assumption].
Qed.

(** ** Tone findings under more sentences *)

Section Monotone.
Context {U : UCD}.

Lemma flagged_monotone data data' ch :
  (forall ch p, chunk_occurs data ch p -> chunk_occurs data' ch p) ->
  In (ChineseOf ch) (tone_part data) -> In (ChineseOf ch) (tone_part data').
Proof.
  intros Hsub. rewrite !In_tone_part_ChineseOf, !inconsistent_iff_two_keys.
  intros (pfm & k1 & k2 & Hwm & H1 & H2 & Hne & Hst).
  assert (Hmove : forall k, In k (map fst pfm) ->
            exists pfm', In (ch, pfm') (word_map data') /\ In k (map fst pfm')).
  { intros k Hk. apply word_map_keys.
    destruct (proj1 (word_map_keys data ch k)) as (Hl & Hk0 & i & c & Hin & Hc & Hp);
      [eauto|].
    split; [assumption|]. split; [assumption|].
    destruct (Hsub ch (chunk_pinyin c)) as (i' & c' & Hin' & Hc' & Hp').
    { exists i, c. auto. }
    exists i', c'. rewrite Hp'. auto. }
  destruct (Hmove k1 H1) as (pfm1 & Hwm1 & Hk1).
  destruct (Hmove k2 H2) as (pfm2 & Hwm2 & Hk2).
  rewrite (@word_map_unique U data' ch pfm2 pfm1 Hwm2 Hwm1) in Hk2.
  exists pfm1, k1, k2. auto.
Qed.

Lemma chunk_occurs_app data more ch p :
  chunk_occurs data ch p -> chunk_occurs (data ++ more) ch p.
Proof.
  intros (i & c & Hin & Hc & Hp). exists i, c. split; [|auto].
  apply In_occurrences in Hin as (cs & Hcs & Hin). apply In_occurrences.
  exists cs. split; [|assumption]. unfold chunks_at in *.
  destruct (nth_error data i) as [e|] eqn:E; [|discriminate].
  rewrite nth_error_app1 by (apply nth_error_Some; congruence).
  now rewrite E.
Qed.
End Monotone.

(** X6: the tone findings only grow with the corpus: when every pair of
    Chinese text and pinyin that occurs in a chunk of [data] occurs in a
    chunk of [data'], a Chinese text listed as inconsistent for [data] is
    listed for [data']. *)
Theorem tone_findings_monotone (U : UCD) (data data' : list entry)
        (out out' : list line) (ch : str) :
  (forall ch p, chunk_occurs data ch p -> chunk_occurs data' ch p) ->
  analyze data = Some out -> analyze data' = Some out' ->
  In (ChineseOf ch) out -> In (ChineseOf ch) out'.
Proof.
  intros Hsub Ha Ha'.
  rewrite (In_analyze_ChineseOf data ch Ha), (In_analyze_ChineseOf data' ch Ha').
  now apply flagged_monotone.
Qed.

Lemma tone_findings_monotone_witness :
  In (ChineseOf (lit "那个"))
     (get (@analyze fragment_ucd (nage_three_one ++ two_readings)) []).
Proof.
  apply (@tone_findings_monotone fragment_ucd nage_three_one
           (nage_three_one ++ two_readings)
           (get (@analyze fragment_ucd nage_three_one) [])
           (get (@analyze fragment_ucd (nage_three_one ++ two_readings)) [])
           (lit "那个")).
  - intros ch p. apply chunk_occurs_app.
  - vm_compute. reflexivity.
  - vm_compute. reflexivity.
  - vm_compute. auto.
Defined.

(** ** Pinyin typed with combining marks *)

Section Decomposed.
Context {U : UCD}.

Lemma filter_letters_lowered (x : str) :
  Forall (fun d => decomposed_ok d = true) x ->
  filter is_letter (flat_map tolower_full (filter (fun c => is_not_Mn (category c)) x)) =
  flat_map tolower_full (filter is_letter x).
Proof.
  induction 1 as [|d x Hd _ IH]; [reflexivity|].
  unfold decomposed_ok in Hd. apply andb_true_iff in Hd as [_ Hd].
  simpl. destruct (is_letter d) eqn:El.
  - assert (Em : is_not_Mn (category d) = true).
    { unfold is_letter in El. destruct (category d); try discriminate; reflexivity. }
    rewrite Em. simpl. rewrite filter_app, IH. f_equal.
    apply filter_all. apply settled_letter_spec in Hd as [_ Hd].
    eapply Forall_impl; [|exact Hd]. intros e (He & _). exact He.
  - destruct (is_not_Mn (category d)) eqn:Em; [|exact IH].
    simpl in Hd. simpl. rewrite filter_app, IH.
    replace (filter is_letter (tolower_full d)) with (@nil char); [reflexivity|].
    symmetry. rewrite forallb_forall in Hd.
    induction (tolower_full d) as [|e r IHr]; [reflexivity|].
    simpl. rewrite (proj1 (negb_true_iff _) (Hd e (or_introl eq_refl))).
    apply IHr. intros y Hy. apply Hd. now right.
Qed.

Lemma stripped_is_full_decomposed (x : str) :
  normalize_NFD x = x ->
  Forall (fun d => decomposed_ok d = true) x ->
  normalize_pinyin_stripped x = normalize_pinyin_full x.
Proof.
  intros Hnfd Hx.
  assert (Hns : Forall (fun d => is_sigma d = false) x).
  { eapply Forall_impl; [|exact Hx]. intros d Hd. unfold decomposed_ok in Hd.
    apply andb_true_iff in Hd as [Hd _]. now apply negb_true_iff. }
  assert (Hl : Forall (fun c => settled_letter c = true) (filter is_letter x)).
  { apply Forall_forall. intros c Hc. apply filter_In in Hc as [Hin Hc].
    rewrite Forall_forall in Hx. specialize (Hx c Hin).
    unfold decomposed_ok in Hx. rewrite Hc in Hx.
    now apply andb_true_iff in Hx as [_ Hx]. }
  assert (Hk : Forall (fun e => is_letter e = true /\ is_sigma e = false /\
                               tolower_full e = [e])
                      (flat_map tolower_full (filter is_letter x))).
  { apply Forall_flat_map. eapply Forall_impl; [|exact Hl]. intros c Hc.
    now apply settled_letter_spec in Hc. }
  rewrite (full_plain Hns).
  unfold normalize_pinyin_stripped, strip_tones. rewrite Hnfd.
  rewrite (@lower_plain U (filter _ x)).
  - rewrite (filter_letters_lowered Hx). rewrite lower_plain.
    + apply flat_map_fixed. eapply Forall_impl; [|exact Hk].
      intros e (_ & _ & He). exact He.
    + eapply Forall_impl; [|exact Hk]. intros e (_ & He & _). exact He.
  - rewrite Forall_forall in *. intros c Hc. apply filter_In in Hc as [Hc _]. auto.
Qed.
End Decomposed.

(** X7: on pinyin in decomposed form (NFD: tone marks as combining marks
    after their letter) the full-letters key is already the stripped key:
    the letter filter of line 12 drops the combining marks, so tones that
    are written this way are invisible to both reports. *)
Theorem decomposed_pinyin_loses_tones (U : UCD) (x : str) :
  normalize_NFD x = x ->
  forallb decomposed_ok x = true ->
  normalize_pinyin_full x = normalize_pinyin_stripped x.
Proof.
  intros Hnfd Hx. symmetry. apply stripped_is_full_decomposed; [assumption|].
  apply Forall_forall. rewrite forallb_forall in Hx. exact Hx.
Qed.

Lemma decomposed_pinyin_loses_tones_witness :
  @normalize_pinyin_full fragment_ucd [110; 97; 0x300; 103; 101]%N =
  @normalize_pinyin_stripped fragment_ucd [110; 97; 0x300; 103; 101]%N.
Proof.
  apply (@decomposed_pinyin_loses_tones fragment_ucd [110; 97; 0x300; 103; 101]%N);
    vm_compute; reflexivity.
Defined.

Example decomposed_spellings_share_the_key :
  @normalize_pinyin_full fragment_ucd [110; 97; 0x300; 103; 101]%N = lit "nage" /\
  @normalize_pinyin_full fragment_ucd [110; 97; 0x300; 103; 101; 0x300]%N = lit "nage" /\
  @normalize_pinyin_full fragment_ucd (lit "nàgè") <> lit "nage".
Proof. split; [|split]; vm_compute; [reflexivity | reflexivity | discriminate]. Qed.

(** ** [strip] *)

Section StripFacts.
Variable p : char -> bool.

Lemma lstrip_by_head s : unstrippable p (lstrip_by p s).
Proof.
  induction s as [|c s IH]; simpl; [exact I|].
  destruct (p c) eqn:E; [exact IH | exact E].
Qed.

Lemma lstrip_by_fixed s : unstrippable p s -> lstrip_by p s = s.
Proof. destruct s as [|c s]; simpl; [reflexivity|]. now intros ->. Qed.

Lemma lstrip_by_app_last l c :
  p c = false -> exists l', lstrip_by p (l ++ [c]) = l' ++ [c].
Proof.
  intros Hc. induction l as [|a l IH]; simpl.
  - rewrite Hc. now exists [].
  - destruct (p a); [exact IH | now exists (a :: l)].
Qed.

Lemma rstrip_by_head s : unstrippable p s -> unstrippable p (rstrip_by p s).
Proof.
  destruct s as [|c r]; [intros _; exact I|]. simpl. intros Hc.
  unfold rstrip_by. simpl rev.
  destruct (@lstrip_by_app_last (rev r) c Hc) as [l' ->].
  rewrite rev_app_distr. simpl. exact Hc.
Qed.

Lemma strip_by_head s : unstrippable p (strip_by p s).
Proof. apply rstrip_by_head, lstrip_by_head. Qed.

Lemma strip_by_last s : unstrippable p (rev (strip_by p s)).
Proof.
  unfold strip_by, rstrip_by. rewrite rev_involutive. apply lstrip_by_head.
Qed.

Lemma strip_by_fixed s :
  unstrippable p s -> unstrippable p (rev s) -> strip_by p s = s.
Proof.
  intros H1 H2. unfold strip_by, rstrip_by.
  rewrite (@lstrip_by_fixed s H1), (@lstrip_by_fixed (rev s) H2).
  apply rev_involutive.
Qed.

Lemma strip_by_idempotent s : strip_by p (strip_by p s) = strip_by p s.
Proof. apply strip_by_fixed; [apply strip_by_head | apply strip_by_last]. Qed.

Lemma strip_by_all s : Forall (fun c => p c = true) s -> strip_by p s = [].
Proof.
  intros H. unfold strip_by.
  assert (E : lstrip_by p s = []).
  { induction H as [|c s Hc _ IH]; simpl; [reflexivity|]. now rewrite Hc. }
  now rewrite E.
Qed.
End StripFacts.

Lemma strip_idempotent s : strip (strip s) = strip s.
Proof. apply strip_by_idempotent. Qed.

(** ** [is_safe] *)

Lemma is_safe_spec (text : str) :
  coverage.is_safe text = negb (existsb coverage.is_cjk text).
Proof.
  unfold coverage.is_safe.
  destruct (existsb coverage.is_cjk text) eqn:E; [|reflexivity].
  simpl. apply existsb_exists in E as (c & Hin & Hc).
  apply not_true_is_false. intros Hall.
  rewrite forallb_forall in Hall. specialize (Hall c Hin).
  rewrite Hc in Hall. simpl in Hall. rewrite orb_false_r in Hall.
  unfold coverage.is_cjk, between in *.
  apply andb_true_iff in Hc as [H1 H2].
  apply N.leb_le in H1, H2.
  apply orb_true_iff in Hall as [H|H]; apply andb_true_iff in H as [H3 H4];
    apply N.leb_le in H3, H4; lia.
Qed.

(** X8: [is_safe] accepts a text if and only if none of its code points is
    in U+4E00..U+9FFF; the second test of the function (line 37) never
    decides. *)
Theorem is_safe_iff_no_ideograph (text : str) :
  coverage.is_safe text = true <->
  forall c, In c text -> coverage.is_cjk c = false.
Proof.
  rewrite is_safe_spec, negb_true_iff. split.
  - intros H c Hc. destruct (coverage.is_cjk c) eqn:E; [|reflexivity].
    assert (Hex : existsb coverage.is_cjk text = true)
      by (apply existsb_exists; eauto).
    congruence.
  - intros H. apply not_true_is_false. intros Hex.
    apply existsb_exists in Hex as (c & Hin & Hc). rewrite (H c Hin) in Hc.
    discriminate.
Qed.

(** ** [load_word_list] *)

Lemma fold_add_new xs acc :
  fold_left add_new xs acc =
  acc ++ filter (fun x => negb (mem x acc)) (first_occurrences xs).
Proof.
  revert acc. induction xs as [|x xs IH]; intros acc; simpl.
  - now rewrite app_nil_r.
  - rewrite IH. unfold add_new. destruct (mem x acc) eqn:E; simpl.
    + f_equal. rewrite filter_filter. apply filter_ext. intros k.
      destruct (str_eqb k x) eqn:Ek; simpl; [|reflexivity].
      apply str_eqb_eq in Ek. subst. now rewrite E.
    + rewrite <- app_assoc. simpl. do 2 f_equal.
      rewrite filter_filter. apply filter_ext. intros k.
      unfold mem. rewrite existsb_app. simpl. rewrite orb_false_r.
      rewrite negb_orb. apply andb_comm.
Qed.

Lemma coverage_load_line acc l :
  coverage.load_line acc l =
  if truthy (strip l) && negb (is_comment (strip l))
  then add_new acc (strip l) else acc.
Proof.
  unfold coverage.load_line, is_comment, add_new.
  destruct (truthy (strip l)); [|reflexivity].
  destruct (startswith [NUMBER_SIGN] (strip l)); reflexivity.
Qed.

Lemma coverage_load_fold lines acc :
  fold_left coverage.load_line lines acc =
  fold_left add_new
    (filter (fun w => negb (is_comment w)) (filter truthy (map strip lines))) acc.
Proof.
  revert acc. induction lines as [|l lines IH]; intros acc; [reflexivity|].
  cbn [fold_left map filter]. rewrite IH, coverage_load_line.
  destruct (truthy (strip l)); [|reflexivity].
  cbn [filter andb]. destruct (negb (is_comment (strip l))); reflexivity.
Qed.

Lemma bulk_load_fold lines acc :
  fold_left bulk_generate.load_line lines acc =
  acc ++ filter truthy (map strip lines).
Proof.
  revert acc. induction lines as [|l lines IH]; intros acc; simpl.
  - now rewrite app_nil_r.
  - rewrite IH. unfold bulk_generate.load_line.
    destruct (truthy (strip l)); [now rewrite <- app_assoc | reflexivity].
Qed.

(** X9: the two [load_word_list] functions on an existing file.  The one
    of [bulk_generate.py] returns the stripped non-empty lines, comments
    and repeats included; the one of [coverage.py] returns, of these, the
    first occurrences of the lines that do not start with a number sign.
    The words are stripped and non-empty. *)
Theorem load_word_list_words (files : word_files) (filepath : str)
        (lines : list str) :
  files filepath = Some lines ->
  snd (bulk_generate.load_word_list files filepath) =
  filter truthy (map strip lines) /\
  snd (coverage.load_word_list files filepath) =
  first_occurrences
    (filter (fun w => negb (startswith [NUMBER_SIGN] w))
            (snd (bulk_generate.load_word_list files filepath))) /\
  NoDup (snd (coverage.load_word_list files filepath)) /\
  forall w, In w (snd (bulk_generate.load_word_list files filepath)) ->
            w <> [] /\ strip w = w.
Proof.
  intros Hf. unfold bulk_generate.load_word_list, coverage.load_word_list.
  rewrite Hf. simpl. rewrite bulk_load_fold, coverage_load_fold, fold_add_new.
  simpl.
  assert (E : forall l : list str, filter (fun x => negb (mem x [])) l = l).
  { intros l. apply filter_true. }
  rewrite E. split; [reflexivity|]. split; [reflexivity|].
  split; [apply NoDup_first_occurrences|].
  intros w Hw. apply filter_In in Hw as [Hw Ht].
  apply in_map_iff in Hw as (l & <- & _).
  split; [now apply truthy_true | apply strip_idempotent].
Qed.

(** ** The coverage counts *)

Lemma set_add_add_new x s : set_add x s = add_new s x.
Proof. unfold set_add, add_new. destruct (mem x s); reflexivity. Qed.

Lemma coverage_scan_chunks v e cs acc :
  fst (coverage.scan_chunks v e cs acc) =
  forallb (acceptable v e) (map (fun c => strip (chunk_chinese c)) cs) /\
  (forallb (acceptable v e) (map (fun c => strip (chunk_chinese c)) cs) = true ->
   snd (coverage.scan_chunks v e cs acc) =
   fold_left add_new
     (filter (counted v) (map (fun c => strip (chunk_chinese c)) cs)) acc).
Proof.
  revert acc. induction cs as [|c cs IH]; intros acc; [split; reflexivity|].
  cbn [coverage.scan_chunks map forallb filter].
  unfold acceptable at 1 3, counted at 1.
  rewrite <- is_safe_spec.
  destruct (truthy (strip (chunk_chinese c))) eqn:Et; cbn [negb orb andb].
  - destruct (mem (strip (chunk_chinese c)) v) eqn:Ev; cbn [orb andb].
    + rewrite set_add_add_new. apply IH.
    + destruct (mem (strip (chunk_chinese c)) e) eqn:Ee; cbn [orb andb].
      * apply IH.
      * destruct (coverage.is_safe (strip (chunk_chinese c))); cbn [andb].
        -- apply IH.
        -- split; [reflexivity | discriminate].
  - apply IH.
Qed.

Lemma dd_get_increment w k d :
  dd_get w 0 (increment d k) = dd_get w 0 d + (if str_eqb w k then 1 else 0).
Proof.
  unfold increment. rewrite !dd_get_lookup, lookup_dd_update.
  unfold str_eqb. destruct (str_eq_dec w k) as [->|]; simpl; [|lia].
  destruct (lookup k d); simpl; lia.
Qed.

Lemma dd_get_increments w ws d :
  dd_get w 0 (fold_left increment ws d) =
  dd_get w 0 d + length (filter (str_eqb w) ws).
Proof.
  revert d. induction ws as [|k ws IH]; intros d; simpl; [lia|].
  rewrite IH, dd_get_increment. destruct (str_eqb w k); simpl; lia.
Qed.

Lemma length_filter_perm {A : Type} (q : A -> bool) l l' :
  Permutation l l' -> length (filter q l) = length (filter q l').
Proof.
  induction 1; simpl; try lia.
  - destruct (q x); simpl; lia.
  - destruct (q x), (q y); simpl; lia.
Qed.

Lemma count_NoDup w (l : list str) :
  NoDup l -> length (filter (str_eqb w) l) = if mem w l then 1 else 0.
Proof.
  induction 1 as [|x l Hni _ IH]; [reflexivity|].
  simpl. unfold mem in *. simpl. destruct (str_eqb w x) eqn:E; simpl.
  - apply str_eqb_eq in E. subst x.
    apply mem_not_In in Hni. unfold mem in Hni. rewrite Hni in IH. lia.
  - exact IH.
Qed.

Lemma mem_filter w (q : str -> bool) l :
  mem w (filter q l) = q w && mem w l.
Proof.
  destruct (mem w (filter q l)) eqn:E.
  - apply mem_In, filter_In in E as [Hin Hq]. apply mem_In in Hin.
    now rewrite Hq, Hin.
  - apply mem_not_In in E. destruct (q w) eqn:Hq; [|reflexivity].
    destruct (mem w l) eqn:Hm; [|reflexivity]. exfalso. apply E.
    apply filter_In. split; [now apply mem_In | assumption].
Qed.

Lemma mem_first_occurrences w l : mem w (first_occurrences l) = mem w l.
Proof.
  destruct (mem w l) eqn:E.
  - apply mem_In. apply In_first_occurrences. now apply mem_In.
  - apply mem_not_In. rewrite In_first_occurrences. now apply mem_not_In.
Qed.

Section CoverageFacts.
Variable set_order : list str -> list str.
Hypothesis set_order_perm : forall l, Permutation (set_order l) l.
Variables vocab_set extra_set : list str.

Lemma cover_item_spec cov tot cs item :
  exists cov',
    coverage.cover_item set_order vocab_set extra_set (cov, tot, cs) item =
    (cov',
     tot + (if fully_covered vocab_set extra_set item then 1 else 0),
     cs ++ (if fully_covered vocab_set extra_set item then [item] else [])) /\
    forall w, dd_get w 0 cov' =
              dd_get w 0 cov +
              (if fully_covered vocab_set extra_set item &&
                  (counted vocab_set w && mem w (texts item))
               then 1 else 0).
Proof.
  unfold coverage.cover_item, fully_covered, texts.
  destruct (coverage_scan_chunks vocab_set extra_set (get (chunks item) []) [])
    as [Hf Hs].
  destruct (coverage.scan_chunks vocab_set extra_set (get (chunks item) []) [])
    as [r ws]. simpl in Hf, Hs. rewrite <- Hf.
  destruct r.
  - exists (fold_left increment (set_order ws) cov). split.
    + apply pair_equal_spec; split; [apply pair_equal_spec; split|]; (reflexivity || lia).
    + intros w. rewrite dd_get_increments.
      rewrite (length_filter_perm (str_eqb w) (set_order_perm ws)).
      rewrite Hs by (symmetry; exact Hf).
      rewrite fold_add_new. simpl. rewrite filter_true.
      rewrite count_NoDup by apply NoDup_first_occurrences.
      rewrite mem_first_occurrences, mem_filter. reflexivity.
  - exists cov. split.
    + rewrite app_nil_r. apply pair_equal_spec; split; [apply pair_equal_spec; split|]; (reflexivity || lia).
    + intros w. simpl. lia.
Qed.

Lemma cover_fold_spec sentences cov tot cs :
  exists cov',
    fold_left (coverage.cover_item set_order vocab_set extra_set) sentences
              (cov, tot, cs) =
    (cov',
     tot + length (filter (fully_covered vocab_set extra_set) sentences),
     cs ++ filter (fully_covered vocab_set extra_set) sentences) /\
    forall w, dd_get w 0 cov' =
              dd_get w 0 cov +
              (if counted vocab_set w
               then covering vocab_set extra_set sentences w else 0).
Proof.
  revert cov tot cs. induction sentences as [|item sentences IH]; intros cov tot cs.
  - exists cov. split; [simpl; rewrite app_nil_r; repeat f_equal; lia|].
    intros w. unfold covering. simpl. destruct (counted vocab_set w); lia.
  - destruct (cover_item_spec cov tot cs item) as (cov1 & E1 & H1).
    cbn [fold_left]. rewrite E1.
    destruct (IH cov1
                (tot + (if fully_covered vocab_set extra_set item then 1 else 0))
                (cs ++ (if fully_covered vocab_set extra_set item then [item] else [])))
      as (cov2 & E2 & H2).
    exists cov2. split.
    + rewrite E2. cbn [filter].
      destruct (fully_covered vocab_set extra_set item); simpl.
      * rewrite <- app_assoc. apply pair_equal_spec; split; [apply pair_equal_spec; split|]; (reflexivity || lia).
      * rewrite app_nil_r. apply pair_equal_spec; split; [apply pair_equal_spec; split|]; (reflexivity || lia).
    + intros w. rewrite H2, H1. unfold covering. cbn [filter].
      destruct (counted vocab_set w); cbn [andb].
      * destruct (fully_covered vocab_set extra_set item); cbn [andb].
        -- destruct (mem w (texts item)); simpl; lia.
        -- lia.
      * rewrite andb_false_r. lia.
Qed.
End CoverageFacts.

Lemma coverage_words_truthy files filepath w :
  In w (snd (coverage.load_word_list files filepath)) -> truthy w = true.
Proof.
  unfold coverage.load_word_list. destruct (files filepath) as [lines|]; simpl;
    [|contradiction].
  rewrite coverage_load_fold, fold_add_new. simpl. rewrite filter_true.
  rewrite In_first_occurrences. intros H.
  apply filter_In in H as [H _]. now apply filter_In in H as [_ H].
Qed.

Lemma coverage_words_missing files filepath :
  files filepath = None -> snd (coverage.load_word_list files filepath) = [].
Proof. unfold coverage.load_word_list. now intros ->. Qed.

Lemma flat_map_ext_in {A B : Type} (f g : A -> list B) l :
  (forall x, In x l -> f x = g x) -> flat_map f l = flat_map g l.
Proof.
  induction l as [|x l IH]; intros H; simpl; [reflexivity|].
  rewrite H by now left. rewrite IH; [reflexivity|]. intros y Hy. apply H. now right.
Qed.

Lemma length_filter_le {A : Type} (q : A -> bool) l :
  length (filter q l) <= length l.
Proof. induction l as [|x l IH]; simpl; [lia|]. destruct (q x); simpl; lia. Qed.

Lemma length_filter_and {A : Type} (q r : A -> bool) l :
  length (filter (fun x => q x && r x) l) <= length (filter q l).
Proof.
  induction l as [|x l IH]; simpl; [lia|].
  destruct (q x), (r x); simpl; lia.
Qed.

Lemma coverage_main_spec set_order files yaml_files a sentences :
  (forall l, Permutation (set_order l) l) ->
  vocabulary files a <> [] ->
  yaml_files (coverage.sentences a) = Some (Document sentences) ->
  coverage.main set_order files yaml_files a =
  Some (coverage_report files a sentences).
Proof.
  intros Hperm Hv Hy. unfold coverage.main, coverage_report.
  unfold vocabulary, extras in *.
  pose proof (@coverage_words_truthy files (coverage.word_list a)) as Ht.
  destruct (coverage.load_word_list files (coverage.word_list a))
    as [m1 vocab] eqn:El.
  cbn [fst snd] in Hv, Ht |- *.
  assert (Hm1 : m1 = []).
  { unfold coverage.load_word_list in El.
    destruct (files (coverage.word_list a)); inversion El; subst; congruence. }
  subst m1.
  destruct vocab as [|v0 vocab]; [congruence|].
  destruct (coverage.load_extra files a) as [m2 extra]. cbn [fst snd].
  rewrite Hy.
  destruct (@cover_fold_spec set_order Hperm (v0 :: vocab) extra sentences [] 0 [])
    as (cov & E & Hc).
  match goal with
  | |- context [fold_left ?f ?l ?i] =>
      match f with
      | coverage.cover_item _ _ _ =>
          replace (fold_left f l i) with
            (cov,
             0 + length (filter (fully_covered (v0 :: vocab) extra) sentences),
             [] ++ filter (fully_covered (v0 :: vocab) extra) sentences)
            by (symmetry; exact E)
      end
  end.
  cbn [plus app].
  assert (Hl : flat_map (coverage.coverage_line (coverage.limit a) cov
                           (length (v0 :: vocab)))
                        (enumerate_from 1 (v0 :: vocab)) =
               flat_map (covered_line (coverage.limit a) (v0 :: vocab) extra
                           sentences (length (v0 :: vocab)))
                        (enumerate_from 1 (v0 :: vocab))).
  { apply flat_map_ext_in. intros [i w] Hin.
    apply In_enumerate_from in Hin as [_ Hin]. apply nth_error_In in Hin.
    unfold coverage.coverage_line, covered_line. cbn [fst snd].
    rewrite Hc. unfold counted. rewrite (Ht w Hin).
    apply mem_In in Hin. rewrite Hin. cbn [andb dd_get plus].
    destruct (coverage.limit a) as [l|]; reflexivity. }
  rewrite Hl. unfold output_file.
  destruct (coverage.output a) as [o|]; [destruct (truthy o)|]; simpl;
    rewrite <- ?app_assoc; reflexivity.
Qed.

(** X10: the report of [coverage.main] when the word list is not empty and
    the sentences load: for each word of the vocabulary, in the order of
    the list, one line with the number of fully covered sentences that
    have the word as a chunk (no line when the limit is reached), then the
    totals, and the fully covered sentences in the output file.  No count
    exceeds the number of fully covered sentences.  The order in which
    Python iterates a set makes no difference. *)
Theorem coverage_main_report (set_order : list str -> list str)
        (files : word_files) (yaml_files : filesystem) (a : coverage.args)
        (sentences : list entry) :
  (forall l, Permutation (set_order l) l) ->
  vocabulary files a <> [] ->
  yaml_files (coverage.sentences a) = Some (Document sentences) ->
  coverage.main set_order files yaml_files a =
  Some (coverage_report files a sentences) /\
  forall w,
    covering (vocabulary files a) (extras files a) sentences w <=
    length (filter (fully_covered (vocabulary files a) (extras files a)) sentences)
    /\
    length (filter (fully_covered (vocabulary files a) (extras files a)) sentences)
    <= length sentences.
Proof.
  intros Hperm Hv Hy. split; [now apply coverage_main_spec|].
  intros w. split; [apply length_filter_and | apply length_filter_le].
Qed.

Lemma load_word_list_words_witness :
  snd (bulk_generate.load_word_list hsk_files (lit "hsk1.txt")) =
  filter truthy (map strip hsk_lines) /\
  snd (coverage.load_word_list hsk_files (lit "hsk1.txt")) =
  first_occurrences
    (filter (fun w => negb (startswith [NUMBER_SIGN] w))
            (snd (bulk_generate.load_word_list hsk_files (lit "hsk1.txt")))) /\
  NoDup (snd (coverage.load_word_list hsk_files (lit "hsk1.txt"))) /\
  forall w, In w (snd (bulk_generate.load_word_list hsk_files (lit "hsk1.txt"))) ->
            w <> [] /\ strip w = w.
Proof.
  apply (@load_word_list_words hsk_files (lit "hsk1.txt") hsk_lines).
  vm_compute. reflexivity.
Defined.

Lemma coverage_main_report_witness :
  coverage.main (fun l => l) hsk_files only_corpus coverage_args =
  Some (coverage_report hsk_files coverage_args nage_corpus) /\
  forall w,
    covering (vocabulary hsk_files coverage_args)
             (extras hsk_files coverage_args) nage_corpus w <=
    length (filter (fully_covered (vocabulary hsk_files coverage_args)
                                  (extras hsk_files coverage_args)) nage_corpus)
    /\
    length (filter (fully_covered (vocabulary hsk_files coverage_args)
                                  (extras hsk_files coverage_args)) nage_corpus)
    <= length nage_corpus.
Proof.
  apply (@coverage_main_report (fun l => l) hsk_files only_corpus coverage_args
           nage_corpus).
  - intros l. apply Permutation_refl.
  - vm_compute. discriminate.
  - vm_compute. reflexivity.
Defined.

Example coverage_of_nage_corpus :
  coverage.main (fun l => l) hsk_files only_corpus coverage_args =
  Some ([ coverage.CoverageLine false 1 2 (lit "那个") 3;
          coverage.CoverageLine true 2 2 (lit "你好") 0;
          coverage.Separator; coverage.TotalSentences 3;
          coverage.FullyCovered 3;
          coverage.Saved 3 (lit "covered.yml") ],
        Some (lit "covered.yml", nage_corpus)).
Proof. vm_compute. reflexivity. Qed.

Section GenerateSentencesFacts.
Import generate_sentences.

Lemma first_raise_None {A : Type} (body : A -> option ValueError) xs :
  first_raise body xs = None <-> Forall (fun x => body x = None) xs.
Proof.
  induction xs as [|x xs IH]; simpl.
  - split; [constructor | reflexivity].
  - destruct (body x) eqn:E.
    + split; [discriminate|]. intros H. inversion H; subst. congruence.
    + rewrite IH. split.
      * intros H. constructor; assumption.
      * intros H. now inversion H.
Qed.

Lemma first_raise_Some {A : Type} (body : A -> option ValueError) xs e :
  first_raise body xs = Some e ->
  exists n x, nth_error xs n = Some x /\ body x = Some e /\
              Forall (fun y => body y = None) (firstn n xs).
Proof.
  induction xs as [|x xs IH]; simpl; [discriminate|].
  destruct (body x) eqn:E.
  - intros H. injection H as <-. exists 0, x. simpl. repeat split; auto.
  - intros H. destruct (IH H) as (n & y & Hn & Hy & Hall).
    exists (S n), y. simpl. repeat split; auto.
Qed.

Lemma is_string_field_true field d :
  is_string_field field d = true <-> exists s, lookup field d = Some (JString s).
Proof.
  unfold is_string_field. destruct (lookup field d) as [[]|]; split;
    try discriminate; try (intros [s Hs]; discriminate).
  - intros _. eauto.
  - reflexivity.
Qed.

Lemma validate_chunk_None idx cidx c :
  validate_chunk idx (cidx, c) = None <-> valid_chunk c.
Proof.
  unfold validate_chunk, valid_chunk. destruct c;
    try (split; [discriminate | intros (d & Hd & _); discriminate]).
  rewrite first_raise_None, Forall_forall. split.
  - intros H. exists members. split; [reflexivity|]. intros field Hf.
    specialize (H field Hf). apply is_string_field_true.
    destruct (is_string_field field members); [reflexivity | discriminate].
  - intros (d & Hd & H). injection Hd as <-. intros field Hf.
    apply H, is_string_field_true in Hf. now rewrite Hf.
Qed.

Lemma enumerate_from_Forall {A : Type} (P : nat -> A -> Prop) (Q : A -> Prop) l n :
  (forall i x, P i x <-> Q x) ->
  Forall (fun ix => P (fst ix) (snd ix)) (enumerate_from n l) <-> Forall Q l.
Proof.
  intros H. revert n. induction l as [|x l IH]; intros n.
  - split; constructor.
  - rewrite enumerate_from_cons. split; intros Hall; inversion Hall; subst;
      constructor; try (apply (IH (S n)); assumption).
    + now apply (H n x).
    + now apply (H n x).
Qed.

Lemma validate_item_None idx item :
  validate_item (idx, item) = None <-> valid_item item.
Proof.
  unfold validate_item, valid_item. destruct item;
    try (split; [discriminate | intros (d & Hd & _); discriminate]).
  split.
  - intros H. exists members. split; [reflexivity|].
    destruct (is_string_field (lit "english") members) eqn:Ee; [|discriminate].
    simpl in H. split; [now apply is_string_field_true|].
    destruct (lookup (lit "chunks") members) as [[]|]; try discriminate.
    exists items. split; [reflexivity|].
    apply first_raise_None in H. unfold enumerate in H.
    apply (enumerate_from_Forall (fun i c => validate_chunk idx (i, c) = None)
             valid_chunk items 0 (fun i c => validate_chunk_None idx i c)).
    eapply Forall_impl; [|exact H]. intros [i c]. simpl. auto.
  - intros (d & Hd & He & cs & Hc & Hall). injection Hd as <-.
    apply is_string_field_true in He. rewrite He, Hc. simpl.
    apply first_raise_None. unfold enumerate.
    apply (enumerate_from_Forall (fun i c => validate_chunk idx (i, c) = None)
             valid_chunk cs 0 (fun i c => validate_chunk_None idx i c)) in Hall.
    eapply Forall_impl; [|exact Hall]. intros [i c]. simpl. auto.
Qed.

Lemma validate_data_None (data : json) :
  validate_data data = None <->
  exists items, data = JList items /\ Forall valid_item items.
Proof.
  unfold validate_data. destruct data;
    try (split; [discriminate | intros (l & Hl & _); discriminate]).
  rewrite first_raise_None. unfold enumerate.
  pose proof (enumerate_from_Forall (fun i c => validate_item (i, c) = None)
                valid_item items 0 validate_item_None) as H.
  split.
  - intros Hall. exists items. split; [reflexivity|]. apply H.
    eapply Forall_impl; [|exact Hall]. intros [i c]. simpl. auto.
  - intros (l & Hl & Hall). injection Hl as <-. apply H in Hall.
    eapply Forall_impl; [|exact Hall]. intros [i c]. simpl. auto.
Qed.

(** X11: [validate_data] returns without an exception exactly on a list
    of objects, each with a string under [english] and, under [chunks], a
    list of objects that have a string under each of [chinese], [pinyin]
    and [transliteration]. *)
Theorem validate_data_accepts (data : json) :
  validate_data data = None <->
  exists items, data = JList items /\ Forall valid_item items.
Proof. apply validate_data_None. Qed.

Lemma nth_error_enumerate_from {A : Type} (l : list A) m n i x :
  nth_error (enumerate_from m l) n = Some (i, x) ->
  i = m + n /\ nth_error l n = Some x.
Proof.
  revert m n. induction l as [|y l IH]; intros m n.
  - destruct n; discriminate.
  - rewrite enumerate_from_cons. destruct n as [|n]; simpl.
    + intros H. inversion H; subst. split; [lia | reflexivity].
    + intros H. apply IH in H as [-> H]. split; [lia | assumption].
Qed.

Lemma firstn_enumerate_from {A : Type} (l : list A) m n :
  firstn n (enumerate_from m l) = enumerate_from m (firstn n l).
Proof.
  revert m n. induction l as [|y l IH]; intros m n.
  - now rewrite !firstn_nil.
  - destruct n as [|n]; [reflexivity|].
    rewrite enumerate_from_cons. simpl firstn. rewrite enumerate_from_cons.
    now rewrite IH.
Qed.

(** X12: the [ValueError] of [validate_data] on a list names the first
    item that is not valid: the items before it are valid, and the list
    cut before it is accepted. *)
Theorem validate_data_first_error (items : list json) (e : ValueError) :
  validate_data (JList items) = Some e ->
  exists idx item,
    error_item e = Some idx /\
    nth_error items idx = Some item /\
    ~ valid_item item /\
    Forall valid_item (firstn idx items) /\
    validate_data (JList (firstn idx items)) = None.
Proof.
  unfold validate_data at 1. intros H.
  apply first_raise_Some in H as (n & [i item] & Hn & He & Hall).
  unfold enumerate in Hn, Hall.
  change (combine (seq 0 (length items)) items)
    with (enumerate_from 0 items) in Hn, Hall.
  apply nth_error_enumerate_from in Hn as [-> Hitem].
  change (0 + n) with n in He.
  assert (Hvalid : Forall valid_item (firstn n items)).
  { rewrite firstn_enumerate_from in Hall.
    apply (enumerate_from_Forall (fun i c => validate_item (i, c) = None)
             valid_item (firstn n items) 0 validate_item_None).
    eapply Forall_impl; [|exact Hall]. intros [i c]. simpl. auto. }
  exists n, item. split; [|split; [exact Hitem|split; [|split; [exact Hvalid|]]]].
  - unfold validate_item in He. destruct item; simpl in He;
      try (injection He as <-; reflexivity).
    destruct (negb (is_string_field (lit "english") members));
      [injection He as <-; reflexivity|].
    destruct (lookup (lit "chunks") members) as [[]|];
      try (injection He as <-; reflexivity).
    apply first_raise_Some in He as (k & [ci c] & _ & Hc & _).
    unfold validate_chunk in Hc. destruct c;
      try (injection Hc as <-; reflexivity).
    apply first_raise_Some in Hc as (k' & f & _ & Hf & _).
    destruct (is_string_field f members0); [discriminate|].
    injection Hf as <-. reflexivity.
  - intros Hv. apply (validate_item_None n) in Hv. congruence.
  - apply validate_data_None. eauto.
Qed.

Lemma validate_data_first_error_witness :
  exists idx item,
    error_item (InvalidField 0 1 (lit "pinyin")) = Some idx /\
    nth_error sample_response idx = Some item /\
    ~ valid_item item /\
    Forall valid_item (firstn idx sample_response) /\
    validate_data (JList (firstn idx sample_response)) = None.
Proof.
  apply (@validate_data_first_error sample_response
           (InvalidField 0 1 (lit "pinyin"))).
  vm_compute. reflexivity.
Defined.

(** ** The code fence around a response *)

Lemma startswith_app (sub rest : str) : startswith sub (sub ++ rest) = true.
Proof.
  induction sub as [|c sub IH]; [reflexivity|]. simpl.
  now rewrite N.eqb_refl.
Qed.

Lemma find_char_first (c : char) (pre rest : str) i :
  ~ In c pre -> find_from i [c] (pre ++ c :: rest) = Some (i + length pre).
Proof.
  revert i. induction pre as [|a pre IH]; intros i Hni; simpl.
  - rewrite N.eqb_refl. simpl. f_equal. lia.
  - assert (E : (c =? a)%N = false).
    { apply N.eqb_neq. intros ->. apply Hni. now left. }
    rewrite E. simpl. rewrite IH by (intros H; apply Hni; now right).
    f_equal. lia.
Qed.

Lemma startswith_length sub s : startswith sub s = true -> length sub <= length s.
Proof.
  revert s. induction sub as [|c sub IH]; intros s; simpl; [lia|].
  destruct s as [|d s]; [discriminate|]. intros H.
  apply andb_true_iff in H as [_ H]. apply IH in H. simpl. lia.
Qed.

Lemma rfind_short sub s i :
  length s < length sub -> rfind_from i sub s = None.
Proof.
  revert i. induction s as [|d s IH]; intros i Hl; simpl.
  - destruct sub; [simpl in Hl; lia | reflexivity].
  - rewrite IH by (simpl in Hl; lia).
    destruct (startswith sub (d :: s)) eqn:E; [|reflexivity].
    apply startswith_length in E. lia.
Qed.

Lemma rfind_suffix (sub pre : str) i :
  sub <> [] -> rfind_from i sub (pre ++ sub) = Some (i + length pre).
Proof.
  intros Hne. revert i. induction pre as [|a pre IH]; intros i.
  - simpl app. destruct sub as [|c sub]; [congruence|].
    cbn [rfind_from]. rewrite rfind_short by (simpl; lia).
    rewrite <- (app_nil_r (c :: sub)) at 2.
    rewrite startswith_app. f_equal. simpl. lia.
  - simpl app. cbn [rfind_from]. rewrite IH. f_equal. simpl. lia.
Qed.

Lemma rfind_absent (c : char) (sub s : str) i :
  ~ In c s -> rfind_from i (c :: sub) s = None.
Proof.
  revert i. induction s as [|d s IH]; intros i Hni; [reflexivity|].
  cbn [rfind_from]. rewrite IH by (intros H; apply Hni; now right).
  simpl. assert (E : (c =? d)%N = false).
  { apply N.eqb_neq. intros ->. apply Hni. now left. }
  now rewrite E.
Qed.

Lemma find_from_ge sub s i n : find_from i sub s = Some n -> i <= n.
Proof.
  revert i. induction s as [|d s IH]; intros i; simpl.
  - destruct (startswith sub []); [|discriminate]. intros H. injection H. lia.
  - destruct (startswith sub (d :: s)).
    + intros H. injection H. lia.
    + intros H. apply IH in H. lia.
Qed.

Lemma find_char_present (c : char) s i :
  In c s -> exists n, find_from i [c] s = Some n.
Proof.
  revert i. induction s as [|d s IH]; intros i; [contradiction|].
  intros Hin. simpl. destruct (c =? d)%N eqn:E; simpl; [eauto|].
  apply IH. destruct Hin as [->|Hin]; [|assumption].
  now rewrite N.eqb_refl in E.
Qed.

Lemma slice_middle (a b c : str) :
  slice (a ++ b ++ c) (length a) (length (a ++ b)) = b.
Proof.
  unfold slice. rewrite skipn_app, skipn_all, Nat.sub_diag. simpl skipn.
  rewrite app_nil_l, length_app.
  replace (length a + length b - length a) with (length b) by lia.
  rewrite firstn_app, firstn_all, Nat.sub_diag. simpl. apply app_nil_r.
Qed.

Lemma clean_response_sliced (response_text X : str) a b :
  strip response_text = X ->
  startswith FENCE X = true ->
  str_find NEWLINE X = Some a -> str_rfind FENCE X = Some b ->
  clean_response response_text = strip (slice X a b).
Proof.
  intros Hs Hst Hf Hr. unfold clean_response. rewrite Hs, Hst, Hf, Hr.
  reflexivity.
Qed.

Lemma clean_fenced (response_text tag body : str) :
  strip response_text = FENCE ++ tag ++ NEWLINE ++ body ++ FENCE ->
  ~ In 10%N tag ->
  clean_response response_text = strip body.
Proof.
  intros Hs Htag.
  rewrite (@clean_response_sliced response_text _
             (length (FENCE ++ tag))
             (length ((FENCE ++ tag) ++ NEWLINE ++ body)) Hs).
  - transitivity (strip (NEWLINE ++ body)); [|reflexivity].
    apply (f_equal strip).
    exact (slice_middle (FENCE ++ tag) (NEWLINE ++ body) FENCE).
  - apply startswith_app.
  - apply (@find_char_first 10%N (FENCE ++ tag) (body ++ FENCE) 0).
    intros H. apply in_app_or in H as [H|H]; [|contradiction].
    unfold FENCE in H. simpl in H. intuition discriminate.
  - transitivity (rfind_from 0 FENCE (((FENCE ++ tag) ++ NEWLINE ++ body) ++ FENCE)).
    + unfold str_rfind. apply (f_equal (rfind_from 0 FENCE)).
      now rewrite <- !app_assoc.
    + apply (@rfind_suffix FENCE ((FENCE ++ tag) ++ NEWLINE ++ body) 0).
      discriminate.
Qed.

Lemma startswith_absent (c : char) (sub s : str) :
  ~ In c s -> startswith (c :: sub) s = false.
Proof.
  destruct s as [|d s]; [reflexivity|]. intros Hni. simpl.
  assert (E : (c =? d)%N = false).
  { apply N.eqb_neq. intros ->. apply Hni. now left. }
  now rewrite E.
Qed.

Lemma rfind_here (sub r : str) (d : char) i :
  rfind_from (S i) sub r = None -> startswith sub (d :: r) = true ->
  rfind_from i sub (d :: r) = Some i.
Proof. intros H1 H2. cbn [rfind_from]. now rewrite H1, H2. Qed.

Lemma rfind_not_here (sub r : str) (d : char) i :
  rfind_from (S i) sub r = None -> startswith sub (d :: r) = false ->
  rfind_from i sub (d :: r) = None.
Proof. intros H1 H2. cbn [rfind_from]. now rewrite H1, H2. Qed.

Lemma rfind_opening_fence (rest : str) :
  ~ In 96%N rest -> rfind_from 0 FENCE (FENCE ++ rest) = Some 0.
Proof.
  intros Hbt.
  assert (H0 : forall sub, startswith (96%N :: sub) rest = false)
    by (intros sub; now apply startswith_absent).
  apply rfind_here; [|exact (startswith_app FENCE rest)].
  apply rfind_not_here.
  - apply rfind_not_here.
    + now apply rfind_absent.
    + change (startswith [96%N; 96%N] rest = false). apply H0.
  - change (startswith [96%N] rest = false). apply H0.
Qed.

Lemma clean_unterminated (response_text rest : str) :
  strip response_text = FENCE ++ rest ->
  In 10%N rest -> ~ In 96%N rest ->
  clean_response response_text = [].
Proof.
  intros Hs Hnl Hbt.
  destruct (@find_char_present 10%N (FENCE ++ rest) 0) as [n Hn];
    [apply in_or_app; now right|].
  rewrite (@clean_response_sliced response_text _ n 0 Hs).
  - unfold slice. reflexivity.
  - apply startswith_app.
  - exact Hn.
  - now apply rfind_opening_fence.
Qed.

(** X13: a response that is, up to surrounding white space, a code fence
    with a tag line, a body and a closing fence is reduced to the stripped
    body (lines 154-160 of [generate_for_word]). *)
Theorem fenced_response_unwrapped (response_text tag body : str) :
  strip response_text = FENCE ++ tag ++ NEWLINE ++ body ++ FENCE ->
  ~ In 10%N tag ->
  clean_response response_text = strip body.
Proof. apply clean_fenced. Qed.

(** X14: a response that opens a code fence and never closes it is
    reduced to the empty string: [rfind] finds the opening fence, and the
    slice from the first line feed to index 0 is empty. *)
Theorem unterminated_fence_empties (response_text rest : str) :
  strip response_text = FENCE ++ rest ->
  In 10%N rest -> ~ In 96%N rest ->
  clean_response response_text = [].
Proof. apply clean_unterminated. Qed.

Lemma fenced_response_unwrapped_witness :
  clean_response ([32%N] ++ FENCE ++ lit "json" ++ NEWLINE ++
                  (lit "[1]" ++ NEWLINE) ++ FENCE ++ NEWLINE) =
  strip (lit "[1]" ++ NEWLINE).
Proof.
  apply (@fenced_response_unwrapped
           ([32%N] ++ FENCE ++ lit "json" ++ NEWLINE ++
            (lit "[1]" ++ NEWLINE) ++ FENCE ++ NEWLINE)
           (lit "json") (lit "[1]" ++ NEWLINE)).
  - vm_compute. reflexivity.
  - vm_compute. intuition discriminate.
Defined.

Lemma unterminated_fence_empties_witness :
  clean_response (FENCE ++ lit "json" ++ NEWLINE ++ lit "[1]") = [].
Proof.
  apply (@unterminated_fence_empties
           (FENCE ++ lit "json" ++ NEWLINE ++ lit "[1]")
           (lit "json" ++ NEWLINE ++ lit "[1]")).
  - vm_compute. reflexivity.
  - vm_compute. auto 10.
  - vm_compute. intuition discriminate.
Defined.

End GenerateSentencesFacts.

Section BulkGenerateFacts.
Import bulk_generate.

Section CountFacts.
Variable set_order : list str -> list str.
Hypothesis set_order_perm : forall l, Permutation (set_order l) l.

Lemma count_item_get (T : list str) counts item w :
  dd_get w 0 (count_item T counts item) =
  dd_get w 0 counts +
  (if contains w (sentence_text item) then length (filter (str_eqb w) T) else 0).
Proof.
  unfold count_item. fold (sentence_text item).
  revert counts. induction T as [|t T IH]; intros counts; simpl.
  - destruct (contains w (sentence_text item)); lia.
  - rewrite IH. destruct (str_eqb w t) eqn:E.
    + apply str_eqb_eq in E. subst t.
      destruct (contains w (sentence_text item)); simpl.
      * rewrite dd_get_increment, str_eqb_refl. lia.
      * lia.
    + destruct (contains t (sentence_text item)).
      * rewrite dd_get_increment, E. lia.
      * lia.
Qed.

Lemma count_items_get (T : list str) data counts w :
  dd_get w 0 (fold_left (count_item T) data counts) =
  dd_get w 0 counts + length (filter (str_eqb w) T) * sentences_with w data.
Proof.
  unfold sentences_with.
  revert counts. induction data as [|item data IH]; intros counts; simpl.
  - lia.
  - rewrite IH, count_item_get.
    destruct (contains w (sentence_text item)); simpl; lia.
Qed.

Lemma word_set_count words w :
  length (filter (str_eqb w) (word_set set_order words)) =
  if mem w words then 1 else 0.
Proof.
  unfold word_set.
  rewrite (length_filter_perm (str_eqb w) (set_order_perm (first_occurrences words))).
  rewrite count_NoDup by apply NoDup_first_occurrences.
  now rewrite mem_first_occurrences.
Qed.

Lemma word_set_counts words data counts w :
  dd_get w 0 (fold_left (count_item (word_set set_order words)) data counts) =
  dd_get w 0 counts + expected_count words data w.
Proof.
  rewrite count_items_get, word_set_count. unfold expected_count.
  destruct (mem w words); lia.
Qed.

Lemma get_sentence_counts_get files output_file words w :
  dd_get w 0 (snd (get_sentence_counts set_order files output_file words)) =
  expected_count words (file_data files output_file) w.
Proof.
  unfold get_sentence_counts, file_data.
  destruct (files output_file) as [[e|data]|]; simpl.
  - unfold expected_count, sentences_with. destruct (mem w words); reflexivity.
  - now rewrite word_set_counts.
  - unfold expected_count, sentences_with. destruct (mem w words); reflexivity.
Qed.
End CountFacts.

(** X15: [get_sentence_counts] counts, for every word of the list, the
    sentences of the output file whose concatenated Chinese text contains
    the word as a substring, chunk boundaries notwithstanding; a word
    outside the list counts 0. *)
Theorem sentence_counts_by_substring (set_order : list str -> list str)
        (files : filesystem) (output_file : str) (words : list str) (w : str) :
  (forall l, Permutation (set_order l) l) ->
  dd_get w 0 (snd (get_sentence_counts set_order files output_file words)) =
  if mem w words
  then length (filter (fun item => contains w (sentence_text item))
                      (file_data files output_file))
  else 0.
Proof. intros H. now apply get_sentence_counts_get. Qed.

(** ** The retry loop of [bulk_generate.main] *)

Section RetryLoop.
Variable generate_for_word : generator.
Variable a : args.
Variable T : list str.

Lemma extends_refl out st : extends generate_for_word out st st.
Proof.
  constructor.
  - intros _. exists []. rewrite app_nil_r. split; [reflexivity | simpl; lia].
  - reflexivity.
  - exists []. rewrite app_nil_r. split; [reflexivity | tauto].
Qed.

Lemma extends_trans out st1 st2 st3 :
  extends generate_for_word out st1 st2 ->
  extends generate_for_word out st2 st3 ->
  extends generate_for_word out st1 st3.
Proof.
  intros [Ha1 Hf1 (m1 & Hm1 & Hs1)] [Ha2 Hf2 (m2 & Hm2 & Hs2)].
  constructor.
  - intros Hu. destruct (Ha1 Hu) as (a1 & Ha1' & Hn1).
    destruct (Ha2 Hu) as (a2 & Ha2' & Hn2).
    exists (a1 ++ a2). rewrite Ha2', Ha1', Hn2, Hn1, length_app, <- app_assoc.
    split; [reflexivity | lia].
  - intros f Hf Hu. now rewrite Hf2, Hf1.
  - exists (m1 ++ m2). rewrite Hm2, Hm1, <- app_assoc. split; [reflexivity|].
    intros H. apply in_app_or in H. tauto.
Qed.

Lemma extends_print out m st :
  m <> Stopping -> extends generate_for_word out st (print m st).
Proof.
  intros Hm. constructor; simpl.
  - intros _. exists []. rewrite app_nil_r. split; [reflexivity | simpl; lia].
  - reflexivity.
  - exists [m]. split; [reflexivity|]. intros [H|[]]. congruence.
Qed.

Lemma file_data_untouched n files word f :
  untouched generate_for_word f ->
  file_data (fst (generate_for_word n files word)) f = file_data files f.
Proof. intros Hu. unfold file_data. now rewrite Hu. Qed.

Lemma append_to_output_data files new files' :
  append_to_output files (output a) new = inl files' ->
  file_data files' (output a) = file_data files (output a) ++ new /\
  forall f, f <> output a -> files' f = files f.
Proof.
  unfold append_to_output, file_data.
  destruct (files (output a)) as [[e|data]|] eqn:E; intros H;
    try discriminate; injection H as <-.
  - split.
    + destruct (str_eq_dec (output a) (output a)); [reflexivity | congruence].
    + intros f Hf. destruct (str_eq_dec f (output a)); [congruence | reflexivity].
  - split.
    + destruct (str_eq_dec (output a) (output a)); [reflexivity | congruence].
    + intros f Hf. destruct (str_eq_dec f (output a)); [congruence | reflexivity].
Qed.

Lemma try_word_ok word st n st' :
  try_word generate_for_word a T word st = inl (n, st') ->
  extends generate_for_word (output a) st st' /\
  (untouched generate_for_word (output a) ->
   in_sync a T st -> in_sync a T st') /\
  consecutive_failures st' = 0 /\ calls st' = S (calls st) /\
  printed st' = printed st.
Proof.
  unfold try_word.
  pose proof (fun f => @file_data_untouched (calls st) (fs st) word f) as Hdata.
  pose proof (fun f (Hu : untouched generate_for_word f) =>
                Hu (calls st) (fs st) word) as Hfile.
  destruct (generate_for_word (calls st) (fs st) word) as [files result].
  cbn [fst] in Hdata, Hfile.
  destruct result as [sentences|e]; [|discriminate].
  destruct (append_to_output files (output a) sentences) as [files'|e] eqn:Ea;
    [|discriminate].
  intros H. injection H as <- <-.
  apply append_to_output_data in Ea as [Hd Hf]. simpl.
  split; [|split; [|auto]].
  - constructor; simpl.
    + intros Hu. exists sentences. rewrite Hd, (Hdata _ Hu).
      split; reflexivity.
    + intros f Hne Hu. now rewrite Hf, Hfile.
    + exists []. rewrite app_nil_r. split; [reflexivity | tauto].
  - intros Hu Hs w. simpl. rewrite count_items_get, Hs, Hd, (Hdata _ Hu).
    unfold sentences_with. rewrite filter_app, length_app. lia.
Qed.

Lemma try_word_failed word st files e :
  try_word generate_for_word a T word st = inr (files, e) ->
  extends generate_for_word (output a) st (failed files st) /\
  (untouched generate_for_word (output a) ->
   in_sync a T st -> in_sync a T (failed files st)).
Proof.
  unfold try_word.
  pose proof (fun f => @file_data_untouched (calls st) (fs st) word f) as Hdata.
  pose proof (fun f (Hu : untouched generate_for_word f) =>
                Hu (calls st) (fs st) word) as Hfile.
  destruct (generate_for_word (calls st) (fs st) word) as [files1 result].
  cbn [fst] in Hdata, Hfile.
  assert (Hgoal : extends generate_for_word (output a) st (failed files1 st) /\
                  (untouched generate_for_word (output a) ->
                   in_sync a T st -> in_sync a T (failed files1 st))).
  { split.
    - constructor; simpl.
      + intros Hu. exists []. rewrite app_nil_r, (Hdata _ Hu).
        split; [reflexivity | simpl; lia].
      + intros f _ Hu. now apply Hfile.
      + exists []. rewrite app_nil_r. split; [reflexivity | tauto].
    - intros Hu Hs w. simpl. rewrite (Hdata _ Hu). apply Hs. }
  destruct result as [sentences|e'].
  - destruct (append_to_output files1 (output a) sentences); [discriminate|].
    intros [= <- <-]. exact Hgoal.
  - intros [= <- <-]. exact Hgoal.
Qed.

Lemma attempts_spec i num_words word remaining attempt st :
  let r := attempts generate_for_word a T i num_words word remaining attempt st in
  extends generate_for_word (output a) st (snd r) /\
  (untouched generate_for_word (output a) ->
   in_sync a T st -> in_sync a T (snd r)) /\
  (fst r = true -> consecutive_failures (snd r) = 0) /\
  (consecutive_failures st < 5 -> consecutive_failures (snd r) <= 5) /\
  calls (snd r) <= calls st + remaining.
Proof.
  revert attempt st. induction remaining as [|remaining IH]; intros attempt st.
  - simpl. split; [apply extends_refl|].
    repeat split; auto; try lia; discriminate.
  - cbn [attempts].
    destruct (try_word generate_for_word a T word st) as [[n st']|[files e]] eqn:Et.
    + apply try_word_ok in Et as (He & Hs & Hc & Hk & _). cbn [fst snd].
      split; [|split; [|split; [|split]]].
      * eapply extends_trans; [exact He|]. apply extends_print. discriminate.
      * intros Hu H. exact (Hs Hu H).
      * intros _. exact Hc.
      * intros _. cbn. lia.
      * cbn. lia.
    + apply try_word_failed in Et as [Hef Hsf].
      set (st1 := print _ (failed files st)).
      assert (He1 : extends generate_for_word (output a) st st1).
      { eapply extends_trans; [exact Hef|].
        apply extends_print. discriminate. }
      assert (Hc1 : consecutive_failures st1 = S (consecutive_failures st))
        by reflexivity.
      assert (Hk1 : calls st1 = S (calls st)) by reflexivity.
      assert (Hs1 : untouched generate_for_word (output a) ->
                    in_sync a T st -> in_sync a T st1)
        by (intros Hu H w; apply (Hsf Hu H)).
      destruct (5 <=? consecutive_failures st1) eqn:E5.
      * cbn [fst snd]. split; [exact He1|].
        split; [exact Hs1|]. split; [discriminate|]. split; lia.
      * apply Nat.leb_gt in E5.
        set (st2 := if (Z.of_nat attempt <? retries a)%Z then _ else st1).
        assert (He2 : extends generate_for_word (output a) st1 st2).
        { subst st2. destruct (Z.of_nat attempt <? retries a)%Z;
            [apply extends_print; discriminate | apply extends_refl]. }
        assert (Hc2 : consecutive_failures st2 = consecutive_failures st1)
          by (subst st2; destruct (Z.of_nat attempt <? retries a)%Z; reflexivity).
        assert (Hk2 : calls st2 = calls st1)
          by (subst st2; destruct (Z.of_nat attempt <? retries a)%Z; reflexivity).
        assert (Hs2 : in_sync a T st1 -> in_sync a T st2).
        { subst st2. destruct (Z.of_nat attempt <? retries a)%Z; [|auto].
          intros H w. apply H. }
        destruct (IH (S attempt) st2) as (He & Hs & Hc & Hb & Hk).
        split; [|split; [|split; [|split]]].
        -- eapply extends_trans; [exact He1|].
           eapply extends_trans; [exact He2 | exact He].
        -- auto.
        -- exact Hc.
        -- intros _. apply Hb. lia.
        -- lia.
Qed.

Lemma words_loop_spec num_words iws st :
  consecutive_failures st < 5 ->
  let st' := words_loop generate_for_word a T num_words iws st in
  extends generate_for_word (output a) st st' /\
  (untouched generate_for_word (output a) ->
   in_sync a T st -> in_sync a T st') /\
  consecutive_failures st' <= 5 /\
  calls st' <= calls st + length iws * Z.to_nat (retries a + 1).
Proof.
  revert st. induction iws as [|[i word] iws IH]; intros st Hc.
  - simpl. split; [apply extends_refl|]. repeat split; auto; lia.
  - cbn [words_loop].
    destruct (5 <=? consecutive_failures st) eqn:E5;
      [apply Nat.leb_le in E5; lia|].
    destruct (Z.of_nat (dd_get word 0%nat (counts st)) <? limit a)%Z.
    + set (st1 := print _ st).
      assert (He1 : extends generate_for_word (output a) st st1)
        by (apply extends_print; discriminate).
      pose proof (attempts_spec i num_words word (Z.to_nat (retries a + 1)) 0 st1)
        as (He & Hs & Hok & Hb & Hk).
      destruct (attempts generate_for_word a T i num_words word
                         (Z.to_nat (retries a + 1)) 0 st1) as [success st2].
      cbn [fst snd] in *.
      assert (Hc2 : consecutive_failures st2 <= 5) by (apply Hb; exact Hc).
      assert (Hk1 : calls st1 = calls st) by reflexivity.
      destruct (negb success && (5 <=? consecutive_failures st2)) eqn:Eb.
      * split; [eapply extends_trans; eauto|]. split; [|split].
        -- intros Hu H. apply (Hs Hu). intros w. apply H.
        -- exact Hc2.
        -- simpl. lia.
      * assert (Hlt : consecutive_failures st2 < 5).
        { destruct success; [rewrite Hok by reflexivity; lia|].
          cbn [negb andb] in Eb. apply Nat.leb_gt in Eb. exact Eb. }
        destruct (IH st2 Hlt) as (He' & Hs' & Hc' & Hk').
        split; [|split; [|split]].
        -- eapply extends_trans; [exact He1|].
           eapply extends_trans; [exact He | exact He'].
        -- intros Hu H. apply (Hs' Hu), (Hs Hu). intros w. apply H.
        -- exact Hc'.
        -- simpl. lia.
    + set (st1 := print _ st).
      assert (He1 : extends generate_for_word (output a) st st1)
        by (apply extends_print; discriminate).
      destruct (IH st1 Hc) as (He' & Hs' & Hc' & Hk').
      split; [eapply extends_trans; eauto|]. split; [|split].
      * intros Hu H. apply (Hs' Hu). intros w. apply H.
      * exact Hc'.
      * assert (Hk1 : calls st1 = calls st) by reflexivity. simpl. lia.
Qed.
End RetryLoop.

Lemma load_word_list_printed word_lists filepath :
  ~ In Stopping (fst (load_word_list word_lists filepath)).
Proof.
  unfold load_word_list. destruct (word_lists filepath); simpl; [tauto|].
  intros [H|[]]. discriminate.
Qed.

Lemma get_sentence_counts_printed set_order files output_file words :
  ~ In Stopping (fst (get_sentence_counts set_order files output_file words)).
Proof.
  unfold get_sentence_counts. destruct (files output_file) as [[e|data]|]; simpl;
    try tauto.
  intros [H|[]]. discriminate.
Qed.

Lemma main_loop set_order generate_for_word word_lists files a :
  snd (load_word_list word_lists (word_list a)) <> [] ->
  exists m,
    m <> Stopping /\
    main set_order generate_for_word word_lists files a =
    print m
      (words_loop generate_for_word a
         (word_set set_order (snd (load_word_list word_lists (word_list a))))
         (length (snd (load_word_list word_lists (word_list a))))
         (enumerate_from 1 (snd (load_word_list word_lists (word_list a))))
         (loop_start set_order word_lists files a)).
Proof.
  unfold main, loop_start.
  destruct (load_word_list word_lists (word_list a)) as [m words]. simpl.
  intros Hne. destruct words as [|w0 words]; [congruence|].
  destruct (get_sentence_counts set_order files (output a) (w0 :: words))
    as [m' c]. simpl.
  match goal with
  | |- context [if ?b then _ else _] => destruct b
  end; eexists; (split; [|reflexivity]); discriminate.
Qed.

Lemma main_no_words set_order generate_for_word word_lists files a :
  snd (load_word_list word_lists (word_list a)) = [] ->
  main set_order generate_for_word word_lists files a =
  {| fs := files; counts := []; consecutive_failures := 0;
     total_new_count := 0; calls := 0;
     printed := fst (load_word_list word_lists (word_list a)) |}.
Proof.
  unfold main.
  destruct (load_word_list word_lists (word_list a)) as [m words]. simpl.
  now intros ->.
Qed.

Lemma enumerate_from_length {A : Type} n (l : list A) :
  length (enumerate_from n l) = length l.
Proof.
  unfold enumerate_from. rewrite length_combine, length_seq. lia.
Qed.

(** X16: [bulk_generate.main] never prints the warning of line 95: the
    loop over the words is left at line 131 as soon as a word brings
    [consecutive_failures] to 5, so the test of line 94 never holds when a
    round starts.  [consecutive_failures] never exceeds 5, and the number
    of calls of the generator is at most the number of words times
    [retries + 1]. *)
Theorem five_failures_stop_silently (set_order : list str -> list str)
        (generate_for_word : generator)
        (word_lists : word_files) (files : filesystem) (a : args) :
  ~ In Stopping (printed (main set_order generate_for_word word_lists files a)) /\
  consecutive_failures (main set_order generate_for_word word_lists files a) <= 5 /\
  calls (main set_order generate_for_word word_lists files a) <=
  length (snd (load_word_list word_lists (word_list a))) *
  Z.to_nat (retries a + 1).
Proof.
  destruct (snd (load_word_list word_lists (word_list a))) as [|w0 ws] eqn:Ew.
  - rewrite (main_no_words set_order generate_for_word word_lists files a Ew).
    simpl. split; [apply load_word_list_printed | lia].
  - destruct (@main_loop set_order generate_for_word word_lists files a)
      as (m & Hm & ->); [congruence|].
    rewrite Ew.
    pose proof (@words_loop_spec generate_for_word a
                  (word_set set_order (w0 :: ws)) (length (w0 :: ws))
                  (enumerate_from 1 (w0 :: ws))
                  (loop_start set_order word_lists files a))
      as H.
    destruct H as ([_ _ (msgs & Hp & Hs)] & _ & Hc & Hk); [simpl; lia|].
    cbn [printed print consecutive_failures calls].
    rewrite enumerate_from_length in Hk. split; [|split].
    + rewrite Hp. intros H. apply in_app_or in H as [H|H].
      * apply in_app_or in H as [H|H]; [|contradiction].
        unfold loop_start in H. cbn [printed] in H.
        apply in_app_or in H as [H|H].
        -- now apply load_word_list_printed in H.
        -- now apply get_sentence_counts_printed in H.
      * destruct H as [H|[]]. congruence.
    + exact Hc.
    + exact Hk.
Qed.

(** X17: when [generate_for_word] does not write the output file (it
    writes the dictionary files of [cedict_tool.py]), the counts at the end
    of [bulk_generate.main] are those of the output file as it is then,
    for every word, and the output file is the one of the start followed
    by [total_new_count] new sentences.  [main] itself writes no other
    file: a file that is not the output file and that [generate_for_word]
    leaves alone is at the end what it was at the start. *)
Theorem counts_follow_the_output_file (set_order : list str -> list str)
        (generate_for_word : generator)
        (word_lists : word_files) (files : filesystem) (a : args) :
  (forall l, Permutation (set_order l) l) ->
  untouched generate_for_word (output a) ->
  (forall w,
      dd_get w 0 (counts (main set_order generate_for_word word_lists files a)) =
      expected_count
        (snd (load_word_list word_lists (word_list a)))
        (file_data (fs (main set_order generate_for_word word_lists files a))
                   (output a)) w) /\
  (exists added,
      file_data (fs (main set_order generate_for_word word_lists files a))
                (output a) =
      file_data files (output a) ++ added /\
      total_new_count (main set_order generate_for_word word_lists files a) =
      length added) /\
  forall f, f <> output a -> untouched generate_for_word f ->
            fs (main set_order generate_for_word word_lists files a) f = files f.
Proof.
  intros Hperm Hout.
  destruct (snd (load_word_list word_lists (word_list a))) as [|w0 ws] eqn:Ew.
  - rewrite (main_no_words set_order generate_for_word word_lists files a Ew).
    simpl. split; [|split].
    + intros w. reflexivity.
    + exists []. now rewrite app_nil_r.
    + reflexivity.
  - destruct (@main_loop set_order generate_for_word word_lists files a)
      as (m & Hm & ->); [congruence|].
    rewrite Ew.
    pose proof (@words_loop_spec generate_for_word a
                  (word_set set_order (w0 :: ws)) (length (w0 :: ws))
                  (enumerate_from 1 (w0 :: ws))
                  (loop_start set_order word_lists files a))
      as H.
    destruct H as ([Hadd Hf _] & Hs & _ & _); [simpl; lia|].
    destruct (Hadd Hout) as (added & Ha & Hn).
    cbn [fs counts total_new_count print].
    split; [|split].
    + intros w. rewrite (Hs Hout).
      * rewrite (@word_set_count set_order Hperm). unfold expected_count.
        destruct (mem w (w0 :: ws)); lia.
      * intros w'. unfold loop_start. cbn [counts fs]. rewrite Ew.
        rewrite (@get_sentence_counts_get set_order Hperm),
                (@word_set_count set_order Hperm).
        unfold expected_count. destruct (mem w' (w0 :: ws)); lia.
    + exists added. split; [exact Ha | exact Hn].
    + exact Hf.
Qed.

Lemma sentence_counts_by_substring_witness :
  dd_get (lit "个") 0
    (snd (get_sentence_counts (fun l => l) only_corpus (lit "corpus.yml")
            [lit "那个"; lit "个"])) =
  if mem (lit "个") [lit "那个"; lit "个"]
  then length (filter (fun item => contains (lit "个") (sentence_text item))
                      (file_data only_corpus (lit "corpus.yml")))
  else 0.
Proof.
  apply (@sentence_counts_by_substring (fun l => l) only_corpus
           (lit "corpus.yml") [lit "那个"; lit "个"] (lit "个")).
  intros l. apply Permutation_refl.
Defined.

Lemma downloading_untouched (f : str) :
  f <> lit "cedict_ts.u8" -> untouched downloading f.
Proof.
  intros Hf n files word. unfold downloading, with_dictionary. simpl.
  destruct (str_eq_dec f (lit "cedict_ts.u8")); [contradiction | reflexivity].
Qed.

Lemma counts_follow_the_output_file_witness :
  (forall w,
      dd_get w 0
        (counts (main (fun l => l) downloading
                      hsk_files only_corpus bulk_args)) =
      expected_count
        (snd (load_word_list hsk_files (word_list bulk_args)))
        (file_data (fs (main (fun l => l) downloading
                             hsk_files only_corpus bulk_args))
                   (output bulk_args)) w) /\
  (exists added,
      file_data (fs (main (fun l => l) downloading
                          hsk_files only_corpus bulk_args))
                (output bulk_args) =
      file_data only_corpus (output bulk_args) ++ added /\
      total_new_count (main (fun l => l) downloading
                            hsk_files only_corpus bulk_args) =
      length added) /\
  forall f, f <> output bulk_args -> untouched downloading f ->
            fs (main (fun l => l) downloading
                     hsk_files only_corpus bulk_args) f = only_corpus f.
Proof.
  apply (@counts_follow_the_output_file (fun l => l)
           downloading hsk_files only_corpus bulk_args).
  - intros l. apply Permutation_refl.
  - apply downloading_untouched. vm_compute. discriminate.
Defined.

(** The dictionary file is written in the course of the run, by
    [generate_for_word]. *)
Example dictionary_downloaded :
  only_corpus (lit "cedict_ts.u8") = None /\
  fs (main (fun l => l) downloading hsk_files only_corpus bulk_args)
     (lit "cedict_ts.u8") = Some (YamlError (lit "not a YAML document")) /\
  fs (main (fun l => l) timing_out hsk_files only_corpus bulk_args)
     (lit "cedict_ts.u8") = Some (YamlError (lit "not a YAML document")).
Proof. vm_compute. auto. Qed.

(** When every call fails, the run makes five calls, four for the first
    word and one for the second, and ends without the warning of line 95. *)
Example five_failures_in_a_row :
  let st := main (fun l => l) timing_out
                 hsk_files only_corpus bulk_args in
  calls st = 5 /\ consecutive_failures st = 5 /\
  map (fun m => match m with
                | ErrorGenerating i _ _ attempt _ failures _ => (i, attempt, failures)
                | _ => (0, 0, 0)
                end)
      (filter (fun m => match m with ErrorGenerating _ _ _ _ _ _ _ => true | _ => false end)
              (printed st)) =
  [(1, 1, 1); (1, 2, 2); (1, 3, 3); (1, 4, 4); (2, 1, 5)] /\
  last (printed st) NoNewSentences = NoNewSentences.
Proof. vm_compute. auto. Qed.

End BulkGenerateFacts.

Section AudioNormalizeFacts.
Import audio_gen.

Lemma replace_file_name_chars text :
  Forall (fun c => file_name_char c = true) (replace_non_alphanumeric text).
Proof.
  unfold replace_non_alphanumeric. apply Forall_map, Forall_forall.
  intros c _. unfold file_name_char. destruct (is_a_z_0_9 c) eqn:E.
  - now rewrite E.
  - reflexivity.
Qed.

Lemma collapse_cons c d r :
  collapse_underscores (c :: d :: r) =
  if is_underscore c && is_underscore d then collapse_underscores (d :: r)
  else c :: collapse_underscores (d :: r).
Proof. reflexivity. Qed.

Lemma single_cons c d r :
  single_underscores (c :: d :: r) =
  negb (is_underscore c && is_underscore d) && single_underscores (d :: r).
Proof. reflexivity. Qed.

Lemma collapse_head c text :
  exists r, collapse_underscores (c :: text) = c :: r.
Proof.
  revert c. induction text as [|d text IH]; intros c; [now exists []|].
  rewrite collapse_cons. destruct (is_underscore c && is_underscore d) eqn:E.
  - apply andb_true_iff in E as [Ec Ed]. unfold is_underscore in Ec, Ed.
    apply N.eqb_eq in Ec, Ed. subst c d. apply IH.
  - eexists. reflexivity.
Qed.

Lemma collapse_Forall (P : char -> Prop) text :
  Forall P text -> Forall P (collapse_underscores text).
Proof.
  induction text as [|c text IH]; intros H; [assumption|].
  destruct text as [|d text]; [assumption|].
  rewrite collapse_cons. inversion H; subst.
  destruct (is_underscore c && is_underscore d); [auto|].
  constructor; auto.
Qed.

Lemma collapse_single text : single_underscores (collapse_underscores text) = true.
Proof.
  induction text as [|c text IH]; [reflexivity|].
  destruct text as [|d text]; [reflexivity|].
  rewrite collapse_cons.
  destruct (is_underscore c && is_underscore d) eqn:E; [exact IH|].
  destruct (collapse_head d text) as [r H]. rewrite H in *.
  rewrite single_cons, E. exact IH.
Qed.

Lemma collapse_fixed text :
  single_underscores text = true -> collapse_underscores text = text.
Proof.
  induction text as [|c text IH]; [reflexivity|].
  destruct text as [|d text]; [reflexivity|].
  rewrite single_cons, collapse_cons. intros H.
  apply andb_true_iff in H as [H1 H2]. apply negb_true_iff in H1.
  rewrite H1. f_equal. auto.
Qed.

Lemma single_tail c s : single_underscores (c :: s) = true -> single_underscores s = true.
Proof.
  destruct s as [|d s]; [reflexivity|]. rewrite single_cons.
  intros H. now apply andb_true_iff in H as [_ H].
Qed.

Lemma single_lstrip p s :
  single_underscores s = true -> single_underscores (lstrip_by p s) = true.
Proof.
  induction s as [|c s IH]; [reflexivity|]. intros H. simpl lstrip_by.
  destruct (p c); [|exact H]. apply IH. now apply single_tail in H.
Qed.

Lemma single_app_last s c :
  single_underscores (s ++ [c]) = true -> single_underscores s = true.
Proof.
  induction s as [|a s IH]; [reflexivity|].
  destruct s as [|b s]; [reflexivity|].
  change ((a :: b :: s) ++ [c]) with (a :: b :: (s ++ [c])).
  rewrite !single_cons. intros H. apply andb_true_iff in H as [H1 H2].
  rewrite H1. apply IH. exact H2.
Qed.

Lemma single_rev s : single_underscores (rev s) = single_underscores s.
Proof.
  assert (Hsnoc : forall s c d,
             single_underscores (s ++ [d; c]) =
             single_underscores (s ++ [d]) &&
             negb (is_underscore d && is_underscore c)).
  { clear. induction s as [|a s IH]; intros c d.
    - simpl. now rewrite andb_true_r.
    - destruct s as [|b s].
      + simpl. rewrite !andb_true_r. reflexivity.
      + change ((a :: b :: s) ++ [d; c]) with (a :: b :: (s ++ [d; c])).
        change ((a :: b :: s) ++ [d]) with (a :: b :: (s ++ [d])).
        rewrite !single_cons.
        change (b :: s ++ [d; c]) with ((b :: s) ++ [d; c]).
        change (b :: s ++ [d]) with ((b :: s) ++ [d]).
        rewrite (IH c d). now rewrite andb_assoc. }
  induction s as [|c s IH]; [reflexivity|].
  destruct s as [|d s]; [reflexivity|].
  rewrite single_cons. simpl rev in *. rewrite <- app_assoc. simpl app.
  rewrite Hsnoc, IH. rewrite (andb_comm (is_underscore d)). apply andb_comm.
Qed.

Lemma single_strip p s :
  single_underscores s = true -> single_underscores (strip_by p s) = true.
Proof.
  intros H. unfold strip_by, rstrip_by. rewrite single_rev.
  apply single_lstrip. rewrite single_rev. now apply single_lstrip.
Qed.

Lemma lstrip_Forall (P : char -> Prop) p s :
  Forall P s -> Forall P (lstrip_by p s).
Proof.
  induction 1 as [|c s Hc H IH]; simpl; [constructor|].
  destruct (p c); [assumption | now constructor].
Qed.

Lemma strip_Forall (P : char -> Prop) p s :
  Forall P s -> Forall P (strip_by p s).
Proof.
  intros H. unfold strip_by, rstrip_by. apply Forall_rev, lstrip_Forall,
    Forall_rev, lstrip_Forall, H.
Qed.

Section NormalizeFacts.
Context {U : UCD}.
Variable kd : char -> str.

Lemma normalize_shape text :
  Forall (fun c => file_name_char c = true) (normalize kd text) /\
  single_underscores (normalize kd text) = true /\
  unstrippable is_underscore (normalize kd text) /\
  unstrippable is_underscore (rev (normalize kd text)).
Proof.
  unfold normalize. split; [|split; [|split]].
  - apply strip_Forall, collapse_Forall, replace_file_name_chars.
  - apply single_strip, collapse_single.
  - apply strip_by_head.
  - apply strip_by_last.
Qed.
End NormalizeFacts.

(** X18: [normalize] of [audio-gen/generate.py] returns a file name of
    lowercase ASCII letters, digits and underscores only, with no two
    underscores in a row and none at either end, whatever the text and the
    decomposition tables. *)
Theorem normalize_file_name (U : UCD) (kd : char -> str) (text : str) :
  Forall (fun c => is_a_z_0_9 c = true \/ c = UNDERSCORE) (normalize kd text) /\
  single_underscores (normalize kd text) = true /\
  (forall r, normalize kd text <> UNDERSCORE :: r) /\
  (forall r, normalize kd text <> r ++ [UNDERSCORE]).
Proof.
  destruct (normalize_shape kd text) as (Ha & Hs & Hh & Hl).
  split; [|split; [exact Hs|split]].
  - eapply Forall_impl; [|exact Ha]. intros c Hc. unfold file_name_char in Hc.
    apply orb_true_iff in Hc as [Hc|Hc]; [now left | right].
    now apply N.eqb_eq in Hc.
  - intros r E. rewrite E in Hh. simpl in Hh. discriminate.
  - intros r E. rewrite E, rev_app_distr in Hl. simpl in Hl. discriminate.
Qed.

Section NormalizeAgain.
Context {U : UCD}.
Variable kd : char -> str.

(** The tables leave the code points of a file name alone. *)
Hypothesis ascii_plain :
  forall c, file_name_char c = true ->
            kd c = [c] /\ combining c = 0%N /\ tolower_full c = [c].

Lemma canonical_order_starters s :
  Forall (fun c => combining c = 0%N) s -> canonical_order s = s.
Proof.
  intros H. unfold canonical_order.
  assert (E : forall acc, fold_left canonical_step s acc = rev s ++ acc).
  { induction H as [|c s Hc _ IH]; intros acc; [reflexivity|].
    simpl. unfold canonical_step at 2. rewrite Hc. simpl.
    rewrite IH, <- app_assoc. reflexivity. }
  rewrite E, app_nil_r. apply rev_involutive.
Qed.

Lemma file_name_not_sigma c : file_name_char c = true -> is_sigma c = false.
Proof.
  unfold file_name_char, is_a_z_0_9, is_underscore, is_sigma, between,
    UNDERSCORE, CAPITAL_SIGMA.
  intros H. apply N.eqb_neq. intros ->. vm_compute in H. discriminate.
Qed.

Lemma replace_fixed s :
  Forall (fun c => file_name_char c = true) s ->
  replace_non_alphanumeric s = s.
Proof.
  unfold replace_non_alphanumeric.
  induction 1 as [|c s Hc _ IH]; simpl; [reflexivity|]. rewrite IH. f_equal.
  unfold file_name_char in Hc. destruct (is_a_z_0_9 c); [reflexivity|].
  simpl in Hc. unfold is_underscore in Hc. apply N.eqb_eq in Hc. now subst.
Qed.

Lemma normalize_fixed s :
  Forall (fun c => file_name_char c = true) s ->
  single_underscores s = true ->
  unstrippable is_underscore s -> unstrippable is_underscore (rev s) ->
  normalize kd s = s.
Proof.
  intros Ha Hs Hh Hl. unfold normalize, normalize_NFKD.
  assert (E1 : flat_map kd s = s).
  { apply flat_map_fixed. eapply Forall_impl; [|exact Ha].
    intros c Hc. now apply ascii_plain in Hc. }
  assert (Hc0 : Forall (fun c => combining c = 0%N) s).
  { eapply Forall_impl; [|exact Ha]. intros c Hc. now apply ascii_plain in Hc. }
  rewrite E1, (canonical_order_starters Hc0).
  rewrite filter_all
    by (eapply Forall_impl; [|exact Hc0]; intros c Hc; now apply N.eqb_eq).
  rewrite lower_plain
    by (eapply Forall_impl; [|exact Ha]; intros c Hc; now apply file_name_not_sigma).
  rewrite flat_map_fixed
    by (eapply Forall_impl; [|exact Ha]; intros c Hc; now apply ascii_plain in Hc).
  rewrite (replace_fixed Ha), (collapse_fixed _ Hs).
  now apply strip_by_fixed.
Qed.

Lemma normalize_twice text : normalize kd (normalize kd text) = normalize kd text.
Proof.
  destruct (normalize_shape kd text) as (Ha & Hs & Hh & Hl).
  now apply normalize_fixed.
Qed.
End NormalizeAgain.

(** X19: [normalize] is idempotent, when the Unicode tables leave the
    lowercase ASCII letters, the digits and the underscore as they are. *)
Theorem normalize_idempotent (U : UCD) (kd : char -> str) (text : str) :
  (forall c, is_a_z_0_9 c = true \/ c = UNDERSCORE ->
             kd c = [c] /\ combining c = 0%N /\ tolower_full c = [c]) ->
  normalize kd (normalize kd text) = normalize kd text.
Proof.
  intros H. apply normalize_twice. intros c Hc. apply H.
  unfold file_name_char in Hc. apply orb_true_iff in Hc as [Hc|Hc]; [now left|].
  right. now apply N.eqb_eq in Hc.
Qed.

Lemma fragment_ascii_plain (c : char) :
  is_a_z_0_9 c = true \/ c = UNDERSCORE ->
  @decomposition fragment_ucd c = [c] /\
  @combining fragment_ucd c = 0%N /\ @tolower_full fragment_ucd c = [c].
Proof.
  intros [H| ->]; [|vm_compute; auto].
  unfold is_a_z_0_9 in H. simpl. unfold fragment_row.
  apply orb_true_iff in H as [H|H].
  - assert (E : between 65 90 c = false).
    { unfold between in *. apply andb_true_iff in H as [H1 H2].
      apply N.leb_le in H1. apply andb_false_iff. right. apply N.leb_gt. lia. }
    rewrite E, H. simpl. auto.
  - assert (E1 : between 65 90 c = false).
    { unfold between in *. apply andb_true_iff in H as [H1 H2].
      apply N.leb_le in H2. apply andb_false_iff. left. apply N.leb_gt. lia. }
    assert (E2 : between 97 122 c = false).
    { unfold between in *. apply andb_true_iff in H as [H1 H2].
      apply N.leb_le in H2. apply andb_false_iff. left. apply N.leb_gt. lia. }
    rewrite E1, E2, H. simpl. auto.
Qed.

Lemma normalize_idempotent_witness :
  @normalize fragment_ucd (@decomposition fragment_ucd)
     (@normalize fragment_ucd (@decomposition fragment_ucd) (lit "Nǐ hǎo, LǙ!")) =
  @normalize fragment_ucd (@decomposition fragment_ucd) (lit "Nǐ hǎo, LǙ!").
Proof.
  apply (@normalize_idempotent fragment_ucd (@decomposition fragment_ucd)
           (lit "Nǐ hǎo, LǙ!")).
  exact fragment_ascii_plain.
Defined.

Example normalize_greeting :
  @normalize fragment_ucd (@decomposition fragment_ucd) (lit "Nǐ hǎo, LǙ!") =
  lit "ni_hao_lu" /\
  @normalize fragment_ucd (@decomposition fragment_ucd) (lit "你好。") = [].
Proof. split; vm_compute; reflexivity. Qed.

End AudioNormalizeFacts.

Lemma grows_refl st : grows 0 st st.
Proof.
  split; [auto|]. split; [lia|]. exists []. rewrite app_nil_r.
  repeat split; auto; try constructor; contradiction.
Qed.

Lemma grows_weaken k k' st st' : k <= k' -> grows k st st' -> grows k' st st'.
Proof.
  intros Hk (H1 & H2 & H3). split; [assumption|]. split; [lia | assumption].
Qed.

Lemma grows_trans k1 k2 st1 st2 st3 :
  grows k1 st1 st2 -> grows k2 st2 st3 -> grows (k1 + k2) st1 st3.
Proof.
  intros (Hk1 & Hr1 & n1 & Hw1 & Hd1 & Hn1 & Ho1)
         (Hk2 & Hr2 & n2 & Hw2 & Hd2 & Hn2 & Ho2).
  split; [auto|]. split; [lia|].
  exists (n1 ++ n2). split; [now rewrite Hw2, Hw1, app_assoc|].
  split; [|split].
  - apply NoDup_app; try assumption.
    intros n Hin1 Hin2. apply Hn1 in Hin1 as [_ H]. apply Hn2 in Hin2 as [H' _].
    contradiction.
  - intros n Hin. apply in_app_or in Hin as [Hin|Hin].
    + destruct (Hn1 n Hin) as [Ha Hb]. split; [assumption|].
      destruct (audio_gen.files st2 n) as [c|] eqn:E; [|congruence].
      rewrite (Hk2 n c E). discriminate.
    + destruct (Hn2 n Hin) as [Ha Hb]. split; [|assumption].
      destruct (audio_gen.files st1 n) as [c|] eqn:E; [|reflexivity].
      rewrite (Hk1 n c E) in Ha. discriminate.
  - intros f Hf Hni. apply Ho2.
    + apply Ho1; [assumption|]. intros H. apply Hni, in_or_app. now left.
    + intros H. apply Hni, in_or_app. now right.
Qed.

Section AudioFacts.
Context {U : UCD}.
Variable kd : char -> str.
Variable post : nat -> str -> str -> audio_gen.response.

Lemma generate_audio_grows text voice_id output_name st :
  grows 1 st (audio_gen.generate_audio post text voice_id output_name st).
Proof.
  unfold audio_gen.generate_audio.
  destruct (audio_gen.files st output_name) as [c|] eqn:Ef.
  - apply (@grows_weaken 0 1); [lia | apply grows_refl].
  - destruct (post (audio_gen.requests st) voice_id text)
      as [status content body|e].
    + destruct (status =? 200).
      * split; [|split]; simpl.
        -- intros f c Hf. destruct (str_eq_dec f output_name); [congruence | assumption].
        -- lia.
        -- exists [output_name]. split; [reflexivity|]. split; [|split].
           ++ repeat constructor. tauto.
           ++ intros n [<-|[]]. split; [assumption|].
              destruct (str_eq_dec output_name output_name); [discriminate | congruence].
           ++ intros f Hf Hni. destruct (str_eq_dec f output_name) as [->|]; [|assumption].
              exfalso. apply Hni. now left.
      * split; [auto|]. split; [simpl; lia|]. exists []. simpl. rewrite app_nil_r.
        repeat split; auto; try constructor; contradiction.
    + split; [auto|]. split; [simpl; lia|]. exists []. simpl. rewrite app_nil_r.
      repeat split; auto; try constructor; contradiction.
Qed.

Lemma generate_for_voices_grows voices text key st :
  grows (length voices) st
        (audio_gen.generate_for_voices kd post voices text key st).
Proof.
  unfold audio_gen.generate_for_voices.
  revert st. induction voices as [|v voices IH]; intros st; [apply grows_refl|].
  simpl fold_left. change (length (v :: voices)) with (1 + length voices).
  eapply grows_trans; [apply generate_audio_grows | apply IH].
Qed.

Lemma generate_item_grows st item :
  grows 4 st (audio_gen.generate_item kd post st item).
Proof.
  unfold audio_gen.generate_item. change 4 with (2 + 2).
  set (st1 := match english item with
              | Some eng_text => _
              | None => st
              end).
  apply grows_trans with (st2 := st1).
  - subst st1. destruct (english item).
    + apply (generate_for_voices_grows audio_gen.DEFAULT_ENGLISH_VOICES).
    + apply (@grows_weaken 0 2); [lia | apply grows_refl].
  - destruct (chunks item) as [cs|];
      [|apply (@grows_weaken 0 2); [lia | apply grows_refl]].
    destruct (truthy (full_chinese cs));
      [|apply (@grows_weaken 0 2); [lia | apply grows_refl]].
    apply (generate_for_voices_grows audio_gen.DEFAULT_CHINESE_VOICES).
Qed.

Lemma generate_all_grows data st :
  grows (4 * length data) st (audio_gen.generate_all kd post data st).
Proof.
  unfold audio_gen.generate_all.
  revert st. induction data as [|item data IH]; intros st; [apply grows_refl|].
  simpl fold_left. replace (4 * length (item :: data)) with (4 + 4 * length data)
    by (simpl; lia).
  eapply grows_trans; [apply generate_item_grows | apply IH].
Qed.
End AudioFacts.

(** X20: the loop of [audio-gen/generate.py] never overwrites or removes
    an audio file: the files of the start keep their content, the names it
    writes are new, distinct and then present, no other name appears, and
    it sends at most four requests for an item. *)
Theorem audio_files_written_once (U : UCD) (kd : char -> str)
        (post : nat -> str -> str -> audio_gen.response)
        (data : list entry) (st : audio_gen.state) :
  (forall f c, audio_gen.files st f = Some c ->
               audio_gen.files (audio_gen.generate_all kd post data st) f = Some c) /\
  audio_gen.requests (audio_gen.generate_all kd post data st) <=
  audio_gen.requests st + 4 * length data /\
  exists new,
    audio_gen.written (audio_gen.generate_all kd post data st) =
    audio_gen.written st ++ new /\
    NoDup new /\
    (forall n, In n new ->
               audio_gen.files st n = None /\
               audio_gen.files (audio_gen.generate_all kd post data st) n <> None) /\
    (forall f, audio_gen.files st f = None -> ~ In f new ->
               audio_gen.files (audio_gen.generate_all kd post data st) f = None).
Proof. apply generate_all_grows. Qed.

Example sell_shares_the_audio_of_buy :
  audio_gen.written
    (@audio_gen.generate_all fragment_ucd (@decomposition fragment_ucd)
       (fun _ _ _ => audio_gen.Response 200 [] []) buy_and_sell no_audio) =
  [ lit "julia_to_buy.mp3"; lit "jin_to_buy.mp3";
    lit "julia_mai.mp3"; lit "jin_mai.mp3";
    lit "julia_to_sell.mp3"; lit "jin_to_sell.mp3" ].
Proof. vm_compute. reflexivity. Qed.

(** X21: [run_ai] with the model name [free] never raises the
    [ValueError] of line 93: whatever [random.choice] draws from
    [FREE_MODELS], the request goes to OpenRouter with the drawn model and
    the prompt, after the message of line 86. *)
Theorem free_model_goes_to_openrouter (choice : nat) (prompt : str) :
  choice < length ai_wrappers.FREE_MODELS ->
  In (nth choice ai_wrappers.FREE_MODELS []) ai_wrappers.FREE_MODELS /\
  ai_wrappers.run_ai choice (lit "free") prompt =
  ([ai_wrappers.SelectedFree (nth choice ai_wrappers.FREE_MODELS [])],
   Some (ai_wrappers.OpenRouter (nth choice ai_wrappers.FREE_MODELS []) prompt)).
Proof.
  intros H. split; [now apply nth_In|].
  do 5 (destruct choice as [|choice]; [vm_compute; reflexivity|]).
  simpl in H. lia.
Qed.

Lemma free_model_goes_to_openrouter_witness :
  In (nth 3 ai_wrappers.FREE_MODELS []) ai_wrappers.FREE_MODELS /\
  ai_wrappers.run_ai 3 (lit "free") (lit "hello") =
  ([ai_wrappers.SelectedFree (nth 3 ai_wrappers.FREE_MODELS [])],
   Some (ai_wrappers.OpenRouter (nth 3 ai_wrappers.FREE_MODELS []) (lit "hello"))).
Proof.
  apply (@free_model_goes_to_openrouter 3 (lit "hello")). vm_compute. lia.
Defined.

(** X24: [run_ai] calls Bedrock only for one of the three names of
    [mapping], with the identifier that [mapping] gives and the prompt as
    it is, and without a message: the default of [mapping.get] in
    [get_claude_model_id] (line 40) is never what [run_ai] sends. *)
Theorem bedrock_only_with_mapped_ids (choice : nat) (model_name prompt : str)
        (out : list ai_wrappers.message) (model_id prompt' : str) :
  ai_wrappers.run_ai choice model_name prompt =
  (out, Some (ai_wrappers.Bedrock model_id prompt')) ->
  out = [] /\ prompt' = prompt /\
  In (model_name, model_id) ai_wrappers.mapping /\
  model_id <> model_name.
Proof.
  unfold ai_wrappers.run_ai.
  destruct (str_eqb model_name (lit "free")) eqn:Ef.
  - do 5 (destruct choice as [|choice]; [vm_compute; discriminate|]).
    destruct choice; vm_compute; discriminate.
  - destruct (mem model_name [lit "Haiku"; lit "Sonnet"; lit "Opus"]) eqn:Em.
    + intros [= <- <- <-]. apply mem_In in Em.
      destruct Em as [<-|[<-|[<-|[]]]];
        (repeat split; [vm_compute; auto | vm_compute; discriminate]).
    + destruct (_ || _); discriminate.
Qed.

Lemma bedrock_only_with_mapped_ids_witness :
  [] = @nil ai_wrappers.message /\ lit "hello" = lit "hello" /\
  In (lit "Sonnet", ai_wrappers.get_claude_model_id (lit "Sonnet"))
     ai_wrappers.mapping /\
  ai_wrappers.get_claude_model_id (lit "Sonnet") <> lit "Sonnet".
Proof.
  apply (@bedrock_only_with_mapped_ids 0 (lit "Sonnet") (lit "hello") []
           (ai_wrappers.get_claude_model_id (lit "Sonnet")) (lit "hello")).
  vm_compute. reflexivity.
Defined.

(** ** [lookup_word] of [cedict_tool.py] *)

Lemma split_on_cons sep s : exists w ws, split_on sep s = w :: ws.
Proof.
  induction s as [|c r IH]; simpl; [now exists [], []|].
  destruct (c =? sep)%N; [now exists [], (split_on sep r)|].
  destruct IH as (w & ws & ->). now exists (c :: w), ws.
Qed.

Lemma split_on_app sep w r :
  Forall (fun c => (c =? sep)%N = false) w ->
  split_on sep (w ++ sep :: r) = w :: split_on sep r.
Proof.
  induction 1 as [|c w Hc _ IH]; simpl.
  - now rewrite N.eqb_refl.
  - now rewrite Hc, IH.
Qed.

Lemma split_on_word sep w :
  Forall (fun c => (c =? sep)%N = false) w -> split_on sep w = [w].
Proof.
  induction 1 as [|c w Hc _ IH]; simpl; [reflexivity|]. now rewrite Hc, IH.
Qed.

Lemma split_on_join sep parts :
  parts <> [] ->
  Forall (Forall (fun c => (c =? sep)%N = false)) parts ->
  split_on sep (join [sep] parts) = parts.
Proof.
  intros Hne H. induction H as [|p rest Hp Hrest IH]; [congruence|].
  destruct rest as [|q rest].
  - simpl. now apply split_on_word.
  - change (join [sep] (p :: q :: rest)) with (p ++ sep :: join [sep] (q :: rest)).
    rewrite (@split_on_app sep p _ Hp), IH; [reflexivity | discriminate].
Qed.

Lemma length_split_on sep s : 1 <= length (split_on sep s).
Proof. destruct (split_on_cons sep s) as (w & ws & ->). simpl. lia. Qed.

Lemma strip_line c m :
  is_space c = false ->
  strip (c :: m ++ [cedict_tool.SLASH; cedict_tool.LINE_FEED])
  = c :: m ++ [cedict_tool.SLASH].
Proof.
  intros Hc. unfold strip, strip_by, rstrip_by.
  cbn [lstrip_by]. rewrite Hc.
  replace (rev (c :: m ++ [cedict_tool.SLASH; cedict_tool.LINE_FEED]))
    with (cedict_tool.LINE_FEED :: cedict_tool.SLASH :: rev (c :: m)).
  - cbn [lstrip_by].
    change (is_space cedict_tool.LINE_FEED) with true.
    change (is_space cedict_tool.SLASH) with false. cbn iota.
    change (cedict_tool.SLASH :: rev (c :: m))
      with (rev [cedict_tool.SLASH] ++ rev (c :: m)).
    now rewrite <- rev_app_distr, rev_involutive.
  - change (c :: m ++ [cedict_tool.SLASH; cedict_tool.LINE_FEED])
      with ((c :: m) ++ [cedict_tool.SLASH; cedict_tool.LINE_FEED]).
    now rewrite rev_app_distr.
Qed.

Lemma dots_app body rest :
  Forall (fun c => (c =? cedict_tool.LINE_FEED)%N = false) body ->
  cedict_tool.dots (body ++ cedict_tool.LINE_FEED :: rest) = body.
Proof.
  induction 1 as [|c body Hc _ IH]; simpl; [reflexivity|]. now rewrite Hc, IH.
Qed.

Lemma greedy_to_slash_last body :
  cedict_tool.greedy_to_slash (body ++ [cedict_tool.SLASH]) = Some body.
Proof. induction body as [|c body IH]; simpl; [reflexivity|]. now rewrite IH. Qed.

Lemma lazy_group_first group1 body rest :
  Forall (fun c => (c =? cedict_tool.RIGHT_BRACKET)%N = false /\
                   (c =? cedict_tool.LINE_FEED)%N = false) group1 ->
  Forall (fun c => (c =? cedict_tool.LINE_FEED)%N = false) body ->
  cedict_tool.lazy_group
    (group1 ++ [cedict_tool.RIGHT_BRACKET; cedict_tool.SPACE; cedict_tool.SLASH]
            ++ body ++ [cedict_tool.SLASH; cedict_tool.LINE_FEED] ++ rest)
  = Some (group1, body).
Proof.
  intros H1 H2. induction H1 as [|c group1 [Hc1 Hc2] _ IH].
  - cbn [app cedict_tool.lazy_group startswith skipn].
    rewrite !N.eqb_refl. cbn [andb].
    replace (body ++ cedict_tool.SLASH :: cedict_tool.LINE_FEED :: rest)
      with ((body ++ [cedict_tool.SLASH]) ++ cedict_tool.LINE_FEED :: rest)
      by now rewrite <- app_assoc.
    rewrite dots_app, greedy_to_slash_last; [reflexivity|].
    apply Forall_app; split; [exact H2 | now repeat constructor].
  - cbn [app cedict_tool.lazy_group startswith].
    rewrite N.eqb_sym, Hc1. cbn [andb]. rewrite Hc2.
    cbn [app] in IH. now rewrite IH.
Qed.

Lemma search_first prefix r :
  Forall (fun c => (c =? cedict_tool.LEFT_BRACKET)%N = false) prefix ->
  cedict_tool.search (prefix ++ cedict_tool.LEFT_BRACKET :: r)
  = match cedict_tool.lazy_group r with
    | Some groups => Some groups
    | None => cedict_tool.search r
    end.
Proof.
  induction 1 as [|c prefix Hc _ IH]; simpl.
  - reflexivity.
  - now rewrite Hc, IH.
Qed.

Lemma forallb_Forall_false (p : char -> bool) (s : str) :
  forallb (fun c => negb (p c)) s = true -> Forall (fun c => p c = false) s.
Proof.
  intros H. apply Forall_forall. intros c Hc.
  rewrite forallb_forall in H. specialize (H c Hc).
  now destruct (p c).
Qed.

Lemma headword_spec w :
  headword w = true ->
  Forall (fun c => is_space c = false) w /\
  Forall (fun c => (c =? cedict_tool.SPACE)%N = false) w /\
  Forall (fun c => (c =? cedict_tool.LEFT_BRACKET)%N = false) w.
Proof.
  unfold headword. rewrite forallb_forall. intros H.
  repeat split; apply Forall_forall; intros c Hc; specialize (H c Hc);
    apply andb_prop in H; destruct H as [H1 H2].
  - now destruct (is_space c).
  - destruct (c =? cedict_tool.SPACE)%N eqn:E; [|reflexivity].
    apply N.eqb_eq in E. subst c. discriminate H1.
  - now destruct (c =? cedict_tool.LEFT_BRACKET)%N.
Qed.

Ltac flatten_app :=
  cbn [app]; repeat (progress (rewrite <- ?app_assoc; cbn [app])).

Lemma lookup_line_comment word found line :
  startswith [NUMBER_SIGN] line = true ->
  cedict_tool.lookup_line word found line = found.
Proof. intros H. unfold cedict_tool.lookup_line. now rewrite H. Qed.

Lemma lookup_line_entry word found e :
  well_formed_entry e = true ->
  cedict_tool.lookup_line word found (cedict_line e)
  = if str_eqb word (cedict_tool.traditional e) ||
       str_eqb word (cedict_tool.simplified e)
    then found ++ [e] else found.
Proof.
  destruct e as [trad simp py defs]. unfold well_formed_entry, cedict_line.
  cbn [cedict_tool.traditional cedict_tool.simplified cedict_tool.pinyin
       cedict_tool.definitions].
  rewrite !andb_true_iff.
  intros [[[[[[H H0] Ht] Hs] H1] Hne] H4].
  destruct (headword_spec _ Ht) as (Ht1 & Ht2 & Ht3).
  destruct (headword_spec _ Hs) as (_ & Hs2 & Hs3).
  assert (Hpy : Forall (fun c => (c =? cedict_tool.RIGHT_BRACKET)%N = false /\
                                 (c =? cedict_tool.LINE_FEED)%N = false) py).
  { apply Forall_forall. intros c Hc. rewrite forallb_forall in H1.
    specialize (H1 c Hc). apply andb_prop in H1. destruct H1 as [A B].
    split; [now destruct (c =? cedict_tool.RIGHT_BRACKET)%N
           | now destruct (c =? cedict_tool.LINE_FEED)%N]. }
  assert (Hdefs : Forall (Forall (fun c => (c =? cedict_tool.SLASH)%N = false)) defs /\
                  Forall (Forall (fun c => (c =? cedict_tool.LINE_FEED)%N = false)) defs).
  { split; apply Forall_forall; intros d Hd; apply Forall_forall; intros c Hc;
      rewrite forallb_forall in H4; specialize (H4 d Hd);
      rewrite forallb_forall in H4; specialize (H4 c Hc);
      apply andb_prop in H4; destruct H4 as [A B].
    - now destruct (c =? cedict_tool.SLASH)%N.
    - now destruct (c =? cedict_tool.LINE_FEED)%N. }
  destruct Hdefs as [Hd1 Hd2].
  assert (Hbody : Forall (fun c => (c =? cedict_tool.LINE_FEED)%N = false)
                         (join [cedict_tool.SLASH] defs)).
  { clear - Hd2. induction Hd2 as [|d rest Hd _ IH]; [constructor|].
    destruct rest as [|d' rest]; [exact Hd|].
    change (join [cedict_tool.SLASH] (d :: d' :: rest))
      with (d ++ cedict_tool.SLASH :: join [cedict_tool.SLASH] (d' :: rest)).
    apply Forall_app; split; [exact Hd|]. constructor; [reflexivity | exact IH]. }
  set (body := join [cedict_tool.SLASH] defs) in *.
  destruct trad as [|t0 trad']; [discriminate H|].
  unfold cedict_tool.lookup_line.
  (* not a comment *)
  replace (startswith [NUMBER_SIGN] (((t0 :: trad') ++ [cedict_tool.SPACE] ++ simp ++
             [cedict_tool.SPACE; cedict_tool.LEFT_BRACKET] ++ py ++
             [cedict_tool.RIGHT_BRACKET; cedict_tool.SPACE; cedict_tool.SLASH] ++
             body ++ [cedict_tool.SLASH; cedict_tool.LINE_FEED])))
    with false.
  2:{ cbn [app startswith] in *. destruct (NUMBER_SIGN =? t0)%N; [discriminate H0 | reflexivity]. }
  (* the stripped line *)
  replace (strip ((t0 :: trad') ++ [cedict_tool.SPACE] ++ simp ++
             [cedict_tool.SPACE; cedict_tool.LEFT_BRACKET] ++ py ++
             [cedict_tool.RIGHT_BRACKET; cedict_tool.SPACE; cedict_tool.SLASH] ++
             body ++ [cedict_tool.SLASH; cedict_tool.LINE_FEED]))
    with ((t0 :: trad') ++ cedict_tool.SPACE :: simp ++ cedict_tool.SPACE ::
            (cedict_tool.LEFT_BRACKET :: py ++
             [cedict_tool.RIGHT_BRACKET; cedict_tool.SPACE; cedict_tool.SLASH] ++
             body ++ [cedict_tool.SLASH])).
  2:{ symmetry.
      transitivity (strip (t0 :: (trad' ++ [cedict_tool.SPACE] ++ simp ++
             [cedict_tool.SPACE; cedict_tool.LEFT_BRACKET] ++ py ++
             [cedict_tool.RIGHT_BRACKET; cedict_tool.SPACE; cedict_tool.SLASH] ++
             body) ++ [cedict_tool.SLASH; cedict_tool.LINE_FEED])).
      - apply (f_equal strip). now flatten_app.
      - rewrite strip_line; [|now inversion Ht1]. now flatten_app. }
  rewrite (@split_on_app cedict_tool.SPACE (t0 :: trad') _ Ht2).
  rewrite (@split_on_app cedict_tool.SPACE simp _ Hs2).
  destruct (split_on_cons cedict_tool.SPACE
              (cedict_tool.LEFT_BRACKET :: py ++
               [cedict_tool.RIGHT_BRACKET; cedict_tool.SPACE; cedict_tool.SLASH] ++
               body ++ [cedict_tool.SLASH])) as (w & ws & ->).
  cbn [length Nat.ltb Nat.leb nth].
  destruct (str_eqb word (t0 :: trad') || str_eqb word simp); [|reflexivity].
  (* the pattern *)
  replace (cedict_tool.search ((t0 :: trad') ++ [cedict_tool.SPACE] ++ simp ++
             [cedict_tool.SPACE; cedict_tool.LEFT_BRACKET] ++ py ++
             [cedict_tool.RIGHT_BRACKET; cedict_tool.SPACE; cedict_tool.SLASH] ++
             body ++ [cedict_tool.SLASH; cedict_tool.LINE_FEED]))
    with (Some (py, body)).
  2:{ symmetry.
      transitivity (cedict_tool.search
        (((t0 :: trad') ++ cedict_tool.SPACE :: simp ++ [cedict_tool.SPACE]) ++
         cedict_tool.LEFT_BRACKET ::
         (py ++ [cedict_tool.RIGHT_BRACKET; cedict_tool.SPACE; cedict_tool.SLASH] ++
          body ++ [cedict_tool.SLASH; cedict_tool.LINE_FEED] ++ []))).
      - apply (f_equal cedict_tool.search). now flatten_app.
      - rewrite search_first.
        + pose proof (lazy_group_first [] Hpy Hbody) as E.
          match goal with
          | |- match ?X with _ => _ end = _ =>
              replace X with (Some (py, body)) by (symmetry; exact E)
          end.
          reflexivity.
        + apply Forall_app; split; [exact Ht3|].
          constructor; [reflexivity|].
          apply Forall_app; split; [exact Hs3 | now repeat constructor]. }
  unfold body. rewrite split_on_join; [reflexivity | | exact Hd1].
  now destruct defs.
Qed.

Lemma lookup_word_app lines word found :
  fold_left (cedict_tool.lookup_line word) lines found
  = found ++ cedict_tool.lookup_word lines word.
Proof.
  unfold cedict_tool.lookup_word. revert found.
  induction lines as [|line lines IH] using rev_ind; intros found.
  - simpl. now rewrite app_nil_r.
  - rewrite !fold_left_app. cbn [fold_left].
    rewrite IH. unfold cedict_tool.lookup_line.
    destruct (startswith [NUMBER_SIGN] line); [reflexivity|].
    destruct (length (split_on cedict_tool.SPACE (strip line)) <? 3); [reflexivity|].
    destruct (_ || _); [|reflexivity].
    destruct (cedict_tool.search line) as [[py g]|]; [|reflexivity].
    cbn [app]. now rewrite app_assoc.
Qed.

Lemma split_on_parts sep s :
  Forall (Forall (fun c => (c =? sep)%N = false)) (split_on sep s).
Proof.
  induction s as [|c r IH]; simpl; [now repeat constructor|].
  destruct (c =? sep)%N eqn:E; [now constructor|].
  destruct (split_on sep r) as [|w ws]; [now repeat constructor|].
  inversion IH; subst. constructor; [now constructor | assumption].
Qed.

Lemma split_on_Forall (P : char -> Prop) sep s :
  Forall P s -> Forall (Forall P) (split_on sep s).
Proof.
  induction 1 as [|c r Hc _ IH]; simpl; [now repeat constructor|].
  destruct (c =? sep)%N; [now constructor|].
  destruct (split_on sep r) as [|w ws]; [now repeat constructor|].
  inversion IH; subst. constructor; [now constructor | assumption].
Qed.

Lemma dots_no_line_feed s :
  Forall (fun c => (c =? cedict_tool.LINE_FEED)%N = false) (cedict_tool.dots s).
Proof.
  induction s as [|c r IH]; simpl; [constructor|].
  destruct (c =? cedict_tool.LINE_FEED)%N eqn:E; [constructor | now constructor].
Qed.

Lemma greedy_to_slash_Forall (P : char -> Prop) s g :
  Forall P s -> cedict_tool.greedy_to_slash s = Some g -> Forall P g.
Proof.
  intros H. revert g. induction H as [|c r Hc _ IH]; simpl; intros g; [discriminate|].
  destruct (cedict_tool.greedy_to_slash r) as [g'|].
  - intros [= <-]. constructor; [exact Hc | now apply IH].
  - destruct (c =? cedict_tool.SLASH)%N; [intros [= <-]; constructor | discriminate].
Qed.

Lemma lazy_group_no_line_feed s group1 group2 :
  cedict_tool.lazy_group s = Some (group1, group2) ->
  Forall (fun c => (c =? cedict_tool.LINE_FEED)%N = false) group1 /\
  Forall (fun c => (c =? cedict_tool.LINE_FEED)%N = false) group2.
Proof.
  revert group1 group2. induction s as [|c r IH]; intros group1 group2.
  - simpl. discriminate.
  - cbn [cedict_tool.lazy_group].
    destruct (if startswith _ (c :: r) then _ else None) as [g|] eqn:E.
    + intros [= <- <-]. split; [constructor|].
      destruct (startswith _ (c :: r)); [|discriminate E].
      exact (greedy_to_slash_Forall (dots_no_line_feed _) E).
    + destruct (c =? cedict_tool.LINE_FEED)%N eqn:Ec; [discriminate|].
      destruct (cedict_tool.lazy_group r) as [[g1 g2]|]; [|discriminate].
      intros [= <- <-]. destruct (IH g1 g2 eq_refl) as [A B].
      split; [now constructor | exact B].
Qed.

Lemma search_no_line_feed line group1 group2 :
  cedict_tool.search line = Some (group1, group2) ->
  Forall (fun c => (c =? cedict_tool.LINE_FEED)%N = false) group1 /\
  Forall (fun c => (c =? cedict_tool.LINE_FEED)%N = false) group2.
Proof.
  induction line as [|c r IH]; simpl; [discriminate|].
  destruct (if (c =? cedict_tool.LEFT_BRACKET)%N then _ else None)
    as [[g1 g2]|] eqn:E.
  - intros [= <- <-].
    destruct (c =? cedict_tool.LEFT_BRACKET)%N; [|discriminate E].
    exact (lazy_group_no_line_feed _ E).
  - exact IH.
Qed.

Lemma nth_split_on sep s n :
  n < length (split_on sep s) ->
  Forall (fun c => (c =? sep)%N = false) (nth n (split_on sep s) []).
Proof.
  intros Hn. pose proof (split_on_parts sep s) as H.
  rewrite Forall_forall in H. apply H. now apply nth_In.
Qed.

Lemma lookup_line_sound word found line :
  exists new,
    cedict_tool.lookup_line word found line = found ++ new /\
    length new <= (if startswith [NUMBER_SIGN] line then 0 else 1) /\
    Forall (entry_for word) new.
Proof.
  unfold cedict_tool.lookup_line.
  destruct (startswith [NUMBER_SIGN] line).
  { exists []. now rewrite app_nil_r. }
  destruct (length (split_on cedict_tool.SPACE (strip line)) <? 3) eqn:El.
  { exists []. rewrite app_nil_r. repeat split; [simpl; lia | constructor]. }
  apply Nat.ltb_ge in El.
  destruct (str_eqb word _ || str_eqb word _) eqn:Ew.
  2:{ exists []. rewrite app_nil_r. repeat split; [simpl; lia | constructor]. }
  destruct (cedict_tool.search line) as [[py g]|] eqn:Es.
  2:{ exists []. rewrite app_nil_r. repeat split; [simpl; lia | constructor]. }
  eexists [_]. split; [reflexivity|]. split; [simpl; lia|].
  constructor; [|constructor].
  destruct (search_no_line_feed _ Es) as [Hpy Hg].
  unfold entry_for.
  cbn [cedict_tool.traditional cedict_tool.simplified cedict_tool.pinyin
       cedict_tool.definitions].
  repeat split.
  - apply orb_prop in Ew. destruct Ew as [E|E]; unfold str_eqb in E;
      destruct (str_eq_dec _ _) as [->|]; try discriminate; [now left | now right].
  - apply nth_split_on. lia.
  - apply nth_split_on. lia.
  - exact Hpy.
  - destruct (split_on_cons cedict_tool.SLASH g) as (w & ws & ->). discriminate.
  - apply split_on_parts.
  - now apply split_on_Forall.
Qed.

Lemma lookup_word_sound_fold lines word :
  length (cedict_tool.lookup_word lines word)
  <= length (filter (fun line => negb (startswith [NUMBER_SIGN] line)) lines) /\
  Forall (entry_for word) (cedict_tool.lookup_word lines word).
Proof.
  unfold cedict_tool.lookup_word.
  induction lines as [|line lines IH] using rev_ind.
  - simpl. split; [lia | constructor].
  - rewrite fold_left_app, filter_app, length_app. cbn [fold_left filter].
    destruct IH as [IH1 IH2].
    destruct (lookup_line_sound word
                (fold_left (cedict_tool.lookup_line word) lines []) line)
      as (new & -> & Hn & Hnew).
    rewrite length_app. split.
    + destruct (startswith [NUMBER_SIGN] line); simpl in *; lia.
    + apply Forall_app. now split.
Qed.

(** X22: on a dictionary file of comment lines followed by the lines of
    well-formed entries, [lookup_word] returns exactly the entries whose
    traditional or simplified form is the word, in the order of the file,
    each with its pinyin and its list of definitions as written. *)
Theorem lookup_word_finds_the_entries
  (header : list str) (entries : list cedict_tool.definition) (word : str) :
  Forall (fun line => startswith [NUMBER_SIGN] line = true) header ->
  forallb well_formed_entry entries = true ->
  cedict_tool.lookup_word (header ++ map cedict_line entries) word
  = filter (fun e => str_eqb word (cedict_tool.traditional e) ||
                     str_eqb word (cedict_tool.simplified e)) entries.
Proof.
  intros Hh He. unfold cedict_tool.lookup_word. rewrite fold_left_app.
  replace (fold_left (cedict_tool.lookup_line word) header []) with
    (@nil cedict_tool.definition).
  2:{ symmetry. induction Hh as [|line header Hl _ IH]; [reflexivity|].
      simpl. now rewrite lookup_line_comment. }
  rewrite forallb_forall in He.
  induction entries as [|e entries IH] using rev_ind; [reflexivity|].
  rewrite map_app, fold_left_app, filter_app. cbn [map fold_left filter].
  rewrite IH by (intros x Hx; apply He, in_or_app; now left).
  rewrite lookup_line_entry by (apply He, in_or_app; right; now left).
  destruct (_ || _); [reflexivity | now rewrite app_nil_r].
Qed.

(** X23: whatever the lines, [lookup_word] returns at most one entry for
    each line that is no comment, every entry it returns has the word as
    its traditional or simplified form and holds at least one definition,
    none with a slash; a word that contains a space is never found. *)
Theorem lookup_word_returns_only_the_word (lines : list str) (word : str) :
  length (cedict_tool.lookup_word lines word)
  <= length (filter (fun line => negb (startswith [NUMBER_SIGN] line)) lines) /\
  Forall (entry_for word) (cedict_tool.lookup_word lines word) /\
  (In cedict_tool.SPACE word -> cedict_tool.lookup_word lines word = []).
Proof.
  destruct (lookup_word_sound_fold lines word) as [H1 H2].
  split; [exact H1|]. split; [exact H2|].
  intros Hsp. destruct (cedict_tool.lookup_word lines word) as [|d ds];
    [reflexivity|].
  exfalso. inversion H2 as [|? ? Hd _]; subst.
  destruct Hd as ([E|E] & Ht & Hs & _);
    [rewrite Forall_forall in Ht; rewrite E in Ht; specialize (Ht _ Hsp)
    |rewrite Forall_forall in Hs; rewrite E in Hs; specialize (Hs _ Hsp)];
    discriminate.
Qed.

Lemma lookup_word_finds_the_entries_witness :
  cedict_tool.lookup_word (cedict_header ++ map cedict_line cedict_entries)
                          (lit "学")
  = [ {| cedict_tool.traditional := lit "學";
         cedict_tool.simplified := lit "学";
         cedict_tool.pinyin := lit "xue2";
         cedict_tool.definitions := [lit "to learn"; lit "to study"] |};
      {| cedict_tool.traditional := lit "学";
         cedict_tool.simplified := lit "学";
         cedict_tool.pinyin := lit "xue2";
         cedict_tool.definitions := [lit "Japanese variant of 學"] |} ].
Proof.
  refine (eq_trans
            (@lookup_word_finds_the_entries cedict_header cedict_entries
               (lit "学") _ _) _).
  - repeat constructor.
  - vm_compute. reflexivity.
  - vm_compute. reflexivity.
Defined.

(** A headword with a left bracket takes the pattern off the pinyin: the
    entry comes back with another reading. *)
Example lookup_word_bracket_in_headword :
  cedict_tool.lookup_word
    [lit "a[b c [d] /e/" ++ [cedict_tool.LINE_FEED]] (lit "c")
  = [ {| cedict_tool.traditional := lit "a[b";
         cedict_tool.simplified := lit "c";
         cedict_tool.pinyin := lit "b c [d";
         cedict_tool.definitions := [lit "e"] |} ].
Proof. vm_compute. reflexivity. Qed.
